(** * mp3-cover-art: the batch pipeline and its logger

    A shallow embedding of [src/logger.js], [src/mp3Processor.js] and
    [src/main.js].
    JavaScript strings are [string]s, JavaScript numbers that count things
    are [Z], and everything the program does to the outside (console, clock,
    file system, child processes) is a transition on an explicit [World]. *)

From Stdlib Require Import ZArith Ascii.
From stdpp Require Import base strings list gmap pretty.

Open Scope Z_scope.

(** ** JavaScript string primitives used by the sources *)

Module JsString.

Definition is_upper (a : ascii) : bool :=
  let n := nat_of_ascii a in (Nat.leb 65 n && Nat.leb n 90)%bool.

Definition is_lower (a : ascii) : bool :=
  let n := nat_of_ascii a in (Nat.leb 97 n && Nat.leb n 122)%bool.

Definition lower_char (a : ascii) : ascii :=
  if is_upper a then ascii_of_nat (nat_of_ascii a + 32) else a.

Definition upper_char (a : ascii) : ascii :=
  if is_lower a then ascii_of_nat (nat_of_ascii a - 32) else a.

Fixpoint map_chars (f : ascii → ascii) (s : string) : string :=
  match s with
  | EmptyString => EmptyString
  | String a s' => String (f a) (map_chars f s')
  end.

(** [String.prototype.toLowerCase] / [toUpperCase] on the ASCII letters.
    No character outside ASCII lowers to one of [.], [m], [p], [3], so the
    comparison with [".mp3"] in [getMp3Files] is decided by this part. *)
Definition toLowerCase : string → string := map_chars lower_char.
Definition toUpperCase : string → string := map_chars upper_char.

Fixpoint startsWith (p s : string) : bool :=
  match p, s with
  | EmptyString, _ => true
  | String a p', String b s' => if Ascii.eqb a b then startsWith p' s' else false
  | String _ _, EmptyString => false
  end.

(** [String.prototype.includes] *)
Fixpoint includes (needle s : string) : bool :=
  if startsWith needle s then true
  else match s with
       | EmptyString => false
       | String _ s' => includes needle s'
       end.

(** White space and line terminators, as [trim] strips them.  A string
    holds the UTF-8 text of the JavaScript string, so a code point outside
    ASCII is two or three bytes: the one-byte ones are U+0009 to U+000D and
    U+0020; the others are U+00A0, U+1680, U+2000 to U+200A, U+2028, U+2029,
    U+202F, U+205F, U+3000 and U+FEFF. *)
Definition is_space (a : ascii) : bool :=
  let n := nat_of_ascii a in
  ((Nat.leb 9 n && Nat.leb n 13) || Nat.eqb n 32)%bool.

Definition is_space2 (a b : ascii) : bool :=
  (Nat.eqb (nat_of_ascii a) 194 && Nat.eqb (nat_of_ascii b) 160)%bool.

Definition is_space3 (a b c : ascii) : bool :=
  let x := nat_of_ascii a in
  let y := nat_of_ascii b in
  let z := nat_of_ascii c in
  ((Nat.eqb x 225 && Nat.eqb y 154 && Nat.eqb z 128)
   || (Nat.eqb x 226 && Nat.eqb y 128
       && ((Nat.leb 128 z && Nat.leb z 138)
           || Nat.eqb z 168 || Nat.eqb z 169 || Nat.eqb z 175))
   || (Nat.eqb x 226 && Nat.eqb y 129 && Nat.eqb z 159)
   || (Nat.eqb x 227 && Nat.eqb y 128 && Nat.eqb z 128)
   || (Nat.eqb x 239 && Nat.eqb y 187 && Nat.eqb z 191))%bool.

Fixpoint trimStart (s : string) : string :=
  match s with
  | EmptyString => EmptyString
  | String a s1 =>
      if is_space a then trimStart s1
      else
        match s1 with
        | EmptyString => s
        | String b s2 =>
            if is_space2 a b then trimStart s2
            else
              match s2 with
              | EmptyString => s
              | String c s3 => if is_space3 a b c then trimStart s3 else s
              end
        end
  end.

(** The same from the end, on the bytes in reverse order. *)
Fixpoint trimStart_rev (s : string) : string :=
  match s with
  | EmptyString => EmptyString
  | String c s1 =>
      if is_space c then trimStart_rev s1
      else
        match s1 with
        | EmptyString => s
        | String b s2 =>
            if is_space2 b c then trimStart_rev s2
            else
              match s2 with
              | EmptyString => s
              | String a s3 => if is_space3 a b c then trimStart_rev s3 else s
              end
        end
  end.

Definition trimEnd (s : string) : string :=
  String.rev (trimStart_rev (String.rev s)).

(** [String.prototype.trim] *)
Definition trim (s : string) : string := trimEnd (trimStart s).

(** [s.split(c)] as its first piece and the pieces after it: the result of
    [split] is never empty. *)
Fixpoint split_on (c : ascii) (s : string) : string * list string :=
  match s with
  | EmptyString => (EmptyString, [])
  | String a s' =>
      let '(h, t) := split_on c s' in
      if Ascii.eqb a c then (EmptyString, h :: t) else (String a h, t)
  end.

Definition split (c : ascii) (s : string) : list string :=
  let '(h, t) := split_on c s in h :: t.

(** [pieces.join(sep)] *)
Fixpoint join (sep : string) (l : list string) : string :=
  match l with
  | [] => ""
  | [x] => x
  | x :: l' => x +:+ sep +:+ join sep l'
  end.

Definition is_empty (s : string) : bool :=
  match s with EmptyString => true | _ => false end.

Fixpoint endsWithChar (c : ascii) (s : string) : bool :=
  match s with
  | EmptyString => false
  | String a EmptyString => Ascii.eqb a c
  | String _ s' => endsWithChar c s'
  end.

End JsString.

(** ** Node's [path] module (POSIX flavour) *)

Module Path.
Import JsString.

Definition slash : ascii := "/"%char.
Definition dot : ascii := "."%char.

Definition segments (p : string) : list string := split slash p.

(** [path.basename(p)]: trailing separators are dropped, and what follows
    the last remaining separator is returned. *)
Definition basename (p : string) : string :=
  List.last (List.filter (λ s, negb (is_empty s)) (segments p)) "".

(** [path.extname(p)]: from the last [.] of the last portion of [p] to its
    end; empty when there is no [.], when the only [.] is the first
    character of that portion, or when the portion is [..]. *)
Definition extname (p : string) : string :=
  let b := basename p in
  if String.eqb b ".." then "" else
  match List.rev (split dot b) with
  | [] | [_] => ""
  | ext :: before =>
      if is_empty (join "." (List.rev before)) then ""
      else String dot ext
  end.

(** One step of [normalizeString]: [stack] holds the kept segments, most
    recent first. *)
Definition norm_step (allowAboveRoot : bool) (stack : list string)
    (seg : string) : list string :=
  if is_empty seg || String.eqb seg "." then stack
  else if String.eqb seg ".." then
    match stack with
    | top :: rest =>
        if String.eqb top ".." then
          (if allowAboveRoot then ".." :: stack else stack)
        else rest
    | [] => if allowAboveRoot then [".."] else []
    end
  else seg :: stack.

Definition norm_segments (allowAboveRoot : bool) (segs : list string)
    : list string :=
  List.rev (List.fold_left (norm_step allowAboveRoot) segs []).

(** [path.normalize(p)] *)
Definition normalize (p : string) : string :=
  if is_empty p then "." else
  let isAbsolute := startsWith "/" p in
  let trailingSeparator := endsWithChar slash p in
  let q := join "/" (norm_segments (negb isAbsolute) (segments p)) in
  if is_empty q then
    (if isAbsolute then "/" else if trailingSeparator then "./" else ".")
  else
    (if isAbsolute then "/" else "") +:+ q
      +:+ (if trailingSeparator then "/" else "").

(** [path.join(...parts)] *)
Definition join_all (parts : list string) : string :=
  let joined := JsString.join "/" (List.filter (λ s, negb (is_empty s)) parts) in
  if is_empty joined then "." else normalize joined.

Definition join (a b : string) : string := join_all [a; b].

Fixpoint drop_slashes (s : string) : string :=
  match s with
  | String a s' => if Ascii.eqb a slash then drop_slashes s' else s
  | EmptyString => EmptyString
  end.

Fixpoint drop_name (s : string) : string :=
  match s with
  | String a s' => if Ascii.eqb a slash then s else drop_name s'
  | EmptyString => EmptyString
  end.

(** [path.dirname(p)]: the scan runs from the end of [p] down to its
    second character: trailing separators are passed, then the last name,
    and what stands before the separator found there is returned. *)
Definition dirname (p : string) : string :=
  match p with
  | EmptyString => "."
  | String first rest =>
      let hasRoot := Ascii.eqb first slash in
      match drop_name (drop_slashes (String.rev rest)) with
      | EmptyString => if hasRoot then "/" else "."
      | String _ before =>
          if hasRoot && is_empty before then "//"
          else String first (String.rev before)
      end
  end.

End Path.

(** ** The outside world *)

(** How a spawned child process is seen through its events. *)
Inductive Channel := Stdout | Stderr.

Inductive Ending :=
| Close (code : option Z)      (* 'close'; the code is null after a signal *)
| Error (message : string).    (* 'error': the process could not be started *)

(** One run of a child process: the 'data' chunks in arrival order, then the
    first event that settles the promise waiting for it.  After an 'error'
    Node still emits 'close', with the negative errno of the failed start as
    code ([pr_errno], -2 for ENOENT): that event finds the promise settled,
    and its handler can only log.  Every child process is taken to end.
    [pr_wrote] tells whether the file named after [-y] exists once the
    process is over. *)
Record ProcRun := {
  pr_data : list (Channel * string);
  pr_ending : Ending;
  pr_errno : Z;
  pr_wrote : bool
}.

(** What the environment answers; the program cannot change it. *)
Record Env := {
  e_cwd : string;                               (* process.cwd() *)
  e_clock : nat → string;                       (* toISOString() of the n-th new Date() *)
  e_readdir : string → string + list string;    (* error message, or the entries *)
  e_ensureDir : string → option string;         (* error message, if it fails *)
  e_ensureFile : string → option string;
  e_appendFile : nat → string → option string;  (* n-th append, to this file *)
  e_spawn : nat → string → list string → ProcRun (* n-th spawn of a command *)
}.

Record World := {
  w_env : Env;
  w_clock_reads : nat;                  (* Date objects created so far *)
  w_stdout : list string;               (* console.log lines, oldest first *)
  w_stderr : list string;               (* console.error lines, oldest first *)
  w_paths : gset string;                (* paths that exist *)
  w_appends : list (string * string);   (* appendFile calls issued: file, data *)
  w_written : list (string * string);   (* those that succeeded *)
  w_spawned : list (string * list string) (* child processes started *)
}.

(** Effects are state transformers on the world.  Work that the sources
    start without awaiting it (every logger call) is run to completion at the
    point where it is started, so each sink sees its writes in issue order. *)
Definition M (A : Type) : Type := World → A * World.

Definition ret {A} (a : A) : M A := λ w, (a, w).
Definition bind {A B} (m : M A) (k : A → M B) : M B :=
  λ w, let '(a, w') := m w in k a w'.

Notation "'let!' x := m 'in' k" := (bind m (λ x, k))
  (at level 10, x name, m at level 100, k at level 200).
Notation "m ;; k" := (bind m (λ _, k))
  (at level 100, k at level 200, right associativity).

Module Sys.

Definition processCwd : M string := λ w, (e_cwd (w_env w), w).

(** [new Date().toISOString()] *)
Definition nowISOString : M string := λ w,
  (e_clock (w_env w) (w_clock_reads w),
   {| w_env := w_env w; w_clock_reads := S (w_clock_reads w);
      w_stdout := w_stdout w; w_stderr := w_stderr w; w_paths := w_paths w;
      w_appends := w_appends w; w_written := w_written w;
      w_spawned := w_spawned w |}).

Definition consoleLog (line : string) : M unit := λ w,
  (tt,
   {| w_env := w_env w; w_clock_reads := w_clock_reads w;
      w_stdout := w_stdout w ++ [line]; w_stderr := w_stderr w;
      w_paths := w_paths w; w_appends := w_appends w;
      w_written := w_written w; w_spawned := w_spawned w |}).

Definition consoleError (line : string) : M unit := λ w,
  (tt,
   {| w_env := w_env w; w_clock_reads := w_clock_reads w;
      w_stdout := w_stdout w; w_stderr := w_stderr w ++ [line];
      w_paths := w_paths w; w_appends := w_appends w;
      w_written := w_written w; w_spawned := w_spawned w |}).

Definition create (p : string) (w : World) : World :=
  {| w_env := w_env w; w_clock_reads := w_clock_reads w;
     w_stdout := w_stdout w; w_stderr := w_stderr w;
     w_paths := {[ p ]} ∪ w_paths w; w_appends := w_appends w;
     w_written := w_written w; w_spawned := w_spawned w |}.

(** [fs.readdir] *)
Definition readdir (dir : string) : M (string + list string) := λ w,
  (e_readdir (w_env w) dir, w).

(** [fs.pathExists]: never rejects *)
Definition pathExists (p : string) : M bool := λ w,
  (bool_decide (p ∈ w_paths w), w).

(** [fs.ensureDir], [fs.ensureFile] of fs-extra: [Some message] when they
    reject.  The directory above the path is taken to exist: only the path
    itself is recorded as made (fs-extra would make a missing parent too). *)
Definition ensureDir (dir : string) : M (option string) := λ w,
  match e_ensureDir (w_env w) dir with
  | Some e => (Some e, w)
  | None => (None, create dir w)
  end.

Definition ensureFile (file : string) : M (option string) := λ w,
  match e_ensureFile (w_env w) file with
  | Some e => (Some e, w)
  | None => (None, create file w)
  end.

(** [fs.appendFile] *)
Definition appendFile (file data : string) : M (option string) := λ w,
  let issued :=
    {| w_env := w_env w; w_clock_reads := w_clock_reads w;
       w_stdout := w_stdout w; w_stderr := w_stderr w;
       w_paths := w_paths w; w_appends := w_appends w ++ [(file, data)];
       w_written := w_written w; w_spawned := w_spawned w |} in
  match e_appendFile (w_env w) (length (w_appends w)) file with
  | Some e => (Some e, issued)
  | None =>
      (None,
       {| w_env := w_env w; w_clock_reads := w_clock_reads w;
          w_stdout := w_stdout w; w_stderr := w_stderr w;
          w_paths := {[ file ]} ∪ w_paths w;
          w_appends := w_appends issued;
          w_written := w_written w ++ [(file, data)];
          w_spawned := w_spawned w |})
  end.

(** The output file of a command line: its last argument, when [-y]
    comes just before it. *)
Definition output_of (args : list string) : option string :=
  match List.rev args with
  | file :: flag :: _ => if String.eqb flag "-y" then Some file else None
  | _ => None
  end.

(** [child_process.spawn]: starts the process and hands back its run.  The
    file named after [-y] exists afterwards when the run says so. *)
Definition spawn (command : string) (args : list string) : M ProcRun := λ w,
  let run := e_spawn (w_env w) (length (w_spawned w)) command args in
  let started :=
    {| w_env := w_env w; w_clock_reads := w_clock_reads w;
       w_stdout := w_stdout w; w_stderr := w_stderr w;
       w_paths := w_paths w; w_appends := w_appends w;
       w_written := w_written w;
       w_spawned := w_spawned w ++ [(command, args)] |} in
  (run,
   match output_of args with
   | Some file => if pr_wrote run then create file started else started
   | None => started
   end).

End Sys.

(** How an awaited promise comes back. *)
Inductive Settled (A : Type) :=
| Resolved (value : A)
| Rejected (message : string).    (* the [message] of the Error thrown *)
Arguments Resolved {A} value.
Arguments Rejected {A} message.

(** ** src/logger.js *)

Module Logger.
Import JsString.

(** The values a property read on [this.logLevels] can give.  A member of
    [Object.prototype] is a function or an object; in a comparison it stands
    for the string it converts to. *)
Inductive JsValue :=
| JsNumber (n : Z)
| JsUndefined
| JsInherited (text : string).

Definition object_prototype_keys : list string :=
  ["constructor"; "__proto__"; "hasOwnProperty"; "isPrototypeOf";
   "propertyIsEnumerable"; "toLocaleString"; "toString"; "valueOf";
   "__defineGetter__"; "__defineSetter__"; "__lookupGetter__";
   "__lookupSetter__"].

(** What a member of [Object.prototype] converts to as a primitive:
    [valueOf] hands the object back, so [toString] decides.  [__proto__] is
    the prototype object itself, [constructor] is the function [Object], and
    the others are native functions that carry their own name. *)
Definition prototype_text (key : string) : string :=
  if String.eqb key "__proto__" then "[object Object]"
  else if String.eqb key "constructor" then "function Object() { [native code] }"
  else "function " +:+ key +:+ "() { [native code] }".

(** [this.logLevels[key]] for the object literal of the constructor *)
Definition logLevels (key : string) : JsValue :=
  if String.eqb key "debug" then JsNumber 0
  else if String.eqb key "info" then JsNumber 1
  else if String.eqb key "warn" then JsNumber 2
  else if String.eqb key "error" then JsNumber 3
  else if bool_decide (key ∈ object_prototype_keys)
       then JsInherited (prototype_text key)
  else JsUndefined.

(** ToNumber; [None] is NaN, which is what [undefined] and each of the
    texts of [prototype_text] give. *)
Definition toNumber (v : JsValue) : option Z :=
  match v with
  | JsNumber n => Some n
  | JsUndefined | JsInherited _ => None
  end.

(** [a >= b]: two strings are compared as strings, code unit by code unit;
    in every other case both sides are turned into numbers, and the
    comparison is false as soon as one of them is NaN. *)
Definition ge (a b : JsValue) : bool :=
  match a, b with
  | JsInherited s, JsInherited t => negb (String.ltb s t)
  | _, _ =>
      match toNumber a, toNumber b with
      | Some x, Some y => (y <=? x)
      | _, _ => false
      end
  end.

(** The fields of a Logger object.  [logDir] and [logFile] are only
    assigned, and only read, when [logToFile] holds. *)
Record logger := {
  logLevel : string;
  logToFile : bool;
  logDir : string;
  logFile : string
}.

Definition getDateString : M string :=
  let! now := Sys.nowISOString in
  ret (fst (split_on "T" now)).

Definition getTimestamp : M string := Sys.nowISOString.

Definition initializeLogFile (this : logger) : M unit :=
  let! r := Sys.ensureDir (logDir this) in
  match r with
  | Some message => Sys.consoleError ("Failed to initialize log file: " +:+ message)
  | None =>
      let! r' := Sys.ensureFile (logFile this) in
      match r' with
      | Some message =>
          Sys.consoleError ("Failed to initialize log file: " +:+ message)
      | None => ret tt
      end
  end.

(** [new Logger(logLevel, logToFile)].  The constructor starts
    [initializeLogFile] and does not wait for it; here it is followed to its
    end on the spot, so the world handed back is the one in which that work
    is over. *)
Definition new (level : string) (toFile : bool) : M logger :=
  if toFile then
    let! cwd := Sys.processCwd in
    let dir := Path.join cwd "logs" in
    let! date := getDateString in
    let this :=
      {| logLevel := level; logToFile := toFile; logDir := dir;
         logFile := Path.join dir ("mp3-cover-art-" +:+ date +:+ ".log") |} in
    initializeLogFile this ;;
    ret this
  else
    ret {| logLevel := level; logToFile := toFile; logDir := ""; logFile := "" |}.

(** The object that [new Logger(level, true)] builds in a world. *)
Definition dated_logger (level : string) (w : World) : logger :=
  let dir := Path.join (e_cwd (w_env w)) "logs" in
  let date := fst (split_on "T" (e_clock (w_env w) (w_clock_reads w))) in
  {| logLevel := level; logToFile := true; logDir := dir;
     logFile := Path.join dir ("mp3-cover-art-" +:+ date +:+ ".log") |}.

Definition shouldLog (this : logger) (level : string) : bool :=
  ge (logLevels level) (logLevels (logLevel this)).

Definition format (timestamp level message : string) : string :=
  "[" +:+ timestamp +:+ "] [" +:+ toUpperCase level +:+ "] " +:+ message.

Definition formatMessage (level message : string) : M string :=
  let! timestamp := getTimestamp in
  ret (format timestamp level message).

Definition newline : string := String (ascii_of_nat 10) "".
Definition esc : string := String (ascii_of_nat 27) "".

Definition writeToFile (this : logger) (formattedMessage : string) : M unit :=
  if logToFile this then
    let! r := Sys.appendFile (logFile this) (formattedMessage +:+ newline) in
    match r with
    | Some message => Sys.consoleError ("Failed to write to log file: " +:+ message)
    | None => ret tt
    end
  else ret tt.

(** The console line for a level: the [switch] of [log]. *)
Definition coloured (level formattedMessage : string) : string :=
  if String.eqb level "debug" then esc +:+ "[36m" +:+ formattedMessage +:+ esc +:+ "[0m"
  else if String.eqb level "info" then esc +:+ "[32m" +:+ formattedMessage +:+ esc +:+ "[0m"
  else if String.eqb level "warn" then esc +:+ "[33m" +:+ formattedMessage +:+ esc +:+ "[0m"
  else if String.eqb level "error" then esc +:+ "[31m" +:+ formattedMessage +:+ esc +:+ "[0m"
  else formattedMessage.

Definition log (this : logger) (level message : string) : M unit :=
  if negb (shouldLog this level) then ret tt
  else
    let! formattedMessage := formatMessage level message in
    Sys.consoleLog (coloured level formattedMessage) ;;
    writeToFile this formattedMessage.

Definition debug (this : logger) (message : string) : M unit := log this "debug" message.
Definition info (this : logger) (message : string) : M unit := log this "info" message.
Definition warn (this : logger) (message : string) : M unit := log this "warn" message.
Definition error (this : logger) (message : string) : M unit := log this "error" message.

Definition getLogFilePath (this : logger) : string := logFile this.

End Logger.

(** ** src/mp3Processor.js *)

Module Mp3Processor.
Import JsString.

(** The counters behind the summary block: the four numbers that
    [processFolder] interpolates into its last log lines. *)
Record Tally := {
  totalDiscovered : Z;     (* mp3Files.length *)
  succeeded : Z;           (* successCount *)
  failed : Z;              (* failureCount *)
  skipped : Z              (* mp3Files.length - successCount - failureCount *)
}.

Section WithLogger.
Variable this_logger : Logger.logger.

Definition is_mp3 (file : string) : bool :=
  String.eqb (toLowerCase (Path.extname file)) ".mp3".

Definition getMp3Files (folderPath : string) : M (Settled (list string)) :=
  let! r := Sys.readdir folderPath in
  match r with
  | inr files =>
      let mp3Files :=
        List.map (λ file, Path.join folderPath file) (List.filter is_mp3 files) in
      Logger.info this_logger
        ("Found " +:+ pretty (Z.of_nat (length mp3Files)) +:+ " MP3 files in "
           +:+ folderPath) ;;
      ret (Resolved mp3Files)
  | inl message =>
      ret (Rejected ("Failed to read directory " +:+ folderPath +:+ ": " +:+ message))
  end.

Definition ffmpegArgs (inputFile coverArtPath outputFile : string) : list string :=
  ["-i"; inputFile; "-i"; coverArtPath; "-map"; "0:a"; "-map"; "1:0";
   "-c:a"; "copy"; "-c:v"; "copy"; "-id3v2_version"; "3";
   "-disposition:v:0"; "attached_pic"; "-y"; outputFile].

(** The two 'data' handlers, run over the chunks in arrival order; the
    result is the text gathered from the error stream. *)
Fixpoint onData (chunks : list (Channel * string)) (stderr : string) : M string :=
  match chunks with
  | [] => ret stderr
  | (Stdout, _) :: rest => onData rest stderr
  | (Stderr, line) :: rest =>
      (if includes "time=" line
       then Logger.debug this_logger ("FFmpeg: " +:+ trim line)
       else ret tt) ;;
      onData rest (stderr +:+ line)
  end.

Definition show_code (code : option Z) : string :=
  match code with Some c => pretty c | None => "null" end.

(** The 'close' handler: what it logs, and what it settles the promise
    with when the promise is still pending. *)
Definition onClose (inputFile outputFile stderr : string) (code : option Z)
    : M (Settled unit) :=
  match code with
  | Some 0 =>
      Logger.info this_logger ("✓ Completed: " +:+ Path.basename outputFile) ;;
      ret (Resolved tt)
  | _ =>
      Logger.error this_logger
        ("✗ Failed to process " +:+ Path.basename inputFile
           +:+ ": FFmpeg exited with code " +:+ show_code code) ;;
      (if is_empty stderr then ret tt
       else Logger.error this_logger ("FFmpeg stderr: " +:+ trim stderr)) ;;
      ret (Rejected ("FFmpeg process exited with code " +:+ show_code code))
  end.

(** [applyCoverArt], with its handlers run to the last event of the child
    process.  After an 'error' the promise is rejected with the error; the
    'close' that follows runs its handler all the same, for its log lines. *)
Definition applyCoverArt (inputFile coverArtPath outputFile : string)
    : M (Settled unit) :=
  Logger.info this_logger ("Processing: " +:+ Path.basename inputFile) ;;
  let args := ffmpegArgs inputFile coverArtPath outputFile in
  Logger.info this_logger ("FFmpeg command: ffmpeg " +:+ join " " args) ;;
  let! run := Sys.spawn "ffmpeg" args in
  let! stderr := onData (pr_data run) "" in
  match pr_ending run with
  | Close code => onClose inputFile outputFile stderr code
  | Error message =>
      Logger.error this_logger ("✗ Failed to start FFmpeg: " +:+ message) ;;
      onClose inputFile outputFile stderr (Some (pr_errno run)) ;;
      ret (Rejected message)
  end.

(** The body of the [for] loop, on the pair (successCount, failureCount). *)
Definition iteration (coverArtPath outputFolder inputFile : string)
    (counts : Z * Z) : M (Z * Z) :=
  let '(successCount, failureCount) := counts in
  let fileName := Path.basename inputFile in
  let outputFile := Path.join outputFolder fileName in
  let! present := Sys.pathExists outputFile in
  if present then
    Logger.warn this_logger ("Output file already exists, skipping: " +:+ fileName) ;;
    ret (successCount, failureCount)
  else
    let! r := applyCoverArt inputFile coverArtPath outputFile in
    match r with
    | Resolved _ => ret (successCount + 1, failureCount)
    | Rejected message =>
        Logger.error this_logger
          ("Failed to process " +:+ Path.basename inputFile +:+ ": " +:+ message) ;;
        ret (successCount, failureCount + 1)
    end.

Fixpoint loop (coverArtPath outputFolder : string) (mp3Files : list string)
    (counts : Z * Z) : M (Z * Z) :=
  match mp3Files with
  | [] => ret counts
  | inputFile :: rest =>
      let! counts' := iteration coverArtPath outputFolder inputFile counts in
      loop coverArtPath outputFolder rest counts'
  end.

Definition summary_messages (t : Tally) : list string :=
  [Logger.newline +:+ "=== Processing Summary ===";
   "Total files: " +:+ pretty (totalDiscovered t);
   "Successful: " +:+ pretty (succeeded t);
   "Failed: " +:+ pretty (failed t);
   "Skipped: " +:+ pretty (skipped t)].

Definition saved_message (outputFolder : string) : string :=
  "✓ All processed files saved to: " +:+ outputFolder.

Fixpoint info_all (messages : list string) : M unit :=
  match messages with
  | [] => ret tt
  | m :: rest => Logger.info this_logger m ;; info_all rest
  end.

(** The summary block that ends [processFolder]. *)
Definition logSummary (outputFolder : string) (t : Tally) : M unit :=
  info_all (summary_messages t) ;;
  if 0 <? succeeded t
  then Logger.info this_logger (saved_message outputFolder)
  else ret tt.

(** [processFolder]: JavaScript gets [undefined] back whenever the call
    does not throw; the model hands back the tally of the summary block,
    or [None] when the call returns before there is one. *)
Definition processFolder (inputFolder coverArtPath outputFolder : string)
    : M (Settled (option Tally)) :=
  let! found := getMp3Files inputFolder in
  match found with
  | Rejected message => ret (Rejected ("Failed to process folder: " +:+ message))
  | Resolved mp3Files =>
      if (length mp3Files =? 0)%nat then
        Logger.warn this_logger "No MP3 files found in the input folder" ;;
        ret (Resolved None)
      else
        let! made := Sys.ensureDir outputFolder in
        match made with
        | Some message => ret (Rejected ("Failed to process folder: " +:+ message))
        | None =>
            Logger.info this_logger
              ("Starting to process " +:+ pretty (Z.of_nat (length mp3Files))
                 +:+ " MP3 files...") ;;
            let! counts := loop coverArtPath outputFolder mp3Files (0, 0) in
            let '(successCount, failureCount) := counts in
            let t :=
              {| totalDiscovered := Z.of_nat (length mp3Files);
                 succeeded := successCount;
                 failed := failureCount;
                 skipped := Z.of_nat (length mp3Files) - successCount - failureCount |} in
            logSummary outputFolder t ;;
            ret (Resolved (Some t))
        end
  end.

End WithLogger.

(** [Mp3Processor.validateFFmpeg]: the promise is only ever resolved. *)
Definition validateFFmpeg : M (Settled bool) :=
  let! run := Sys.spawn "ffmpeg" ["-version"] in
  match pr_ending run with
  | Close code =>
      ret (Resolved (match code with Some 0 => true | _ => false end))
  | Error _ => ret (Resolved false)
  end.

End Mp3Processor.

(** ** What happened to each candidate, told from the world alone *)

Module Batch.
Import Mp3Processor.

Inductive Verdict := Skipped | Converted | Failed.

Global Instance Verdict_eq_dec : EqDecision Verdict.
Proof. solve_decision. Defined.

(** Where the converted copy of a candidate goes. *)
Definition destination (outputFolder inputFile : string) : string :=
  Path.join outputFolder (Path.basename inputFile).

(** The ending of the next child process to be started with the
    conversion command line of a candidate. *)
Definition next_ending (w : World) (coverArtPath outputFolder inputFile : string)
    : Ending :=
  pr_ending
    (e_spawn (w_env w) (length (w_spawned w)) "ffmpeg"
       (ffmpegArgs inputFile coverArtPath (destination outputFolder inputFile))).

(** A conversion succeeds when its child process closes with code 0 and
    fails in every other case, spawn failures included. *)
Definition outcome (e : Ending) : Verdict :=
  match e with
  | Close (Some 0) => Converted
  | _ => Failed
  end.

(** A candidate is skipped when its destination exists at its turn;
    otherwise it is converted, with the outcome of its child process. *)
Definition verdict (w : World) (coverArtPath outputFolder inputFile : string)
    : Verdict :=
  if bool_decide (destination outputFolder inputFile ∈ w_paths w) then Skipped
  else outcome (next_ending w coverArtPath outputFolder inputFile).

(** The verdicts of a batch, each taken in the world its candidate meets. *)
Fixpoint history (lg : Logger.logger) (coverArtPath outputFolder : string)
    (mp3Files : list string) (w : World) : list Verdict :=
  match mp3Files with
  | [] => []
  | inputFile :: rest =>
      verdict w coverArtPath outputFolder inputFile
      :: history lg coverArtPath outputFolder rest
           (snd (iteration lg coverArtPath outputFolder inputFile (0, 0) w))
  end.

Definition count (v : Verdict) (h : list Verdict) : Z :=
  Z.of_nat (length (List.filter (λ x, bool_decide (x = v)) h)).

(** The candidates that discovery finds in a listing. *)
Definition candidates (inputFolder : string) (w : World) : list string :=
  match e_readdir (w_env w) inputFolder with
  | inr files => List.map (Path.join inputFolder) (List.filter is_mp3 files)
  | inl _ => []
  end.

(** The world in which the loop of [processFolder] starts. *)
Definition loop_start (lg : Logger.logger) (inputFolder outputFolder : string)
    (w : World) : World :=
  let w1 := snd (getMp3Files lg inputFolder w) in
  let w2 := snd (Sys.ensureDir outputFolder w1) in
  snd (Logger.info lg
         ("Starting to process "
            +:+ pretty (Z.of_nat (length (candidates inputFolder w)))
            +:+ " MP3 files...") w2).

(** The verdicts of the candidates of one call of [processFolder]. *)
Definition verdicts (lg : Logger.logger)
    (inputFolder coverArtPath outputFolder : string) (w : World) : list Verdict :=
  history lg coverArtPath outputFolder (candidates inputFolder w)
    (loop_start lg inputFolder outputFolder w).

(** The child process that the availability probe starts in a world. *)
Definition probe_run (w : World) : ProcRun :=
  e_spawn (w_env w) (length (w_spawned w)) "ffmpeg" ["-version"].

(** The tally that the summary block reports for a batch whose loop ended
    with the counters [counts]. *)
Definition tally_of (mp3Files : list string) (counts : Z * Z) : Tally :=
  {| totalDiscovered := Z.of_nat (length mp3Files);
     succeeded := counts.1;
     failed := counts.2;
     skipped := Z.of_nat (length mp3Files) - counts.1 - counts.2 |}.

(** A name as [readdir] lists it: not empty, no separator, and neither
    [.] nor [..]. *)
Definition entry_name (name : string) : Prop :=
  name ≠ "" ∧ name ≠ "." ∧ name ≠ ".." ∧ JsString.split Path.slash name = [name].

(** The converter's contract: a process that closes with code 0 has
    written its output file. *)
Definition writes_on_success (e : Env) : Prop :=
  ∀ n command args,
    pr_ending (e_spawn e n command args) = Close (Some 0) →
    pr_wrote (e_spawn e n command args) = true.

(** An environment in which every child process can be started: no run
    ends with the 'error' event. *)
Definition starts_every_process (e : Env) : Prop :=
  ∀ n command args message, pr_ending (e_spawn e n command args) ≠ Error message.

(** The console line of a message logged at a level with a timestamp. *)
Definition console_line (level timestamp message : string) : string :=
  Logger.coloured level (Logger.format timestamp level message).

(** The console lines of messages logged in a row at one level, the first
    of them at the n-th reading of the clock. *)
Fixpoint console_lines (e : Env) (level : string) (n : nat)
    (messages : list string) : list string :=
  match messages with
  | [] => []
  | m :: rest =>
      console_line level (e_clock e n) m :: console_lines e level (S n) rest
  end.

End Batch.

(** ** Notions used to state and prove the properties *)

Module PathShape.
Import JsString Path.

(** A piece that holds no separator. *)
Definition plain (c : ascii) (s : string) : Prop := split c s = [s].

(** A path segment that normalisation keeps as it is. *)
Definition proper (s : string) : Prop := s ≠ "" ∧ s ≠ "." ∧ s ≠ "..".

(** The shape of the stack of kept segments: proper names on top of the
    [..] that climbed above the start, which only a relative path keeps. *)
Definition tidy (allow : bool) (stack : list string) : Prop :=
  ∃ names k, stack = names ++ replicate k ".." ∧ Forall proper names
             ∧ (allow = false → k = 0%nat).

End PathShape.

(** How a stretch of the run changed the world: the environment is the
    same, [started] lists the child processes it started, and the only paths
    it made exist are the log file and those in [created]. *)
Definition evolved (lg : Logger.logger) (created : gset string)
    (started : list (string * list string)) (w w' : World) : Prop :=
  w_env w' = w_env w
  ∧ w_spawned w' = w_spawned w ++ started
  ∧ w_paths w ⊆ w_paths w'
  ∧ w_paths w' ⊆ {[ Logger.logFile lg ]} ∪ created ∪ w_paths w.

(** A stretch that did nothing but log. *)
Definition only_logged (lg : Logger.logger) (w w' : World) : Prop :=
  evolved lg ∅ [] w w'.

(** The level names that [logLevels] ranks. *)
Definition recognized : list string := ["debug"; "info"; "warn"; "error"].

(** The message that [getMp3Files] logs after a successful listing. *)
Definition found_message (inputFolder : string) (w : World) : string :=
  "Found " +:+ pretty (Z.of_nat (length (Batch.candidates inputFolder w)))
    +:+ " MP3 files in " +:+ inputFolder.

(** What a message that passes the filter leaves behind: its coloured line on
    the console and, when the file sink is on, an append of the plain line to
    the log file, which lands in the file when the append succeeds. *)
Definition emitted (lg : Logger.logger) (level message : string) (w w' : World) : Prop :=
  let stamp := e_clock (w_env w) (w_clock_reads w) in
  let entry := (Logger.logFile lg, Logger.format stamp level message +:+ Logger.newline) in
  w_stdout w' = w_stdout w ++ [Batch.console_line level stamp message]
  ∧ (Logger.logToFile lg = true →
     w_appends w' = w_appends w ++ [entry]
     ∧ (e_appendFile (w_env w) (length (w_appends w)) (Logger.logFile lg) = None →
        w_written w' = w_written w ++ [entry])).

(** An environment in which everything works: four folders to list, a
    writable log, and a converter that always exits with code 0. *)
Definition sample_env : Env := {|
  e_cwd := "/app";
  e_clock := λ n, "2024-05-06T07:08:09." +:+ pretty n +:+ "Z";
  e_readdir := λ dir,
    if String.eqb dir "/music" then inr ["a.mp3"; "b.MP3"; "c.wav"; "d.txt"]
    else if String.eqb dir "/empty" then inr ["notes.txt"]
    else if String.eqb dir "/single" then inr ["a.mp3"]
    else if String.eqb dir "/three" then inr ["one.mp3"; "cover.jpg"; "two.mp3"; "three.mp3"]
    else inl "ENOENT: no such file or directory";
  e_ensureDir := λ _, None;
  e_ensureFile := λ _, None;
  e_appendFile := λ _ _, None;
  e_spawn := λ _ _ _, {| pr_data := []; pr_ending := Close (Some 0); pr_errno := 0; pr_wrote := true |}
|}.

(** The world at the start of a process: nothing printed, nothing started,
    no path known to exist. *)
Definition world_of (e : Env) : World := {|
  w_env := e; w_clock_reads := 0; w_stdout := []; w_stderr := [];
  w_paths := ∅; w_appends := []; w_written := []; w_spawned := []
|}.

(** The logger that [new Logger(level)] builds in [sample_env]. *)
Definition sample_logger (level : string) : Logger.logger := {|
  Logger.logLevel := level; Logger.logToFile := true;
  Logger.logDir := "/app/logs";
  Logger.logFile := "/app/logs/mp3-cover-art-2024-05-06.log"
|}.

(** An environment in which the log directory cannot be created and the log
    file cannot be written. *)
Definition readonly_env : Env := {|
  e_cwd := e_cwd sample_env;
  e_clock := e_clock sample_env;
  e_readdir := e_readdir sample_env;
  e_ensureDir := λ _, Some "EACCES: permission denied";
  e_ensureFile := e_ensureFile sample_env;
  e_appendFile := λ _ _, Some "ENOENT: no such file or directory";
  e_spawn := e_spawn sample_env
|}.

(** The logger, and the world, after a construction whose file sink could
    not be initialised. *)
Definition failed_init : Logger.logger * World :=
  Logger.new "info" true (world_of readonly_env).

(** An environment whose first conversion exits with code 1 and leaves no
    output, and whose later conversions succeed. *)
Definition flaky_env : Env := {|
  e_cwd := e_cwd sample_env;
  e_clock := e_clock sample_env;
  e_readdir := e_readdir sample_env;
  e_ensureDir := e_ensureDir sample_env;
  e_ensureFile := e_ensureFile sample_env;
  e_appendFile := e_appendFile sample_env;
  e_spawn := λ n _ _,
    if Nat.eqb n 0
    then {| pr_data := [(Stderr, "Invalid data found when processing input")];
            pr_ending := Close (Some 1); pr_errno := 0; pr_wrote := false |}
    else {| pr_data := []; pr_ending := Close (Some 0); pr_errno := 0; pr_wrote := true |}
|}.

(** An environment whose second conversion exits with code 1. *)
Definition second_fails_env : Env := {|
  e_cwd := e_cwd sample_env;
  e_clock := e_clock sample_env;
  e_readdir := e_readdir sample_env;
  e_ensureDir := e_ensureDir sample_env;
  e_ensureFile := e_ensureFile sample_env;
  e_appendFile := e_appendFile sample_env;
  e_spawn := λ n _ _,
    if Nat.eqb n 1
    then {| pr_data := [(Stderr, "Invalid data found when processing input")];
            pr_ending := Close (Some 1); pr_errno := 0; pr_wrote := false |}
    else {| pr_data := []; pr_ending := Close (Some 0); pr_errno := 0; pr_wrote := true |}
|}.

(** A run over a folder that holds no MP3 file. *)
Definition empty_run : Settled (option Mp3Processor.Tally) * World :=
  Mp3Processor.processFolder (sample_logger "info") "/empty" "/cover.jpg" "/out"
    (world_of sample_env).

(** A first run whose only conversion fails, and the run that follows it. *)
Definition flaky_first_run : Settled (option Mp3Processor.Tally) * World :=
  Mp3Processor.processFolder (sample_logger "info") "/single" "/cover.jpg" "/out"
    (world_of flaky_env).

Definition flaky_second_run : Settled (option Mp3Processor.Tally) * World :=
  Mp3Processor.processFolder (sample_logger "info") "/single" "/cover.jpg" "/out"
    flaky_first_run.2.

(** A run over four entries, two of them MP3 files, whose second conversion
    fails; and its tally. *)
Definition mixed_run : Settled (option Mp3Processor.Tally) * World :=
  Mp3Processor.processFolder (sample_logger "info") "/music" "/cover.jpg" "/out"
    (world_of second_fails_env).

Definition mixed_tally : Mp3Processor.Tally :=
  {| Mp3Processor.totalDiscovered := 2; Mp3Processor.succeeded := 1;
     Mp3Processor.failed := 1; Mp3Processor.skipped := 0 |}.

(** A first run in which every conversion succeeds. *)
Definition clean_first_run : Settled (option Mp3Processor.Tally) * World :=
  Mp3Processor.processFolder (sample_logger "info") "/music" "/cover.jpg" "/out"
    (world_of sample_env).

(** ** src/main.js *)

(** [path.resolve(p)] for one argument: [p] itself when it is absolute,
    otherwise [p] under the working directory; normalised, without a
    trailing separator. *)
Module PathResolve.
Import JsString Path.

Definition resolve (cwd p : string) : string :=
  let tail := if is_empty p then "" else p +:+ "/" in
  let '(joined, resolvedAbsolute) :=
    if startsWith "/" p then (tail, true)
    else if is_empty cwd then (tail, false)
    else (cwd +:+ "/" +:+ tail, startsWith "/" cwd) in
  let resolvedPath :=
    JsString.join "/" (norm_segments (negb resolvedAbsolute) (segments joined)) in
  if resolvedAbsolute then "/" +:+ resolvedPath
  else if is_empty resolvedPath then "." else resolvedPath.

End PathResolve.

Module App.
Import JsString.

(** What [parseArguments] returns. *)
Record Arguments := {
  inputFolder : string;
  coverArtPath : string;
  outputFolder : string;
  logLevel : string
}.

(** How a call that may end the process comes back: [process.exit(code)]
    was called, or the call returned. *)
Inductive Exit (A : Type) :=
| Exited (code : Z)
| Returned (value : A).
Arguments Exited {A} code.
Arguments Returned {A} value.

(** [array.indexOf(x)]; [None] is -1. *)
Fixpoint indexOf (x : string) (l : list string) : option nat :=
  match l with
  | [] => None
  | y :: l' => if String.eqb y x then Some 0%nat
               else match indexOf x l' with
                    | Some i => Some (S i)
                    | None => None
                    end
  end.

(** Whether [array[i]] is truthy: defined and not the empty string. *)
Definition truthy_at (l : list string) (i : nat) : bool :=
  match List.nth_error l i with
  | Some s => negb (is_empty s)
  | None => false
  end.

(** [array.splice(i, 2)], as the array it leaves. *)
Definition splice2 (i : nat) (l : list string) : list string :=
  List.firstn i l ++ List.skipn (i + 2) l.

(** The option scan of [parseArguments]: the level and the arguments left. *)
Definition scanLogLevel (args : list string) : string * list string :=
  match indexOf "--log-level" args with
  | Some logLevelIndex =>
      if truthy_at args (logLevelIndex + 1)
      then (List.nth (logLevelIndex + 1) args "", splice2 logLevelIndex args)
      else ("info", args)
  | None => ("info", args)
  end.

Definition usage : string :=
  JsString.join Logger.newline
    [""; 
     "Usage: node src/main.js <input-folder> <cover-art-image> [output-folder] [--log-level <level>]";
     "";
     "Arguments:";
     "  input-folder    Path to folder containing MP3 files";
     "  cover-art-image Path to image file to use as cover art";
     "  output-folder   Path to output folder (optional, defaults to ../output)";
     "";
     "Options:";
     "  --log-level     Log level: debug, info, warn, error (default: info)";
     "";
     "Examples:";
     "  node src/main.js ./input ./cover.jpg";
     "  node src/main.js ./music ./artwork.png ./processed";
     "  node src/main.js ./input ./cover.jpg --log-level debug";
     "  node src/main.js ./input ./cover.jpg ./output --log-level warn";
     "    "].

Definition showUsage : M unit := Sys.consoleLog usage.

(** [parseArguments], on [process.argv.slice(2)]. *)
Definition parseArguments (argv : list string) : M (Exit Arguments) :=
  let '(level, args) := scanLogLevel argv in
  if (length args <? 2)%nat then
    showUsage ;;
    ret (Exited 1)
  else
    let! cwd := Sys.processCwd in
    let input := PathResolve.resolve cwd (List.nth 0 args "") in
    let cover := PathResolve.resolve cwd (List.nth 1 args "") in
    let output :=
      if truthy_at args 2 then PathResolve.resolve cwd (List.nth 2 args "")
      else Path.join_all [input; ".."; "output"] in
    ret (Returned {| inputFolder := input; coverArtPath := cover;
                     outputFolder := output; logLevel := level |}).

Definition imageExtensions : list string := [".jpg"; ".jpeg"; ".png"; ".bmp"; ".gif"].

(** [validateArguments] *)
Definition validateArguments (this_logger : Logger.logger) (args : Arguments)
    : M (Settled unit) :=
  let! inputThere := Sys.pathExists (inputFolder args) in
  if negb inputThere then
    ret (Rejected ("Input folder does not exist: " +:+ inputFolder args))
  else
    let! coverThere := Sys.pathExists (coverArtPath args) in
    if negb coverThere then
      ret (Rejected ("Cover art file does not exist: " +:+ coverArtPath args))
    else
      let ext := toLowerCase (Path.extname (coverArtPath args)) in
      if negb (bool_decide (ext ∈ imageExtensions)) then
        ret (Rejected ("Cover art must be an image file. Supported formats: "
                         +:+ JsString.join ", " imageExtensions))
      else
        let! made := Sys.ensureDir (outputFolder args) in
        match made with
        | Some message => ret (Rejected message)
        | None =>
            Logger.info this_logger ("Input folder: " +:+ inputFolder args) ;;
            Logger.info this_logger ("Cover art: " +:+ coverArtPath args) ;;
            Logger.info this_logger ("Output folder: " +:+ outputFolder args) ;;
            ret (Resolved tt)
        end.

(** The [catch] of [run]: the last message, then [process.exit(1)].  The
    append that this message issues is recorded like any other; the exit
    does not wait for it. *)
Definition fail (this_logger : Logger.logger) (message : string) : M (Exit unit) :=
  Logger.error this_logger ("Application failed: " +:+ message) ;;
  ret (Exited 1).

Definition ffmpegMissing : string :=
  "FFmpeg is not installed or not accessible. Please install FFmpeg and ensure it is in your system PATH.".

(** [run], on [process.argv.slice(2)]: [Returned tt] when the call comes
    back without having ended the process. *)
Definition run (argv : list string) : M (Exit unit) :=
  let! parsed := parseArguments argv in
  match parsed with
  | Exited code => ret (Exited code)
  | Returned args =>
      let! this_logger := Logger.new (logLevel args) true in
      Logger.info this_logger "MP3 Cover Art Application Started" ;;
      Logger.debug this_logger ("Log level set to: " +:+ logLevel args) ;;
      let! checked := validateArguments this_logger args in
      match checked with
      | Rejected message => fail this_logger message
      | Resolved _ =>
          Logger.info this_logger "Checking FFmpeg installation..." ;;
          let! probe := Mp3Processor.validateFFmpeg in
          match probe with
          | Rejected message => fail this_logger message
          | Resolved false => fail this_logger ffmpegMissing
          | Resolved true =>
              Logger.info this_logger "âœ“ FFmpeg is available" ;;
              let! done := Mp3Processor.processFolder this_logger
                             (inputFolder args) (coverArtPath args)
                             (outputFolder args) in
              match done with
              | Rejected message => fail this_logger message
              | Resolved _ =>
                  Logger.info this_logger
                    "MP3 Cover Art Application Completed Successfully" ;;
                  ret (Returned tt)
              end
          end
      end
  end.

(** The script: [new Mp3CoverArtApp()], whose constructor builds a first
    logger at level info, then [app.run()].  The initialisation of that
    first logger is followed to its end before [run] (see [Logger.new]);
    when [run] ends the process at once it may not get that far. *)
Definition main (argv : list string) : M (Exit unit) :=
  Logger.new "info" true ;;
  run argv.

End App.

(** ** What a child process says, told from its chunks alone *)

Module Capture.
Import JsString.

(** The text of the error stream: its chunks, in arrival order. *)
Fixpoint captured (chunks : list (Channel * string)) : string :=
  match chunks with
  | [] => ""
  | (Stdout, _) :: rest => captured rest
  | (Stderr, line) :: rest => line +:+ captured rest
  end.

(** The progress messages: one for each chunk of the error stream that
    holds [time=]. *)
Fixpoint progress (chunks : list (Channel * string)) : list string :=
  match chunks with
  | [] => []
  | (Stdout, _) :: rest => progress rest
  | (Stderr, line) :: rest =>
      if includes "time=" line
      then ("FFmpeg: " +:+ trim line) :: progress rest
      else progress rest
  end.


End Capture.

(** ** Sample worlds for the application *)

(** A world in which the folder [/music] and the file [/cover.jpg] exist. *)
Definition stocked_world (e : Env) : World := {|
  w_env := e; w_clock_reads := 0; w_stdout := []; w_stderr := [];
  w_paths := {[ "/music"; "/cover.jpg" ]};
  w_appends := []; w_written := []; w_spawned := []
|}.

(** A world in which the folder [/music] and the file [/notes.txt] exist. *)
Definition noted_world (e : Env) : World := {|
  w_env := e; w_clock_reads := 0; w_stdout := []; w_stderr := [];
  w_paths := {[ "/music"; "/notes.txt" ]};
  w_appends := []; w_written := []; w_spawned := []
|}.

(** An environment without the converter: no child process can be started. *)
Definition no_converter_env : Env := {|
  e_cwd := e_cwd sample_env;
  e_clock := e_clock sample_env;
  e_readdir := e_readdir sample_env;
  e_ensureDir := e_ensureDir sample_env;
  e_ensureFile := e_ensureFile sample_env;
  e_appendFile := e_appendFile sample_env;
  e_spawn := λ _ _ _,
    {| pr_data := []; pr_ending := Error "spawn ffmpeg ENOENT"; pr_errno := -2; pr_wrote := false |}
|}.

(** An environment whose probe succeeds and whose conversions all fail. *)
Definition failing_conversions_env : Env := {|
  e_cwd := e_cwd sample_env;
  e_clock := e_clock sample_env;
  e_readdir := e_readdir sample_env;
  e_ensureDir := e_ensureDir sample_env;
  e_ensureFile := e_ensureFile sample_env;
  e_appendFile := e_appendFile sample_env;
  e_spawn := λ n _ _,
    if Nat.eqb n 0
    then {| pr_data := []; pr_ending := Close (Some 0); pr_errno := 0; pr_wrote := false |}
    else {| pr_data := [(Stderr, "Invalid data found when processing input")];
            pr_ending := Close (Some 1); pr_errno := 0; pr_wrote := false |}
|}.

(** The arguments that [/music /cover.jpg] parses to. *)
Definition music_arguments : App.Arguments :=
  {| App.inputFolder := "/music"; App.coverArtPath := "/cover.jpg";
     App.outputFolder := "/output"; App.logLevel := "info" |}.

(** A logger that lets no message pass at any of the four levels. *)
Definition silent (lg : Logger.logger) : Prop :=
  ∀ level, level ∈ recognized → Logger.shouldLog lg level = false.

(** The child process that converts a candidate: the command and its
    arguments, as [applyCoverArt] starts it for the destination. *)
Definition conversion (coverArtPath outputFolder inputFile : string)
    : string * list string :=
  ("ffmpeg",
   Mp3Processor.ffmpegArgs inputFile coverArtPath
     (Batch.destination outputFolder inputFile)).

(** ** Samples of the path functions *)

Example extname_samples :
  List.map Path.extname
    ["a.mp3"; "b.MP3"; ".mp3"; "x/y.tar.gz"; "noext"; ".."; "a."; "dir.d/f"; "q.mp3/"]
  = [".mp3"; ".MP3"; ""; ".gz"; ""; ""; "."; ""; ".mp3"].
Proof. reflexivity. Qed.

Example join_samples :
  List.map (λ '(a, b), Path.join a b)
    [("/in", "a.mp3"); ("", "a.mp3"); ("in/", "a.mp3"); ("/a/b/..", "c");
     ("..", "x"); ("/", "x"); ("a/../..", "x"); ("./", "f")]
  = ["/in/a.mp3"; "a.mp3"; "in/a.mp3"; "/a/c"; "../x"; "/x"; "../x"; "f"].
Proof. reflexivity. Qed.

Example basename_samples :
  List.map Path.basename ["/in/a.mp3"; "a.mp3"; "/x/y/"; "/"; ""]
  = ["a.mp3"; "a.mp3"; "y"; ""; ""].
Proof. reflexivity. Qed.

(** ** Properties of the path functions *)

Section PathFacts.
Import JsString Path PathShape.

Lemma split_on_split c s : split c s = (split_on c s).1 :: (split_on c s).2.
Proof. unfold split. by destruct (split_on c s). Qed.

Lemma split_cons_sep c s : split c (String c s) = "" :: split c s.
Proof.
  rewrite !split_on_split. simpl. destruct (split_on c s) as [h t].
  by rewrite Ascii.eqb_refl.
Qed.

Lemma split_cons_other c a s :
  a ≠ c →
  split c (String a s) = String a (split_on c s).1 :: (split_on c s).2.
Proof.
  intros Hne. rewrite split_on_split. simpl. destruct (split_on c s) as [h t].
  destruct (Ascii.eqb_spec a c); [done|done].
Qed.

Lemma plain_cons c a s : plain c (String a s) → a ≠ c ∧ plain c s.
Proof.
  unfold plain. intros H. destruct (Ascii.eqb_spec a c) as [->|Hne].
  - rewrite split_cons_sep in H. by destruct (split c s).
  - split; [done|]. rewrite split_cons_other in H by done.
    rewrite split_on_split. injection H as H1 H2. by rewrite H1, H2.
Qed.

Lemma plain_cons_intro c a s : a ≠ c → plain c s → plain c (String a s).
Proof.
  unfold plain. intros Hne H. rewrite split_cons_other by done.
  rewrite split_on_split in H. injection H as H1 H2. by rewrite H1, H2.
Qed.

Lemma split_app_sep c a b :
  split c (a +:+ String c b) = split c a ++ split c b.
Proof.
  induction a as [|x a IH].
  - change ("" +:+ String c b) with (String c b). by rewrite split_cons_sep.
  - change (String x a +:+ String c b) with (String x (a +:+ String c b)).
    destruct (Ascii.eqb_spec x c) as [->|Hne].
    + by rewrite !split_cons_sep, IH.
    + rewrite !split_cons_other by done. rewrite split_on_split in IH.
      destruct (split c a) as [|h t] eqn:E.
      * rewrite split_on_split in E. done.
      * rewrite split_on_split in E. injection E as E1 E2.
        simpl in IH. injection IH as I1 I2. by rewrite I1, I2, E1, E2.
  Qed.

Lemma split_pieces_plain c s : Forall (plain c) (split c s).
Proof.
  induction s as [|x s IH].
  - by constructor.
  - destruct (Ascii.eqb_spec x c) as [->|Hne].
    + rewrite split_cons_sep. by constructor.
    + rewrite split_cons_other by done. rewrite split_on_split in IH.
      inversion IH as [|? ? H1 H2]; subst. constructor; [|done].
      by apply plain_cons_intro.
Qed.

Lemma split_join c (l : list string) :
  l ≠ [] → Forall (plain c) l → split c (JsString.join (String c "") l) = l.
Proof.
  induction l as [|x l IH]; [done|]. intros _ Hall.
  inversion Hall as [|? ? Hx Hl]; subst. destruct l as [|y l].
  - exact Hx.
  - change (JsString.join (String c "") (x :: y :: l))
      with (x +:+ String c "" +:+ JsString.join (String c "") (y :: l)).
    change (String c "" +:+ JsString.join (String c "") (y :: l))
      with (String c (JsString.join (String c "") (y :: l))).
    rewrite split_app_sep, IH by done. by rewrite Hx.
Qed.

Lemma is_empty_false s : s ≠ "" → is_empty s = false.
Proof. by destruct s. Qed.

Lemma norm_step_proper allow stack seg :
  proper seg → norm_step allow stack seg = seg :: stack.
Proof.
  intros (H1 & H2 & H3). unfold norm_step.
  rewrite is_empty_false by done.
  destruct (String.eqb_spec seg "."); [done|].
  destruct (String.eqb_spec seg ".."); [done|]. done.
Qed.

Lemma norm_step_skip allow stack : norm_step allow stack "" = stack.
Proof. done. Qed.

Lemma tidy_nil allow : tidy allow [].
Proof. exists [], 0%nat. by repeat split. Qed.

Lemma norm_step_tidy allow stack seg :
  tidy allow stack → tidy allow (norm_step allow stack seg).
Proof.
  intros (names & k & -> & Hnames & Hk). unfold norm_step.
  destruct (is_empty seg || String.eqb seg ".")%bool eqn:E1.
  { by exists names, k. }
  apply orb_false_iff in E1 as [E1 E2].
  destruct (String.eqb_spec seg "..") as [->|Hne].
  - destruct names as [|top names]; simpl.
    + destruct k as [|k]; simpl.
      * destruct allow; [by exists [], 1%nat | by exists [], 0%nat].
      * destruct allow; [|by specialize (Hk eq_refl)].
        by exists [], (S (S k)).
    + inversion Hnames as [|? ? (_ & _ & Htop) Hrest]; subst.
      destruct (String.eqb_spec top ".."); [done|]. by exists names, k.
  - exists (seg :: names), k. repeat split; [|done].
    constructor; [|done]. repeat split; [by destruct seg| |done].
    intros ->. done.
Qed.

Lemma fold_norm_tidy allow segs stack :
  tidy allow stack → tidy allow (fold_left (norm_step allow) segs stack).
Proof.
  revert stack. induction segs as [|seg segs IH]; intros stack H; [done|].
  simpl. by apply IH, norm_step_tidy.
Qed.

Lemma fold_norm_proper allow (l acc : list string) :
  Forall proper l → fold_left (norm_step allow) l acc = rev l ++ acc.
Proof.
  revert acc. induction l as [|x l IH]; intros acc H; [done|].
  inversion H; subst. simpl. rewrite norm_step_proper, IH by done.
  by rewrite <- app_assoc.
Qed.

Lemma fold_norm_ups k j :
  fold_left (norm_step true) (replicate k "..") (replicate j "..")
  = replicate (k + j) "..".
Proof.
  revert j. induction k as [|k IH]; intros j; [done|]. simpl.
  replace (norm_step true (replicate j "..") "..") with (replicate (S j) "..").
  - rewrite IH. by rewrite Nat.add_succ_r.
  - by destruct j.
Qed.

(** Normalising what normalisation produced changes nothing. *)
Lemma renormalise allow stack :
  tidy allow stack → fold_left (norm_step allow) (rev stack) [] = stack.
Proof.
  intros (names & k & -> & Hnames & Hk).
  rewrite rev_app_distr, fold_left_app.
  assert (rev (replicate k "..") = replicate k "..") as ->.
  { clear. induction k as [|k IH]; [done|]. simpl. rewrite IH.
    clear. induction k as [|k IH]; [done|]. simpl. by rewrite IH. }
  assert (fold_left (norm_step allow) (replicate k "..") [] = replicate k "..") as ->.
  { destruct allow.
    - change (@nil string) with (replicate 0 "..") at 1.
      rewrite fold_norm_ups. by rewrite Nat.add_0_r.
    - by rewrite Hk. }
  rewrite fold_norm_proper.
  - by rewrite rev_involutive.
  - by apply Forall_rev.
Qed.

Lemma norm_segments_idem allow segs :
  norm_segments allow (norm_segments allow segs) = norm_segments allow segs.
Proof.
  unfold norm_segments. f_equal. apply renormalise, fold_norm_tidy, tidy_nil.
Qed.

Lemma norm_segments_snoc allow segs f :
  proper f → norm_segments allow (segs ++ [f]) = norm_segments allow segs ++ [f].
Proof.
  intros H. unfold norm_segments. rewrite fold_left_app. simpl.
  by rewrite norm_step_proper.
Qed.

Lemma norm_step_plain allow stack seg :
  Forall (plain slash) stack → plain slash seg →
  Forall (plain slash) (norm_step allow stack seg).
Proof.
  intros Hs Hseg. unfold norm_step.
  repeat case_match; subst; try done; try apply Forall_nil_2;
    try (apply Forall_cons_2; [first [reflexivity | assumption] | done || apply Forall_nil_2]);
    by inversion Hs.
Qed.

Lemma norm_segments_plain allow segs :
  Forall (plain slash) segs → Forall (plain slash) (norm_segments allow segs).
Proof.
  intros H. unfold norm_segments. apply Forall_rev.
  assert (Forall (plain slash) (@nil string)) as Hnil by constructor.
  revert Hnil. generalize (@nil string) as acc.
  induction H as [|x l Hx Hl IH]; intros acc Hacc; [done|].
  simpl. by apply IH, norm_step_plain.
Qed.

Lemma endsWithChar_app c a b :
  b ≠ "" → endsWithChar c (a +:+ b) = endsWithChar c b.
Proof.
  intros Hb. induction a as [|x a IH]; [done|].
  change (String x a +:+ b) with (String x (a +:+ b)).
  destruct (a +:+ b) as [|y r] eqn:E.
  - destruct a; [by subst|done].
  - exact IH.
Qed.

Lemma plain_no_trailing f : plain slash f → endsWithChar slash f = false.
Proof.
  induction f as [|a f IH]; [done|]. intros [Ha Hf]%plain_cons.
  destruct f as [|b f]; [simpl; by destruct (Ascii.eqb_spec a slash)|].
  by apply IH.
Qed.

Lemma plain_not_absolute f : plain slash f → startsWith "/" f = false.
Proof.
  destruct f as [|a f]; [done|]. intros [Ha _]%plain_cons.
  change (startsWith "/" (String a f))
    with (if Ascii.eqb "/" a then startsWith "" f else false).
  destruct (Ascii.eqb_spec "/"%char a); [subst; by destruct Ha|done].
Qed.

Lemma startsWith_app p out x :
  out ≠ "" → startsWith (String p "") (out +:+ x) = startsWith (String p "") out.
Proof. by destruct out. Qed.

Lemma append_empty_r s : s +:+ "" = s.
Proof.
  induction s as [|a s IH]; [done|].
  change (String a (s +:+ "") = String a s). by rewrite IH.
Qed.

Lemma append_not_empty a b : b ≠ "" → a +:+ b ≠ "".
Proof. by destruct a. Qed.

Lemma entry_name_proper f : Batch.entry_name f → proper f.
Proof. by intros (? & ? & ? & _). Qed.

Lemma entry_name_plain f : Batch.entry_name f → plain slash f.
Proof. by intros (_ & _ & _ & ?). Qed.

Lemma join_empty_folder f : Batch.entry_name f → Path.join "" f = f.
Proof.
  intros Hf. pose proof (entry_name_proper f Hf) as Hp.
  pose proof (entry_name_plain f Hf) as Hpl.
  assert (is_empty f = false) as He by apply is_empty_false, Hp.
  unfold Path.join, join_all.
  change (List.filter _ [""; f]) with (if negb (is_empty f) then [f] else []).
  rewrite He. cbn [negb JsString.join]. rewrite He. unfold normalize.
  cbv zeta. rewrite He, plain_not_absolute, plain_no_trailing by done.
  unfold segments, norm_segments. unfold plain in Hpl. rewrite !Hpl.
  cbn [fold_left]. rewrite norm_step_proper by done.
  cbn [rev app JsString.join negb]. rewrite He.
  change ("" +:+ f +:+ "") with (f +:+ ""). apply append_empty_r.
Qed.

Lemma join_as_normalize out f :
  Batch.entry_name f → out ≠ "" →
  Path.join out f = normalize (out +:+ String slash f).
Proof.
  intros Hf Hout.
  assert (is_empty f = false) as He by apply is_empty_false, Hf.
  assert (is_empty out = false) as Ho by by apply is_empty_false.
  unfold Path.join, join_all.
  change (List.filter _ [out; f])
    with (if negb (is_empty out)
          then out :: (if negb (is_empty f) then [f] else [])
          else (if negb (is_empty f) then [f] else [])).
  rewrite He, Ho. cbn [negb JsString.join].
  change (out +:+ "/" +:+ f) with (out +:+ String slash f).
  rewrite is_empty_false; [done|]. by apply append_not_empty.
Qed.

(** The segments of [path.join(out, f)] for a directory entry [f]: the
    normalised segments of [out], then [f]. *)
Lemma segments_join out f :
  Batch.entry_name f → out ≠ "" →
  segments (Path.join out f)
  = (if startsWith "/" out then [""] else [])
      ++ norm_segments (negb (startsWith "/" out)) (segments out) ++ [f].
Proof.
  intros Hf Hout. pose proof (entry_name_proper f Hf) as Hp.
  pose proof (entry_name_plain f Hf) as Hpl.
  rewrite join_as_normalize by done. unfold normalize. cbv zeta.
  rewrite is_empty_false by (by apply append_not_empty).
  rewrite startsWith_app by done.
  rewrite endsWithChar_app by done.
  assert (endsWithChar slash (String slash f) = false) as ->.
  { destruct f as [|a f]; [by destruct Hp|]. by apply (plain_no_trailing (String a f)). }
  unfold segments. rewrite split_app_sep. unfold plain in Hpl. rewrite Hpl.
  rewrite norm_segments_snoc by done.
  set (S := norm_segments _ (split slash out)).
  assert (Forall (plain slash) (S ++ [f])) as Hall.
  { apply Forall_app. split; [|by repeat constructor].
    apply norm_segments_plain, split_pieces_plain. }
  assert (split slash (JsString.join "/" (S ++ [f])) = S ++ [f]) as Hq.
  { apply (split_join slash); [by destruct S|done]. }
  destruct (JsString.join "/" (S ++ [f])) as [|a q] eqn:Eq.
  { destruct S as [|? [|? ?]]; simplify_eq/=. by destruct Hp. }
  cbn [is_empty]. rewrite append_empty_r.
  destruct (startsWith "/" out).
  - change ("/" +:+ String a q) with (String slash (String a q)).
    by rewrite split_cons_sep, Hq.
  - change ("" +:+ String a q) with (String a q). by rewrite Hq.
Qed.

Lemma last_snoc_filter (l : list string) f :
  f ≠ "" → List.last (List.filter (λ s, negb (is_empty s)) (l ++ [f])) "" = f.
Proof.
  intros Hf. rewrite List.filter_app. simpl.
  rewrite is_empty_false by done. simpl. by rewrite last_last.
Qed.

(** [path.basename] undoes [path.join] on a directory entry. *)
Lemma basename_join out f :
  Batch.entry_name f → basename (Path.join out f) = f.
Proof.
  intros Hf. destruct (decide (out = "")) as [->|Hout].
  - rewrite join_empty_folder by done. unfold basename, segments.
    rewrite (entry_name_plain f Hf). simpl.
    rewrite is_empty_false; [done|apply Hf].
  - unfold basename. rewrite segments_join by done.
    rewrite app_assoc. apply last_snoc_filter, Hf.
Qed.

Lemma join_inj out f g :
  Batch.entry_name f → Batch.entry_name g →
  Path.join out f = Path.join out g → f = g.
Proof.
  intros Hf Hg E. rewrite <- (basename_join out f), <- (basename_join out g) by done.
  by rewrite E.
Qed.

(** An entry of a folder is never the folder itself. *)
Lemma join_ne_folder out f : Batch.entry_name f → Path.join out f ≠ out.
Proof.
  intros Hf E. destruct (decide (out = "")) as [->|Hout].
  { rewrite join_empty_folder in E by done. by destruct Hf. }
  pose proof (segments_join out f Hf Hout) as Hs. rewrite E in Hs.
  set (allow := negb (startsWith "/" out)) in *.
  assert (norm_segments allow (segments out)
          = norm_segments allow (segments out) ++ [f]) as Habs.
  { rewrite Hs at 1. rewrite app_assoc, norm_segments_snoc
      by (by apply entry_name_proper). f_equal.
    destruct (startsWith "/" out); simpl.
    - unfold norm_segments at 1. simpl. rewrite norm_step_skip.
      apply norm_segments_idem.
    - apply norm_segments_idem. }
  apply (f_equal length) in Habs. rewrite length_app in Habs. simpl in Habs. lia.
Qed.
End PathFacts.

(** ** Properties of the logger *)

Section LoggerFacts.
Import Logger.

Lemma only_logged_refl lg w : only_logged lg w w.
Proof.
  unfold only_logged, evolved. rewrite app_nil_r.
  repeat split; [done|]. intros x Hx. by apply elem_of_union_r.
Qed.

Lemma evolved_trans lg c1 s1 c2 s2 w1 w2 w3 :
  evolved lg c1 s1 w1 w2 → evolved lg c2 s2 w2 w3 →
  evolved lg (c1 ∪ c2) (s1 ++ s2) w1 w3.
Proof.
  unfold evolved. intros (E1 & S1 & P1 & Q1) (E2 & S2 & P2 & Q2).
  split; [congruence|]. split; [by rewrite S2, S1, app_assoc|].
  split.
  - intros x Hx. by apply P2, P1.
  - intros x Hx. apply Q2 in Hx. rewrite !elem_of_union in Hx.
    rewrite !elem_of_union. destruct Hx as [[Hx|Hx]|Hx]; [tauto|tauto|].
    apply Q1 in Hx. rewrite !elem_of_union in Hx. tauto.
Qed.

Lemma evolved_after_log lg c s w1 w2 w3 :
  only_logged lg w1 w2 → evolved lg c s w2 w3 → evolved lg c s w1 w3.
Proof.
  intros H1 H2. pose proof (evolved_trans _ _ _ _ _ _ _ _ H1 H2) as H.
  by rewrite (left_id_L ∅ (∪)) in H.
Qed.

Lemma evolved_then_log lg c s w1 w2 w3 :
  evolved lg c s w1 w2 → only_logged lg w2 w3 → evolved lg c s w1 w3.
Proof.
  intros H1 H2. pose proof (evolved_trans _ _ _ _ _ _ _ _ H1 H2) as H.
  by rewrite (right_id_L ∅ (∪)), app_nil_r in H.
Qed.

Lemma only_logged_trans lg w1 w2 w3 :
  only_logged lg w1 w2 → only_logged lg w2 w3 → only_logged lg w1 w3.
Proof. apply evolved_after_log. Qed.

Lemma log_below lg level message w :
  shouldLog lg level = false → log lg level message w = (tt, w).
Proof. intros H. unfold log. by rewrite H. Qed.

(** What a call that passes the filter does to each part of the world. *)
Lemma log_above lg level message w :
  shouldLog lg level = true →
  let stamp := e_clock (w_env w) (w_clock_reads w) in
  let entry := (logFile lg, format stamp level message +:+ newline) in
  let w' := (log lg level message w).2 in
  w_stdout w' = w_stdout w ++ [Batch.console_line level stamp message]
  ∧ w_clock_reads w' = S (w_clock_reads w)
  ∧ w_appends w' = w_appends w ++ (if logToFile lg then [entry] else [])
  ∧ w_written w'
    = w_written w
        ++ (if logToFile lg
            then match e_appendFile (w_env w) (length (w_appends w)) (logFile lg) with
                 | None => [entry]
                 | Some _ => []
                 end
            else [])
  ∧ w_stderr w'
    = w_stderr w
        ++ (if logToFile lg
            then match e_appendFile (w_env w) (length (w_appends w)) (logFile lg) with
                 | None => []
                 | Some e => ["Failed to write to log file: " +:+ e]
                 end
            else []).
Proof.
  intros H. unfold log. rewrite H. cbn [negb].
  unfold formatMessage, getTimestamp, writeToFile, bind, ret,
    Sys.nowISOString, Sys.consoleLog, Sys.appendFile, Sys.consoleError.
  cbn [w_env w_clock_reads w_appends].
  destruct (logToFile lg); [|by rewrite !app_nil_r].
  destruct (e_appendFile _ _ _); cbn; by rewrite ?app_nil_r.
Qed.

Lemma log_only_logged lg level message w :
  only_logged lg w (log lg level message w).2.
Proof.
  unfold log. destruct (shouldLog lg level); cbn [negb];
    [|apply only_logged_refl].
  unfold formatMessage, getTimestamp, writeToFile, bind, ret,
    Sys.nowISOString, Sys.consoleLog, Sys.appendFile, Sys.consoleError.
  cbn [w_env w_clock_reads w_appends].
  destruct (logToFile lg); [destruct (e_appendFile _ _ _)|];
    unfold only_logged, evolved; cbn; rewrite app_nil_r;
    split_and!; try done; intros x; rewrite ?elem_of_union; tauto.
Qed.

Lemma log_unit lg level message w :
  log lg level message w = (tt, (log lg level message w).2).
Proof. by destruct (log lg level message w) as [[] ?]. Qed.

Lemma unknown_rank key : key ∉ recognized → toNumber (logLevels key) = None.
Proof.
  intros H. unfold logLevels.
  destruct (String.eqb_spec key "debug") as [->|_]; [set_solver|].
  destruct (String.eqb_spec key "info") as [->|_]; [set_solver|].
  destruct (String.eqb_spec key "warn") as [->|_]; [set_solver|].
  destruct (String.eqb_spec key "error") as [->|_]; [set_solver|].
  by case_bool_decide.
Qed.

Lemma ge_nan_r n b : toNumber b = None → ge (JsNumber n) b = false.
Proof. intros H. by destruct b. Qed.

Lemma ge_numbers a b x y :
  toNumber a = Some x → toNumber b = Some y → ge a b = (y <=? x).
Proof. by destruct a, b; cbn; intros [= ->] [= ->]. Qed.

Lemma recognized_number level :
  level ∈ recognized → ∃ n, logLevels level = JsNumber n.
Proof.
  unfold recognized. rewrite !elem_of_cons, elem_of_nil.
  intros [->|[->|[->|[->|[]]]]]; by eexists.
Qed.

(** Under a threshold that has no rank, no recognized level passes. *)
Lemma unranked_threshold lg level :
  logLevel lg ∉ recognized → level ∈ recognized → shouldLog lg level = false.
Proof.
  intros Hthr Hlevel. unfold shouldLog.
  destruct (recognized_number level Hlevel) as [n ->].
  by apply ge_nan_r, unknown_rank.
Qed.

Lemma recognized_debug : "debug" ∈ recognized.
Proof. set_solver. Qed.

Lemma recognized_info : "info" ∈ recognized.
Proof. set_solver. Qed.

Lemma recognized_warn : "warn" ∈ recognized.
Proof. set_solver. Qed.

Lemma recognized_error : "error" ∈ recognized.
Proof. set_solver. Qed.
End LoggerFacts.

(** C6: with the threshold at warn, [debug] and [info] change nothing (no
    console line, no file write, no reading of the clock), while [warn] and
    [error] put their line on the console and append it to the log file; and
    for any logger, a [log] call whose level ranks below the threshold is a
    no-op. *)
Theorem warn_threshold_filters (lg : Logger.logger) (message : string) (w : World) :
  Logger.logLevel lg = "warn" →
  Logger.debug lg message w = (tt, w)
  ∧ Logger.info lg message w = (tt, w)
  ∧ emitted lg "warn" message w (Logger.warn lg message w).2
  ∧ emitted lg "error" message w (Logger.error lg message w).2
  ∧ (∀ (lg' : Logger.logger) (level : string) (x y : Z),
       Logger.toNumber (Logger.logLevels level) = Some x →
       Logger.toNumber (Logger.logLevels (Logger.logLevel lg')) = Some y →
       x < y →
       ∀ m w0, Logger.log lg' level m w0 = (tt, w0)).
Proof.
  intros Hthr.
  assert (∀ level, Logger.shouldLog lg level = true →
                   emitted lg level message w (Logger.log lg level message w).2) as Hemit.
  { intros level Hl. destruct (log_above lg level message w Hl) as (H1 & _ & H3 & H4 & _).
    split; [exact H1|]. intros Hf. rewrite Hf in H3, H4. split; [exact H3|].
    intros Hok. by rewrite Hok in H4. }
  split; [apply log_below; unfold Logger.shouldLog; by rewrite Hthr|].
  split; [apply log_below; unfold Logger.shouldLog; by rewrite Hthr|].
  split; [apply Hemit; unfold Logger.shouldLog; by rewrite Hthr|].
  split; [apply Hemit; unfold Logger.shouldLog; by rewrite Hthr|].
  intros lg' level x y Hx Hy Hlt m w0. apply log_below.
  unfold Logger.shouldLog. rewrite (ge_numbers _ _ x y) by done.
  apply Z.leb_gt, Hlt.
Qed.

Lemma warn_threshold_filters_witness :
  Logger.info (sample_logger "warn") "progress" (world_of sample_env)
  = (tt, world_of sample_env)
  ∧ w_stdout (Logger.error (sample_logger "warn") "boom" (world_of sample_env)).2
    = [Batch.console_line "error" "2024-05-06T07:08:09.0Z" "boom"].
Proof.
  pose proof (warn_threshold_filters (sample_logger "warn") "progress"
                (world_of sample_env) eq_refl) as (_ & Hinfo & _).
  pose proof (warn_threshold_filters (sample_logger "warn") "boom"
                (world_of sample_env) eq_refl) as (_ & _ & _ & (Herr & _) & _).
  split; [exact Hinfo|exact Herr].
Defined.

(** C10: a logger whose threshold is not one of debug, info, warn, error
    drops every message at every recognized level: [shouldLog] is false, and
    [log], [debug], [info], [warn] and [error] leave the console, the log
    file and the clock as they were. *)
Theorem unknown_threshold_suppresses_all (lg : Logger.logger) (level message : string)
    (w : World) :
  Logger.logLevel lg ∉ recognized →
  level ∈ recognized →
  Logger.shouldLog lg level = false
  ∧ Logger.log lg level message w = (tt, w)
  ∧ Logger.debug lg message w = (tt, w)
  ∧ Logger.info lg message w = (tt, w)
  ∧ Logger.warn lg message w = (tt, w)
  ∧ Logger.error lg message w = (tt, w).
Proof.
  intros Hthr Hlevel.
  pose proof (unranked_threshold lg) as Hno.
  split_and!; first [by apply Hno | apply log_below, Hno; try done].
  - apply recognized_debug.
  - apply recognized_info.
  - apply recognized_warn.
  - apply recognized_error.
Qed.

Lemma unknown_threshold_suppresses_all_witness :
  Logger.log (sample_logger "verbose") "error" "boom" (world_of sample_env)
  = (tt, world_of sample_env).
Proof.
  refine (proj1 (proj2 (unknown_threshold_suppresses_all (sample_logger "verbose")
                          "error" "boom" (world_of sample_env) _ _))).
  - apply (bool_decide_unpack _). by vm_compute.
  - apply (bool_decide_unpack _). by vm_compute.
Defined.

Lemma new_with_file level w :
  Logger.new level true w
  = (Logger.dated_logger level w,
     (Logger.initializeLogFile (Logger.dated_logger level w)
        (Sys.nowISOString w).2).2).
Proof.
  unfold Logger.new, Logger.dated_logger, Logger.getDateString, bind, ret,
    Sys.processCwd, Sys.nowISOString.
  cbn [fst snd]. by destruct (Logger.initializeLogFile _ _) as [[] ?].
Qed.

(** C8, as the code has it: when the log directory or the dated log file
    cannot be created, the constructor reports it on the error console only
    and returns its logger, with the file sink still switched on: every later
    message that passes the filter still issues an append to the log file,
    and an append that fails is reported on the error console. *)
Theorem sink_survives_failed_initialisation (level e : string) (w : World)
    (lg : Logger.logger) (w1 : World) :
  Logger.new level true w = (lg, w1) →
  (e_ensureDir (w_env w) (Logger.logDir lg) = Some e
   ∨ (e_ensureDir (w_env w) (Logger.logDir lg) = None
      ∧ e_ensureFile (w_env w) (Logger.logFile lg) = Some e)) →
  w_stderr w1 = w_stderr w ++ ["Failed to initialize log file: " +:+ e]
  ∧ w_stdout w1 = w_stdout w
  ∧ w_appends w1 = w_appends w
  ∧ Logger.logToFile lg = true
  ∧ ∀ level' message w2,
      Logger.shouldLog lg level' = true →
      w_appends (Logger.log lg level' message w2).2
      = w_appends w2
          ++ [(Logger.logFile lg,
               Logger.format (e_clock (w_env w2) (w_clock_reads w2)) level' message
                 +:+ Logger.newline)]
      ∧ ∀ e', e_appendFile (w_env w2) (length (w_appends w2)) (Logger.logFile lg) = Some e' →
              w_stderr (Logger.log lg level' message w2).2
              = w_stderr w2 ++ ["Failed to write to log file: " +:+ e']
              ∧ w_written (Logger.log lg level' message w2).2 = w_written w2.
Proof.
  rewrite new_with_file. intros [= <- <-].
  set (lg := Logger.dated_logger level w).
  unfold Logger.initializeLogFile, bind, ret, Sys.nowISOString, Sys.ensureDir,
    Sys.ensureFile, Sys.consoleError, Sys.create.
  cbn [fst snd w_env w_stderr w_stdout w_appends]. intros Hfail.
  assert (Logger.logToFile lg = true) as Hon by reflexivity.
  split; [|split; [|split; [|split]]].
  - destruct Hfail as [Hd|[Hd Hf]]; rewrite Hd; [done|]. cbn [w_env]. by rewrite Hf.
  - destruct Hfail as [Hd|[Hd Hf]]; rewrite Hd; [done|]. cbn [w_env]. by rewrite Hf.
  - destruct Hfail as [Hd|[Hd Hf]]; rewrite Hd; [done|]. cbn [w_env]. by rewrite Hf.
  - exact Hon.
  - intros level' message w2 Hl.
    destruct (log_above lg level' message w2 Hl) as (_ & _ & H3 & H4 & H5).
    rewrite Hon in H3, H4, H5. split; [exact H3|].
    intros e' He'. rewrite He' in H4, H5. by rewrite H4, H5, app_nil_r.
Qed.

Lemma sink_survives_failed_initialisation_witness :
  w_stderr (Logger.new "info" true (world_of readonly_env)).2
  = ["Failed to initialize log file: EACCES: permission denied"]
  ∧ Logger.logToFile (Logger.new "info" true (world_of readonly_env)).1 = true.
Proof.
  pose proof (sink_survives_failed_initialisation "info" "EACCES: permission denied"
                (world_of readonly_env)
                (Logger.new "info" true (world_of readonly_env)).1
                (Logger.new "info" true (world_of readonly_env)).2
                eq_refl (or_introl eq_refl)) as (H1 & _ & _ & H4 & _).
  split; [exact H1|exact H4].
Defined.

(** C8 as the specification words it fails: after an initialisation that
    failed, the file sink is still enabled and the next message does attempt
    a write to the log file. *)
Lemma file_sink_not_disabled_after_failed_initialisation :
  w_stderr failed_init.2
  = ["Failed to initialize log file: EACCES: permission denied"]
  ∧ Logger.logToFile failed_init.1 = true
  ∧ w_appends failed_init.2 = []
  ∧ w_appends (Logger.info failed_init.1 "hello" failed_init.2).2
    = [("/app/logs/mp3-cover-art-2024-05-06.log",
        "[2024-05-06T07:08:09.1Z] [INFO] hello" +:+ Logger.newline)].
Proof. split_and!; by vm_compute. Qed.

(** C9: the probe's promise is always resolved, never rejected, and it is
    resolved with true exactly when the child process was started and closed
    with code 0; a process that could not be started, that closed with
    another code or that was killed gives false. *)
Theorem validateFFmpeg_true_iff_clean_exit (w : World) :
  ∃ (available : bool) (w' : World),
    Mp3Processor.validateFFmpeg w = (Resolved available, w')
    ∧ (available = true ↔ pr_ending (Batch.probe_run w) = Close (Some 0))
    ∧ (available = false ↔
         (∃ message, pr_ending (Batch.probe_run w) = Error message)
         ∨ (∃ code, pr_ending (Batch.probe_run w) = Close code ∧ code ≠ Some 0)).
Proof.
  unfold Mp3Processor.validateFFmpeg, Batch.probe_run, bind, ret, Sys.spawn.
  cbn [Sys.output_of rev app].
  destruct (pr_ending _) as [[[| |]|]|message] eqn:E; eexists _, _;
    (split; [reflexivity|]); split; split; try done; try (intros [[? ?]|[? [? ?]]]; congruence);
    intros _; try (left; by eexists); right; by eexists.
Qed.

(** ** Properties of a single conversion *)

(** Peels the logger calls off the world of the goal, last call first. *)
Ltac walk_logs :=
  repeat first
    [ apply only_logged_refl
    | apply log_only_logged
    | eapply only_logged_trans; [|apply log_only_logged] ].

Section ProcessorFacts.
Import Mp3Processor Batch.
Variable lg : Logger.logger.

Lemma bind_run {A B} (m : M A) (k : A → M B) w :
  bind m k w = k (m w).1 (m w).2.
Proof. unfold bind. by destruct (m w). Qed.

Lemma only_logged_paths w w' x :
  only_logged lg w w' → x ∈ w_paths w → x ∈ w_paths w'.
Proof. intros (_ & _ & Hsub & _). apply Hsub. Qed.

Lemma onData_only_logged chunks acc w :
  only_logged lg w (onData lg chunks acc w).2.
Proof.
  revert acc w. induction chunks as [|[[|] line] rest IH]; intros acc w.
  - apply only_logged_refl.
  - apply IH.
  - cbn [onData]. rewrite bind_run.
    eapply only_logged_trans; [|apply IH].
    destruct (JsString.includes "time=" line);
      [apply log_only_logged|apply only_logged_refl].
Qed.

Lemma info_all_only_logged messages w :
  only_logged lg w (info_all lg messages w).2.
Proof.
  revert w. induction messages as [|m rest IH]; intros w.
  - apply only_logged_refl.
  - cbn [info_all]. rewrite bind_run.
    eapply only_logged_trans; [apply log_only_logged|apply IH].
Qed.

Lemma output_of_ffmpegArgs i c o : Sys.output_of (ffmpegArgs i c o) = Some o.
Proof. reflexivity. Qed.

Lemma spawn_convert i c o w :
  let args := ffmpegArgs i c o in
  let run := e_spawn (w_env w) (length (w_spawned w)) "ffmpeg" args in
  (Sys.spawn "ffmpeg" args w).1 = run
  ∧ evolved lg (if pr_wrote run then {[ o ]} else ∅) [("ffmpeg", args)] w
      (Sys.spawn "ffmpeg" args w).2
  ∧ (pr_wrote run = true → o ∈ w_paths (Sys.spawn "ffmpeg" args w).2).
Proof.
  cbv zeta. unfold Sys.spawn. rewrite output_of_ffmpegArgs. cbn [fst snd].
  split; [done|].
  destruct (pr_wrote _); unfold evolved, Sys.create; cbn; split_and!;
    try done; intros x; rewrite ?elem_of_union, ?elem_of_singleton; tauto.
Qed.

Lemma onClose_spec i o text code w :
  (onClose lg i o text code w).1
  = match code with
    | Some 0 => Resolved tt
    | _ => Rejected ("FFmpeg process exited with code " +:+ show_code code)
    end
  ∧ only_logged lg w (onClose lg i o text code w).2.
Proof.
  unfold onClose.
  destruct code as [[| |]|]; rewrite !bind_run; cbn [ret fst snd];
    (split; [reflexivity|]); try destruct (JsString.is_empty _); walk_logs.
Qed.

Lemma applyCoverArt_spec i c o w :
  let args := ffmpegArgs i c o in
  let run := e_spawn (w_env w) (length (w_spawned w)) "ffmpeg" args in
  let r := applyCoverArt lg i c o w in
  r.1 = match pr_ending run with
        | Close (Some 0) => Resolved tt
        | Close code =>
            Rejected ("FFmpeg process exited with code " +:+ show_code code)
        | Error message => Rejected message
        end
  ∧ evolved lg (if pr_wrote run then {[ o ]} else ∅) [("ffmpeg", args)] w r.2
  ∧ (pr_wrote run = true → o ∈ w_paths r.2).
Proof.
  cbv zeta. unfold applyCoverArt. rewrite !bind_run.
  set (w1 := (Logger.info lg _ w).2).
  set (w2 := (Logger.info lg _ w1).2).
  assert (only_logged lg w w2) as H02.
  { eapply only_logged_trans; apply log_only_logged. }
  destruct (spawn_convert i c o w2) as (Hrun & Hsp & Hwrote).
  destruct H02 as (He & Hs & _) in Hrun, Hwrote, Hsp |- *.
  rewrite He, Hs, app_nil_r in Hrun, Hsp, Hwrote.
  set (run := e_spawn (w_env w) (length (w_spawned w)) "ffmpeg" (ffmpegArgs i c o)) in *.
  rewrite Hrun.
  set (w3 := (Sys.spawn "ffmpeg" (ffmpegArgs i c o) w2).2) in *.
  set (w4 := (onData lg (pr_data run) "" w3).2).
  assert (evolved lg (if pr_wrote run then {[ o ]} else ∅)
            [("ffmpeg", ffmpegArgs i c o)] w w4) as H04.
  { eapply evolved_after_log; [eapply only_logged_trans; apply log_only_logged|].
    eapply evolved_then_log; [exact Hsp|apply onData_only_logged]. }
  assert (∀ w5, only_logged lg w4 w5 →
            evolved lg (if pr_wrote run then {[ o ]} else ∅)
              [("ffmpeg", ffmpegArgs i c o)] w w5
            ∧ (pr_wrote run = true → o ∈ w_paths w5)) as Hfin.
  { intros w5 H45. split; [by eapply evolved_then_log|].
    intros Hw. destruct H45 as (_ & _ & Hsub & _). apply Hsub.
    destruct (onData_only_logged (pr_data run) "" w3) as (_ & _ & Hsub' & _).
    by apply Hsub', Hwrote. }
  destruct (pr_ending run) as [code|message].
  - destruct (onClose_spec i o (onData lg (pr_data run) "" w3).1 code w4) as [Hr Hl].
    split; [rewrite Hr; by destruct code as [[| |]|]|]. by apply Hfin.
  - rewrite !bind_run. cbn [ret fst snd]. split; [reflexivity|]. apply Hfin.
    eapply only_logged_trans; [apply log_only_logged|apply onClose_spec].
Qed.

Lemma iteration_spec cover out f s fl w :
  let v := verdict w cover out f in
  let dest := destination out f in
  let args := ffmpegArgs f cover dest in
  let run := e_spawn (w_env w) (length (w_spawned w)) "ffmpeg" args in
  let r := iteration lg cover out f (s, fl) w in
  r.1 = match v with
        | Skipped => (s, fl)
        | Converted => (s + 1, fl)
        | Failed => (s, fl + 1)
        end
  ∧ match v with
    | Skipped => only_logged lg w r.2
    | _ => evolved lg (if pr_wrote run then {[ dest ]} else ∅) [("ffmpeg", args)] w r.2
           ∧ (pr_wrote run = true → dest ∈ w_paths r.2)
    end.
Proof.
  cbv zeta. unfold iteration, verdict, outcome, next_ending, destination.
  rewrite bind_run.
  set (dest := Path.join out (Path.basename f)).
  change (Sys.pathExists dest w) with (bool_decide (dest ∈ w_paths w), w).
  cbn [fst snd]. case_bool_decide as Hin.
  - rewrite bind_run. cbn [ret fst snd]. split; [done|]. apply log_only_logged.
  - rewrite bind_run.
    destruct (applyCoverArt_spec f cover dest w) as (Hr & Hev & Hw).
    rewrite Hr.
    destruct (pr_ending _) as [[[| |]|]|message]; rewrite ?bind_run;
      cbn [ret fst snd]; (split; [done|]); try (split; [exact Hev|exact Hw]);
      (split; [eapply evolved_then_log; [exact Hev|apply log_only_logged]|]);
      intros Hyes; (eapply only_logged_paths; [apply log_only_logged|by apply Hw]).
Qed.
End ProcessorFacts.

(** ** Properties of the loop *)

Section LoopFacts.
Import Mp3Processor Batch.
Variable lg : Logger.logger.
Variables cover out : string.

Lemma iteration_world f c c' w :
  (iteration lg cover out f c w).2 = (iteration lg cover out f c' w).2.
Proof.
  destruct c as [s fl], c' as [s' fl']. unfold iteration. rewrite !bind_run.
  destruct (Sys.pathExists _ w).1; rewrite !bind_run; [done|].
  destruct (applyCoverArt _ _ _ _ _).1; by rewrite ?bind_run.
Qed.

Lemma count_cons v x h :
  count v (x :: h) = (if bool_decide (x = v) then 1 else 0) + count v h.
Proof. unfold count. cbn [List.filter]. case_bool_decide; cbn [length]; lia. Qed.

Lemma count_nonneg v h : 0 ≤ count v h.
Proof. unfold count. lia. Qed.

(** Every verdict is one of the three. *)
Lemma count_total h :
  Z.of_nat (length h) = count Converted h + count Failed h + count Skipped h.
Proof.
  induction h as [|x h IH]; [done|]. rewrite !count_cons. cbn [length].
  destruct x; repeat case_bool_decide; try done; lia.
Qed.

Lemma verdict_skipped w f :
  verdict w cover out f = Skipped ↔ destination out f ∈ w_paths w.
Proof.
  unfold verdict.
  destruct (bool_decide_reflect (destination out f ∈ w_paths w)) as [Hin|Hin].
  - done.
  - split; [|done]. unfold outcome.
    by destruct (next_ending _ _ _ _) as [[[| |]|]|].
Qed.

Lemma verdict_converted w f :
  verdict w cover out f = Converted →
  next_ending w cover out f = Close (Some 0).
Proof.
  unfold verdict.
  destruct (bool_decide (destination out f ∈ w_paths w)); [done|].
  unfold outcome. by destruct (next_ending _ _ _ _) as [[[| |]|]|].
Qed.

Lemma verdict_fresh w f :
  destination out f ∉ w_paths w →
  verdict w cover out f = outcome (next_ending w cover out f).
Proof. intros Hin. unfold verdict. by rewrite bool_decide_eq_false_2. Qed.

Lemma history_length files w : length (history lg cover out files w) = length files.
Proof.
  revert w. induction files as [|f rest IH]; intros w; [done|].
  cbn [history length]. by rewrite IH.
Qed.

(** The counters of the loop count the verdicts. *)
Lemma loop_counts files s fl w :
  (loop lg cover out files (s, fl) w).1
  = (s + count Converted (history lg cover out files w),
     fl + count Failed (history lg cover out files w)).
Proof.
  revert s fl w. induction files as [|f rest IH]; intros s fl w.
  - cbn [loop history ret fst]. unfold count. cbn [List.filter length].
    f_equal; lia.
  - cbn [loop history]. rewrite bind_run.
    destruct (iteration_spec lg cover out f s fl w) as [Hc _].
    rewrite (iteration_world f (0, 0) (s, fl)).
    destruct (iteration lg cover out f (s, fl) w) as [c w'].
    cbn [fst snd] in *. subst c. rewrite !count_cons.
    destruct (verdict w cover out f); rewrite IH;
      repeat case_bool_decide; try done; f_equal; lia.
Qed.

Lemma iteration_grows f c w :
  w_env (iteration lg cover out f c w).2 = w_env w
  ∧ w_paths w ⊆ w_paths (iteration lg cover out f c w).2.
Proof.
  destruct c as [s fl].
  destruct (iteration_spec lg cover out f s fl w) as [_ H].
  destruct (verdict w cover out f);
    [destruct H as (? & _ & ? & _)|destruct H as [(? & _ & ? & _) _]..]; done.
Qed.

Lemma loop_grows files c w :
  w_env (loop lg cover out files c w).2 = w_env w
  ∧ w_paths w ⊆ w_paths (loop lg cover out files c w).2.
Proof.
  revert c w. induction files as [|f rest IH]; intros c w; [done|].
  cbn [loop]. rewrite bind_run.
  destruct (iteration_grows f c w) as [He Hp].
  destruct (IH (iteration lg cover out f c w).1 (iteration lg cover out f c w).2)
    as [He' Hp'].
  split; [congruence|]. intros x Hx. by apply Hp', Hp.
Qed.

(** A batch whose destinations all exist only logs. *)
Lemma loop_all_present files c w :
  (∀ f, f ∈ files → destination out f ∈ w_paths w) →
  (loop lg cover out files c w).1 = c
  ∧ only_logged lg w (loop lg cover out files c w).2
  ∧ history lg cover out files w = replicate (length files) Skipped.
Proof.
  revert c w. induction files as [|f rest IH]; intros [s fl] w Hall.
  - split; [done|]. split; [apply only_logged_refl|done].
  - cbn [loop history]. rewrite bind_run.
    rewrite (iteration_world f (0, 0) (s, fl)).
    destruct (iteration_spec lg cover out f s fl w) as [Hc Hw].
    assert (verdict w cover out f = Skipped) as Hv.
    { unfold verdict. rewrite bool_decide_eq_true_2; [done|].
      apply Hall, list_elem_of_here. }
    rewrite Hv in Hc, Hw |- *. rewrite Hc.
    destruct (IH (s, fl) (iteration lg cover out f (s, fl) w).2) as (H1 & H2 & H3).
    { intros g Hg. eapply only_logged_paths; [exact Hw|].
      by apply Hall, list_elem_of_further. }
    split; [exact H1|]. split; [by eapply only_logged_trans|].
    cbn [length replicate]. by rewrite H3.
Qed.

(** Under the converter's contract, a batch without a failure leaves every
    destination in place. *)
Lemma loop_leaves_present files c w :
  writes_on_success (w_env w) →
  count Failed (history lg cover out files w) = 0 →
  ∀ f, f ∈ files → destination out f ∈ w_paths (loop lg cover out files c w).2.
Proof.
  intros Hcontract. revert c w Hcontract.
  induction files as [|f rest IH]; intros [s fl] w Hcontract Hnone g Hg.
  { by apply elem_of_nil in Hg. }
  cbn [loop history] in *. rewrite bind_run.
  rewrite (iteration_world f (0, 0) (s, fl)) in Hnone.
  rewrite count_cons in Hnone.
  pose proof (count_nonneg Failed
                (history lg cover out rest (iteration lg cover out f (s, fl) w).2)) as Hnn.
  destruct (iteration_spec lg cover out f s fl w) as [_ Hw].
  destruct (iteration_grows f (s, fl) w) as [He Hp].
  set (w' := (iteration lg cover out f (s, fl) w).2) in *.
  set (c' := (iteration lg cover out f (s, fl) w).1).
  apply elem_of_cons in Hg as [->|Hg].
  - destruct (loop_grows rest c' w') as [_ Hsub]. apply Hsub.
    destruct (verdict w cover out f) eqn:Hv.
    + by apply Hp, verdict_skipped.
    + destruct Hw as [_ Hw]. by apply Hw, Hcontract, verdict_converted.
    + rewrite bool_decide_eq_true_2 in Hnone by done. lia.
  - apply IH; [by rewrite He| |done].
    case_bool_decide; lia.
Qed.
End LoopFacts.

(** ** Properties of [processFolder] *)

Section FolderFacts.
Import Mp3Processor Batch.
Variable lg : Logger.logger.

Lemma getMp3Files_run inF w :
  getMp3Files lg inF w
  = match e_readdir (w_env w) inF with
    | inr _ => (Resolved (candidates inF w),
                (Logger.info lg (found_message inF w) w).2)
    | inl m => (Rejected ("Failed to read directory " +:+ inF +:+ ": " +:+ m), w)
    end.
Proof.
  unfold getMp3Files, found_message, candidates. rewrite bind_run.
  change (Sys.readdir inF w) with (e_readdir (w_env w) inF, w). cbn [fst snd].
  destruct (e_readdir (w_env w) inF); [done|]. by rewrite bind_run.
Qed.

Lemma getMp3Files_only_logged inF w :
  only_logged lg w (getMp3Files lg inF w).2.
Proof.
  rewrite getMp3Files_run. destruct (e_readdir _ _);
    [apply only_logged_refl|apply log_only_logged].
Qed.

Lemma ensureDir_run dir w :
  Sys.ensureDir dir w
  = match e_ensureDir (w_env w) dir with
    | Some m => (Some m, w)
    | None => (None, Sys.create dir w)
    end.
Proof. done. Qed.

Lemma create_evolved dir w : evolved lg {[ dir ]} [] w (Sys.create dir w).
Proof.
  unfold evolved, Sys.create. cbn. rewrite app_nil_r. split_and!; try done.
  - apply union_subseteq_r.
  - intros x Hx. rewrite !elem_of_union in *. tauto.
Qed.

(** [processFolder], step by step. *)
Lemma processFolder_run inF cover out w :
  processFolder lg inF cover out w
  = match e_readdir (w_env w) inF with
    | inl m =>
        (Rejected ("Failed to process folder: "
                     +:+ "Failed to read directory " +:+ inF +:+ ": " +:+ m), w)
    | inr _ =>
        let files := candidates inF w in
        let w1 := (getMp3Files lg inF w).2 in
        if (length files =? 0)%nat then
          (Resolved None,
           (Logger.warn lg "No MP3 files found in the input folder" w1).2)
        else
          match e_ensureDir (w_env w) out with
          | Some m => (Rejected ("Failed to process folder: " +:+ m), w1)
          | None =>
              let r := loop lg cover out files (0, 0) (loop_start lg inF out w) in
              (Resolved (Some (tally_of files r.1)),
               (logSummary lg out (tally_of files r.1) r.2).2)
          end
    end.
Proof.
  pose proof (getMp3Files_only_logged inF w) as (He & _).
  pose proof (getMp3Files_run inF w) as Hg.
  unfold processFolder, loop_start. rewrite bind_run.
  destruct (e_readdir (w_env w) inF) as [m|listing] eqn:Hdir.
  { by rewrite Hg. }
  assert ((getMp3Files lg inF w).1 = Resolved (candidates inF w)) as ->
      by (by rewrite Hg).
  set (w1 := (getMp3Files lg inF w).2) in *. cbv zeta.
  destruct (length (candidates inF w) =? 0)%nat; [by rewrite bind_run|].
  rewrite bind_run, ensureDir_run, He.
  destruct (e_ensureDir (w_env w) out); [done|].
  cbn [fst snd]. rewrite !bind_run.
  destruct (loop lg cover out _ _ _) as [[s fl] w4]. cbn [fst snd].
  by rewrite bind_run.
Qed.

Lemma info_all_stdout messages w :
  Logger.shouldLog lg "info" = true →
  w_stdout (info_all lg messages w).2
  = w_stdout w ++ console_lines (w_env w) "info" (w_clock_reads w) messages
  ∧ w_clock_reads (info_all lg messages w).2
    = (w_clock_reads w + length messages)%nat
  ∧ w_env (info_all lg messages w).2 = w_env w.
Proof.
  intros Hinfo. revert w. induction messages as [|m rest IH]; intros w.
  - cbn. by rewrite app_nil_r, Nat.add_0_r.
  - cbn [info_all console_lines length]. rewrite bind_run.
    destruct (log_above lg "info" m w Hinfo) as (H1 & H2 & _).
    destruct (log_only_logged lg "info" m w) as (He & _).
    destruct (IH (Logger.info lg m w).2) as (I1 & I2 & I3).
    unfold Logger.info in *. rewrite I1, I2, I3, H1, H2, He, <- app_assoc.
    split_and!; [done|lia|done].
Qed.

Lemma console_lines_app e level n a b :
  console_lines e level n (a ++ b)
  = console_lines e level n a ++ console_lines e level (n + length a) b.
Proof.
  revert n. induction a as [|m a IH]; intros n.
  - cbn. by rewrite Nat.add_0_r.
  - cbn [app console_lines length]. rewrite IH. do 3 f_equal. lia.
Qed.

(** The console after the summary block, when info messages pass. *)
Lemma logSummary_stdout out t w :
  Logger.shouldLog lg "info" = true →
  w_stdout (logSummary lg out t w).2
  = w_stdout w
      ++ console_lines (w_env w) "info" (w_clock_reads w)
           (summary_messages t
              ++ (if 0 <? succeeded t then [saved_message out] else [])).
Proof.
  intros Hinfo. unfold logSummary. rewrite bind_run.
  destruct (info_all_stdout (summary_messages t) w Hinfo) as (H1 & H2 & H3).
  destruct (0 <? succeeded t).
  - destruct (log_above lg "info" (saved_message out)
                (info_all lg (summary_messages t) w).2 Hinfo) as (L1 & _).
    unfold Logger.info. rewrite L1, H1, H2, H3, <- app_assoc.
    by rewrite console_lines_app.
  - cbn [ret snd]. by rewrite H1, app_nil_r.
Qed.

Lemma logSummary_only_logged out t w :
  only_logged lg w (logSummary lg out t w).2.
Proof.
  unfold logSummary. rewrite bind_run.
  destruct (0 <? succeeded t).
  - eapply only_logged_trans; [apply info_all_only_logged|apply log_only_logged].
  - apply info_all_only_logged.
Qed.
End FolderFacts.

(** ** The claims about the batch *)

Import Mp3Processor Batch.

(** C1: in every run of [processFolder] that does not throw, each candidate
    gets exactly one verdict, so the number of candidates is the number of
    conversions that succeeded plus the number that failed plus the number of
    candidates skipped because their destination existed; and the four
    numbers of the summary block are these counts, with
    total = succeeded + failed + skipped. *)
Theorem tally_accounts_for_every_candidate (lg : Logger.logger)
    (inputFolder coverArtPath outputFolder : string) (w w' : World)
    (r : option Tally) :
  processFolder lg inputFolder coverArtPath outputFolder w = (Resolved r, w') →
  length (verdicts lg inputFolder coverArtPath outputFolder w)
  = length (candidates inputFolder w)
  ∧ Z.of_nat (length (candidates inputFolder w))
    = count Converted (verdicts lg inputFolder coverArtPath outputFolder w)
      + count Failed (verdicts lg inputFolder coverArtPath outputFolder w)
      + count Skipped (verdicts lg inputFolder coverArtPath outputFolder w)
  ∧ ∀ t, r = Some t →
      totalDiscovered t = Z.of_nat (length (candidates inputFolder w))
      ∧ succeeded t = count Converted (verdicts lg inputFolder coverArtPath outputFolder w)
      ∧ failed t = count Failed (verdicts lg inputFolder coverArtPath outputFolder w)
      ∧ skipped t = count Skipped (verdicts lg inputFolder coverArtPath outputFolder w)
      ∧ totalDiscovered t = succeeded t + failed t + skipped t.
Proof.
  intros Hrun.
  set (files := candidates inputFolder w).
  set (h := verdicts lg inputFolder coverArtPath outputFolder w).
  assert (length h = length files) as Hlen by apply history_length.
  pose proof (count_total h) as Htotal. rewrite Hlen in Htotal.
  split; [exact Hlen|]. split; [exact Htotal|].
  intros t ->. rewrite processFolder_run in Hrun.
  destruct (e_readdir (w_env w) inputFolder); [done|]. cbv zeta in Hrun.
  destruct (length (candidates inputFolder w) =? 0)%nat; [done|].
  destruct (e_ensureDir (w_env w) outputFolder); [done|].
  injection Hrun as Ht _. subst t. fold files in Htotal |- *.
  rewrite loop_counts.
  change (history lg coverArtPath outputFolder files
            (loop_start lg inputFolder outputFolder w)) with h.
  unfold tally_of. cbn [totalDiscovered succeeded failed skipped fst snd].
  repeat split; lia.
Qed.

Lemma tally_accounts_for_every_candidate_witness :
  mixed_run.1 = Resolved (Some mixed_tally)
  ∧ totalDiscovered mixed_tally
    = succeeded mixed_tally + failed mixed_tally + skipped mixed_tally.
Proof.
  split; [by vm_compute|].
  refine (proj2 (proj2 (proj2 (proj2 (proj2 (proj2
    (tally_accounts_for_every_candidate (sample_logger "info") "/music" "/cover.jpg"
       "/out" (world_of second_fails_env) mixed_run.2 (Some mixed_tally) _))
    mixed_tally eq_refl))))).
  by vm_compute.
Defined.

(** What one call of [log] adds to the console, and whether it reads the
    clock. *)
Lemma log_console lg level message w :
  w_stdout (Logger.log lg level message w).2
  = w_stdout w
      ++ (if Logger.shouldLog lg level
          then [console_line level (e_clock (w_env w) (w_clock_reads w)) message]
          else [])
  ∧ w_clock_reads (Logger.log lg level message w).2
    = (if Logger.shouldLog lg level then S (w_clock_reads w) else w_clock_reads w)
  ∧ w_env (Logger.log lg level message w).2 = w_env w.
Proof.
  destruct (Logger.shouldLog lg level) eqn:Hpass.
  - destruct (log_above lg level message w Hpass) as (H1 & H2 & _).
    destruct (log_only_logged lg level message w) as (He & _). by split_and!.
  - rewrite log_below by done. cbn [snd]. by rewrite app_nil_r.
Qed.

(** The run over a folder without candidates: two logger calls, nothing
    else. *)
Lemma empty_folder_run lg inputFolder coverArtPath outputFolder w listing :
  e_readdir (w_env w) inputFolder = inr listing →
  List.filter is_mp3 listing = [] →
  processFolder lg inputFolder coverArtPath outputFolder w
  = (Resolved None,
     (Logger.warn lg "No MP3 files found in the input folder"
        (Logger.info lg ("Found 0 MP3 files in " +:+ inputFolder) w).2).2).
Proof.
  intros Hdir Hnone. rewrite processFolder_run, Hdir. cbv zeta.
  rewrite getMp3Files_run, Hdir. unfold found_message.
  assert (candidates inputFolder w = []) as ->.
  { unfold candidates. by rewrite Hdir, Hnone. }
  reflexivity.
Qed.

Lemma empty_folder_console lg inputFolder w :
  w_stdout (Logger.warn lg "No MP3 files found in the input folder"
              (Logger.info lg ("Found 0 MP3 files in " +:+ inputFolder) w).2).2
  = w_stdout w
      ++ (if Logger.shouldLog lg "info"
          then [console_line "info" (e_clock (w_env w) (w_clock_reads w))
                  ("Found 0 MP3 files in " +:+ inputFolder)]
          else [])
      ++ (if Logger.shouldLog lg "warn"
          then [console_line "warn"
                  (e_clock (w_env w)
                     (if Logger.shouldLog lg "info"
                      then S (w_clock_reads w) else w_clock_reads w))
                  "No MP3 files found in the input folder"]
          else []).
Proof.
  unfold Logger.warn, Logger.info.
  destruct (log_console lg "info" ("Found 0 MP3 files in " +:+ inputFolder) w)
    as (H1 & H2 & H3).
  destruct (log_console lg "warn" "No MP3 files found in the input folder"
              (Logger.log lg "info" ("Found 0 MP3 files in " +:+ inputFolder) w).2)
    as (H4 & _).
  by rewrite H4, H1, H2, H3, <- app_assoc.
Qed.

(** C4, as the code has it: when discovery finds no matching file,
    [processFolder] makes two logger calls, the count of discovery at info
    level and its warning, and returns at once: these two lines are all that
    reaches the console, so no summary is logged, zero-filled or not; no
    child process is started, and nothing is created apart from the log
    file; the output folder is not even ensured to exist. *)
Theorem no_candidates_returns_without_tally (lg : Logger.logger)
    (inputFolder coverArtPath outputFolder : string) (w : World)
    (listing : list string) :
  e_readdir (w_env w) inputFolder = inr listing →
  List.filter is_mp3 listing = [] →
  ∃ w' : World,
    processFolder lg inputFolder coverArtPath outputFolder w = (Resolved None, w')
    ∧ w' = (Logger.warn lg "No MP3 files found in the input folder"
              (Logger.info lg ("Found 0 MP3 files in " +:+ inputFolder) w).2).2
    ∧ w_stdout w'
      = w_stdout w
          ++ (if Logger.shouldLog lg "info"
              then [console_line "info" (e_clock (w_env w) (w_clock_reads w))
                      ("Found 0 MP3 files in " +:+ inputFolder)]
              else [])
          ++ (if Logger.shouldLog lg "warn"
              then [console_line "warn"
                      (e_clock (w_env w)
                         (if Logger.shouldLog lg "info"
                          then S (w_clock_reads w) else w_clock_reads w))
                      "No MP3 files found in the input folder"]
              else [])
    ∧ w_spawned w' = w_spawned w
    ∧ w_paths w' ⊆ {[ Logger.logFile lg ]} ∪ w_paths w
    ∧ (outputFolder ∉ w_paths w → outputFolder ≠ Logger.logFile lg →
       outputFolder ∉ w_paths w').
Proof.
  intros Hdir Hnone.
  rewrite (empty_folder_run lg inputFolder coverArtPath outputFolder w listing)
    by done.
  eexists. split; [reflexivity|]. split; [reflexivity|].
  split; [apply empty_folder_console|].
  assert (only_logged lg w
            (Logger.warn lg "No MP3 files found in the input folder"
               (Logger.info lg ("Found 0 MP3 files in " +:+ inputFolder) w).2).2)
    as (_ & Hs & _ & Hp).
  { eapply only_logged_trans; apply log_only_logged. }
  assert (w_paths
            (Logger.warn lg "No MP3 files found in the input folder"
               (Logger.info lg ("Found 0 MP3 files in " +:+ inputFolder) w).2).2
          ⊆ {[ Logger.logFile lg ]} ∪ w_paths w) as Hsub.
  { intros x Hx. apply Hp in Hx. rewrite !elem_of_union in *.
    destruct Hx as [[Hx|Hx]|Hx]; [tauto| |tauto]. by apply elem_of_empty in Hx. }
  split; [by rewrite Hs, app_nil_r|]. split; [exact Hsub|].
  intros Hnot Hlog Hin. apply Hsub in Hin. rewrite elem_of_union in Hin.
  destruct Hin as [Hin|Hin]; [|done]. by apply elem_of_singleton in Hin.
Qed.

Lemma no_candidates_returns_without_tally_witness :
  ∃ w' : World,
    processFolder (sample_logger "info") "/empty" "/cover.jpg" "/out"
      (world_of sample_env) = (Resolved None, w')
    ∧ w_stdout w'
      = [console_line "info" "2024-05-06T07:08:09.0Z" "Found 0 MP3 files in /empty";
         console_line "warn" "2024-05-06T07:08:09.1Z"
           "No MP3 files found in the input folder"].
Proof.
  destruct (no_candidates_returns_without_tally (sample_logger "info") "/empty"
              "/cover.jpg" "/out" (world_of sample_env) ["notes.txt"]
              eq_refl eq_refl) as (w' & H & _ & Hout & _).
  exists w'. split; [exact H|exact Hout].
Defined.

(** C4 as the specification words it fails: a run that finds no candidate
    hands back no tally, zero-filled or not, logs no summary, and leaves the
    output folder unensured. *)
Lemma no_candidates_no_zero_tally :
  empty_run.1 = Resolved None
  ∧ empty_run.1 ≠ Resolved (Some {| totalDiscovered := 0; succeeded := 0;
                                    failed := 0; skipped := 0 |})
  ∧ w_stdout empty_run.2
    = [console_line "info" "2024-05-06T07:08:09.0Z" "Found 0 MP3 files in /empty";
       console_line "warn" "2024-05-06T07:08:09.1Z"
         "No MP3 files found in the input folder"]
  ∧ "/out" ∉ w_paths empty_run.2.
Proof.
  split; [by vm_compute|]. split; [by vm_compute|].
  split; [by vm_compute|]. apply (bool_decide_unpack _). by vm_compute.
Qed.

(** C7, as the code has it: a run that discovers at least one candidate and
    whose output folder can be ensured always completes and logs the summary
    block, at info level, whatever happened to the single files: the
    heading, the four counters and, when a conversion succeeded, the line
    that names the output folder.  The block reaches the console when the
    threshold lets info messages pass, and it then ends the console output
    of the run when every child process could be started (after a failed
    start the 'close' event is handled late, and its handler may still log
    behind the block).  A run that discovers no candidate returns normally
    too, and logs no summary: the count of discovery and the warning are all
    that reaches the console. *)
Theorem summary_ends_every_nonempty_batch (lg : Logger.logger)
    (inputFolder coverArtPath outputFolder : string) (w : World)
    (listing : list string) :
  e_readdir (w_env w) inputFolder = inr listing →
  (List.filter is_mp3 listing ≠ [] →
   e_ensureDir (w_env w) outputFolder = None →
   ∃ (t : Tally) (w' : World),
     processFolder lg inputFolder coverArtPath outputFolder w = (Resolved (Some t), w')
     ∧ totalDiscovered t = Z.of_nat (length (List.filter is_mp3 listing))
     ∧ skipped t = totalDiscovered t - succeeded t - failed t
     ∧ (Logger.shouldLog lg "info" = true →
        ∃ before after n,
          w_stdout w'
          = before
              ++ console_lines (w_env w) "info" n
                   ([Logger.newline +:+ "=== Processing Summary ===";
                     "Total files: " +:+ pretty (totalDiscovered t);
                     "Successful: " +:+ pretty (succeeded t);
                     "Failed: " +:+ pretty (failed t);
                     "Skipped: " +:+ pretty (skipped t)]
                    ++ (if 0 <? succeeded t
                        then ["✓ All processed files saved to: " +:+ outputFolder]
                        else []))
              ++ after
          ∧ (starts_every_process (w_env w) → after = [])))
  ∧ (List.filter is_mp3 listing = [] →
     ∃ w' : World,
       processFolder lg inputFolder coverArtPath outputFolder w = (Resolved None, w')
       ∧ w_stdout w'
         = w_stdout w
             ++ (if Logger.shouldLog lg "info"
                 then [console_line "info" (e_clock (w_env w) (w_clock_reads w))
                         ("Found 0 MP3 files in " +:+ inputFolder)]
                 else [])
             ++ (if Logger.shouldLog lg "warn"
                 then [console_line "warn"
                         (e_clock (w_env w)
                            (if Logger.shouldLog lg "info"
                             then S (w_clock_reads w) else w_clock_reads w))
                         "No MP3 files found in the input folder"]
                 else [])).
Proof.
  intros Hdir. split.
  - intros Hsome Hmk. rewrite processFolder_run, Hdir. cbv zeta.
    assert (length (candidates inputFolder w) = length (List.filter is_mp3 listing))
      as Hlen.
    { unfold candidates. by rewrite Hdir, length_map. }
    assert ((length (candidates inputFolder w) =? 0)%nat = false) as ->.
    { rewrite Hlen. apply Nat.eqb_neq. by destruct (List.filter is_mp3 listing). }
    rewrite Hmk. eexists _, _. split; [reflexivity|].
    split; [unfold tally_of; cbn [totalDiscovered]; by rewrite Hlen|].
    split; [reflexivity|].
    intros Hinfo. rewrite logSummary_stdout by done.
    destruct (loop_grows lg coverArtPath outputFolder (candidates inputFolder w) (0, 0)
                (loop_start lg inputFolder outputFolder w)) as [He _].
    rewrite He.
    assert (w_env (loop_start lg inputFolder outputFolder w) = w_env w) as ->.
    { unfold loop_start. cbn [snd].
      destruct (log_only_logged lg "info"
                  ("Starting to process " +:+
                     pretty (Z.of_nat (length (candidates inputFolder w)))
                     +:+ " MP3 files...")
                  (Sys.ensureDir outputFolder (getMp3Files lg inputFolder w).2).2)
        as (E1 & _).
      unfold Logger.info. rewrite E1, ensureDir_run.
      destruct (getMp3Files_only_logged lg inputFolder w) as (E2 & _).
      rewrite E2, Hmk. cbn. exact E2. }
    eexists _, [], _. split; [|done]. rewrite app_nil_r. reflexivity.
  - intros Hnone.
    rewrite (empty_folder_run lg inputFolder coverArtPath outputFolder w listing)
      by done.
    eexists. split; [reflexivity|]. apply empty_folder_console.
Qed.

Lemma summary_ends_every_nonempty_batch_witness :
  ∃ (t : Tally) (w' : World),
    processFolder (sample_logger "info") "/music" "/cover.jpg" "/out"
      (world_of second_fails_env) = (Resolved (Some t), w')
    ∧ totalDiscovered t = 2.
Proof.
  destruct (summary_ends_every_nonempty_batch (sample_logger "info") "/music"
              "/cover.jpg" "/out" (world_of second_fails_env)
              ["a.mp3"; "b.MP3"; "c.wav"; "d.txt"] eq_refl) as [Hsome _].
  destruct Hsome as (t & w' & H & Ht & _).
  - by vm_compute.
  - reflexivity.
  - exists t, w'. split; [exact H|exact Ht].
Defined.

(** C7 as the specification words it fails: a run that finds no candidate is
    not fatal, yet no summary block is emitted; the console shows the count
    of discovery and the warning, nothing else. *)
Lemma no_summary_when_nothing_found :
  empty_run.1 = Resolved None
  ∧ Logger.shouldLog (sample_logger "info") "info" = true
  ∧ w_stdout empty_run.2
    = [console_line "info" "2024-05-06T07:08:09.0Z" "Found 0 MP3 files in /empty";
       console_line "warn" "2024-05-06T07:08:09.1Z"
         "No MP3 files found in the input folder"]
  ∧ List.forallb (λ line, negb (JsString.includes "Processing Summary" line))
      (w_stdout empty_run.2) = true.
Proof. split_and!; by vm_compute. Qed.

Lemma filter_Permutation_bool {A} (f : A → bool) (l l' : list A) :
  l ≡ₚ l' → List.filter f l ≡ₚ List.filter f l'.
Proof.
  induction 1 as [|x l l' _ IH|x y l|l1 l2 l3 _ IH1 _ IH2]; cbn [List.filter].
  - done.
  - destruct (f x); by rewrite IH.
  - destruct (f x), (f y); try done. apply perm_swap.
  - by etrans.
Qed.

Lemma entry_name_a : entry_name "a.mp3".
Proof. by repeat split. Qed.

Lemma entry_name_b : entry_name "b.MP3".
Proof. by repeat split. Qed.

(** C5: discovery keeps the entries of the folder whose extension is [.mp3]
    in any letter case, and nothing else: for a folder that holds a.mp3,
    b.MP3, c.wav and d.txt, listed in any order, the candidates are the two
    files a.mp3 and b.MP3 of that folder, each exactly once. *)
Theorem discovery_keeps_exactly_the_mp3_entries (lg : Logger.logger)
    (folderPath : string) (w : World) (listing : list string) :
  e_readdir (w_env w) folderPath = inr listing →
  listing ≡ₚ ["a.mp3"; "b.MP3"; "c.wav"; "d.txt"] →
  ∃ (files : list string) (w' : World),
    getMp3Files lg folderPath w = (Resolved files, w')
    ∧ files ≡ₚ [Path.join folderPath "a.mp3"; Path.join folderPath "b.MP3"]
    ∧ List.map Path.basename files ≡ₚ ["a.mp3"; "b.MP3"]
    ∧ length files = 2%nat
    ∧ NoDup files.
Proof.
  intros Hdir Hperm. rewrite getMp3Files_run, Hdir. eexists _, _.
  split; [reflexivity|].
  assert (candidates folderPath w
          ≡ₚ [Path.join folderPath "a.mp3"; Path.join folderPath "b.MP3"]) as Hc.
  { unfold candidates. rewrite Hdir.
    change [Path.join folderPath "a.mp3"; Path.join folderPath "b.MP3"]
      with (List.map (Path.join folderPath)
              (List.filter is_mp3 ["a.mp3"; "b.MP3"; "c.wav"; "d.txt"])).
    apply Permutation_map, filter_Permutation_bool, Hperm. }
  split; [exact Hc|]. split.
  { etrans; [apply Permutation_map, Hc|]. cbn [List.map].
    by rewrite !basename_join by (apply entry_name_a || apply entry_name_b). }
  split; [by rewrite Hc|]. rewrite Hc.
  apply NoDup_cons. split; [|apply NoDup_singleton].
  intros Hin%list_elem_of_singleton.
  by apply join_inj in Hin; [|apply entry_name_a|apply entry_name_b].
Qed.

Lemma discovery_keeps_exactly_the_mp3_entries_witness :
  ∃ (files : list string) (w' : World),
    getMp3Files (sample_logger "info") "/music" (world_of sample_env)
    = (Resolved files, w')
    ∧ length files = 2%nat.
Proof.
  destruct (discovery_keeps_exactly_the_mp3_entries (sample_logger "info") "/music"
              (world_of sample_env) ["a.mp3"; "b.MP3"; "c.wav"; "d.txt"]
              eq_refl (Permutation_refl _)) as (files & w' & H & _ & _ & Hlen & _).
  by exists files, w'.
Defined.

Section RerunFacts.
Variable lg : Logger.logger.

Lemma candidates_env inF w w' :
  w_env w' = w_env w → candidates inF w' = candidates inF w.
Proof. intros He. unfold candidates. by rewrite He. Qed.

Lemma evolved_known x w w' :
  evolved lg {[ x ]} [] w w' → x ∈ w_paths w → only_logged lg w w'.
Proof.
  intros (He & Hs & Hp & Hq) Hx. split_and!; try done.
  intros y Hy. apply Hq in Hy. rewrite !elem_of_union in *.
  destruct Hy as [[Hy|Hy]|Hy]; [tauto| |tauto].
  apply elem_of_singleton in Hy as ->. tauto.
Qed.


(** From the call of [processFolder] to the start of its loop: logging,
    and the output folder made to exist. *)
Lemma loop_start_evolved inF out w :
  e_ensureDir (w_env w) out = None →
  evolved lg {[ out ]} [] w (loop_start lg inF out w)
  ∧ out ∈ w_paths (loop_start lg inF out w).
Proof.
  intros Hmk. unfold loop_start. cbn [snd].
  pose proof (getMp3Files_only_logged lg inF w) as H1.
  set (w1 := (getMp3Files lg inF w).2) in *.
  assert (w_env w1 = w_env w) as He by apply H1.
  rewrite ensureDir_run, He, Hmk. cbn [snd]. split.
  - eapply evolved_after_log; [exact H1|].
    eapply evolved_then_log; [apply create_evolved|apply log_only_logged].
  - eapply only_logged_paths; [apply log_only_logged|].
    unfold Sys.create. cbn. apply elem_of_union_l. by apply elem_of_singleton.
Qed.
End RerunFacts.

Section AttemptFacts.
Variable lg : Logger.logger.
Variables cover out : string.

Lemma outcome_attempted e : outcome e = Converted ∨ outcome e = Failed.
Proof. destruct e as [[[| |]|]|]; cbn; tauto. Qed.

(** The candidates that a loop converts: those whose destination is
    missing at their turn.  They are the child processes it starts, and
    their destinations are the only files it creates. *)
Lemma loop_attempts files counts w :
  ∃ fs,
    fs `sublist_of` files
    ∧ w_env (loop lg cover out files counts w).2 = w_env w
    ∧ w_spawned (loop lg cover out files counts w).2
      = w_spawned w ++ List.map (conversion cover out) fs
    ∧ Forall (λ f, destination out f ∉ w_paths w) fs
    ∧ w_paths w ⊆ w_paths (loop lg cover out files counts w).2
    ∧ w_paths (loop lg cover out files counts w).2
      ⊆ {[ Logger.logFile lg ]} ∪ list_to_set (List.map (destination out) fs)
          ∪ w_paths w
    ∧ (∀ f, f ∈ files → destination out f ∉ w_paths w →
            destination out f ≠ Logger.logFile lg →
            ∃ g, g ∈ fs ∧ destination out g = destination out f)
    ∧ Z.of_nat (length fs)
      = count Converted (history lg cover out files w)
        + count Failed (history lg cover out files w).
Proof.
  revert counts w. induction files as [|f rest IH]; intros [s fl] w.
  { exists []. cbn [loop ret snd List.map history]. rewrite app_nil_r.
    split_and!; try done.
    - apply union_subseteq_r.
    - intros f Hf. by apply elem_of_nil in Hf. }
  cbn [loop history]. rewrite bind_run.
  rewrite (iteration_world lg cover out f (0, 0) (s, fl)).
  pose proof (iteration_spec lg cover out f s fl w) as Hit. cbv zeta in Hit.
  destruct Hit as [_ Hit].
  destruct (IH (iteration lg cover out f (s, fl) w).1
              (iteration lg cover out f (s, fl) w).2)
    as (fs & Hsub & He & Hs & Hfs & Hp & Hq & Hall & Hn).
  set (w1 := (iteration lg cover out f (s, fl) w).2) in *.
  rewrite !count_cons.
  destruct (decide (destination out f ∈ w_paths w)) as [Hin|Hin].
  - (* skipped *)
    assert (verdict w cover out f = Skipped) as Hv by (by apply verdict_skipped).
    rewrite Hv in Hit |- *. destruct Hit as (He1 & Hs1 & Hp1 & Hq1).
    rewrite app_nil_r in Hs1.
    assert (w_paths w1 ⊆ {[ Logger.logFile lg ]} ∪ w_paths w) as Hq1'.
    { intros x Hx. apply Hq1 in Hx. rewrite !elem_of_union in *.
      destruct Hx as [[Hx|Hx]|Hx]; [tauto| |tauto]. by apply elem_of_empty in Hx. }
    exists fs. split_and!.
    + by apply sublist_cons.
    + by rewrite He.
    + by rewrite Hs, Hs1.
    + eapply Forall_impl; [exact Hfs|]. intros g Hg Hg'. by apply Hg, Hp1.
    + intros x Hx. by apply Hp, Hp1.
    + intros x Hx. apply Hq in Hx. rewrite !elem_of_union in *.
      destruct Hx as [[Hx|Hx]|Hx]; [tauto|tauto|].
      apply Hq1' in Hx. rewrite elem_of_union in Hx. tauto.
    + intros h Hh Hfresh Hlog. apply elem_of_cons in Hh as [->|Hh]; [done|].
      apply Hall; [done| |done]. intros Hin1. apply Hq1' in Hin1.
      rewrite elem_of_union, elem_of_singleton in Hin1. tauto.
    + repeat case_bool_decide; try done; lia.
  - (* attempted *)
    assert (verdict w cover out f = outcome (next_ending w cover out f)) as Hv
      by (by apply verdict_fresh).
    assert (evolved lg
              (if pr_wrote (e_spawn (w_env w) (length (w_spawned w)) "ffmpeg"
                              (ffmpegArgs f cover (destination out f)))
               then {[ destination out f ]} else ∅)
              [conversion cover out f] w w1) as (He1 & Hs1 & Hp1 & Hq1).
    { rewrite Hv in Hit.
      destruct (outcome_attempted (next_ending w cover out f)) as [Ho|Ho];
        rewrite Ho in Hit; apply Hit. }
    assert (w_paths w1
            ⊆ {[ Logger.logFile lg ]} ∪ {[ destination out f ]} ∪ w_paths w) as Hq1'.
    { intros x Hx. apply Hq1 in Hx. rewrite !elem_of_union in *.
      destruct Hx as [[Hx|Hx]|Hx]; [tauto| |tauto].
      destruct (pr_wrote _); [tauto|by apply elem_of_empty in Hx]. }
    exists (f :: fs). split_and!.
    + by apply sublist_skip.
    + by rewrite He.
    + rewrite Hs, Hs1. cbn [List.map]. by rewrite <- app_assoc.
    + constructor; [done|].
      eapply Forall_impl; [exact Hfs|]. intros g Hg Hg'. by apply Hg, Hp1.
    + intros x Hx. by apply Hp, Hp1.
    + intros x Hx. apply Hq in Hx. cbn [List.map list_to_set].
      rewrite !elem_of_union in *.
      destruct Hx as [[Hx|Hx]|Hx]; [tauto|tauto|].
      apply Hq1' in Hx. rewrite !elem_of_union in Hx. tauto.
    + intros h Hh Hfresh Hlog.
      destruct (decide (destination out h = destination out f)) as [Heq|Hne].
      { exists f. split; [by left|done]. }
      apply elem_of_cons in Hh as [->|Hh]; [done|].
      destruct (Hall h) as (g & Hg & Hgd); [done| |done|].
      * intros Hin1. apply Hq1' in Hin1.
        rewrite !elem_of_union, !elem_of_singleton in Hin1. tauto.
      * exists g. split; [by right|done].
    + rewrite Hv. cbn [length].
      destruct (outcome_attempted (next_ending w cover out f)) as [Ho|Ho];
        rewrite Ho; repeat case_bool_decide; try done; lia.
Qed.

(** The same for a whole call of [processFolder] that returns. *)
Lemma processFolder_attempts inF w r w' :
  processFolder lg inF cover out w = (Resolved r, w') →
  ∃ fs,
    fs `sublist_of` candidates inF w
    ∧ w_env w' = w_env w
    ∧ w_spawned w' = w_spawned w ++ List.map (conversion cover out) fs
    ∧ Forall (λ f, destination out f ∉ w_paths w) fs
    ∧ w_paths w ⊆ w_paths w'
    ∧ w_paths w'
      ⊆ {[ Logger.logFile lg ]} ∪ (match r with Some _ => {[ out ]} | None => ∅ end)
          ∪ list_to_set (List.map (destination out) fs) ∪ w_paths w
    ∧ (∀ f, f ∈ candidates inF w → destination out f ∉ w_paths w →
            destination out f ≠ Logger.logFile lg →
            destination out f ≠ out →
            ∃ g, g ∈ fs ∧ destination out g = destination out f)
    ∧ (r = None → candidates inF w = [])
    ∧ ∀ t, r = Some t →
        e_ensureDir (w_env w) out = None
        ∧ out ∈ w_paths w'
        ∧ totalDiscovered t = Z.of_nat (length (candidates inF w))
        ∧ succeeded t + failed t = Z.of_nat (length fs)
        ∧ 0 ≤ succeeded t ∧ 0 ≤ failed t
        ∧ skipped t = totalDiscovered t - Z.of_nat (length fs)
        ∧ (writes_on_success (w_env w) → failed t = 0 →
           ∀ f, f ∈ candidates inF w → destination out f ∈ w_paths w').
Proof.
  intros Hrun. rewrite processFolder_run in Hrun.
  destruct (e_readdir (w_env w) inF) as [|listing] eqn:Hdir; [done|].
  cbv zeta in Hrun. set (files := candidates inF w) in *.
  destruct (length files =? 0)%nat eqn:Hlen.
  - injection Hrun as <- <-.
    assert (only_logged lg w
              (Logger.warn lg "No MP3 files found in the input folder"
                 (getMp3Files lg inF w).2).2) as (He & Hs & Hp & Hq).
    { eapply only_logged_trans; [apply getMp3Files_only_logged|apply log_only_logged]. }
    apply Nat.eqb_eq in Hlen. apply nil_length_inv in Hlen.
    exists []. rewrite Hlen. cbn [List.map list_to_set]. split_and!; try done.
    + intros x Hx. apply Hq in Hx. rewrite !elem_of_union in *. tauto.
    + intros f Hf. by apply elem_of_nil in Hf.
  - destruct (e_ensureDir (w_env w) out) eqn:Hmk; [done|].
    injection Hrun as <- <-.
    set (v0 := loop_start lg inF out w) in *.
    destruct (loop_start_evolved lg inF out w Hmk) as [(He0 & Hs0 & Hp0 & Hq0) Hmade].
    fold v0 in He0, Hs0, Hp0, Hq0, Hmade. rewrite app_nil_r in Hs0.
    destruct (loop_attempts files (0, 0) v0)
      as (fs & Hsub & He & Hs & Hfs & Hp & Hq & Hall & Hn).
    pose proof (loop_counts lg cover out files 0 0 v0) as Hc.
    set (end1 := loop lg cover out files (0, 0) v0) in *.
    destruct (logSummary_only_logged lg out (tally_of files end1.1) end1.2)
      as (He2 & Hs2 & Hp2 & Hq2).
    rewrite app_nil_r in Hs2.
    set (wend := (logSummary lg out (tally_of files end1.1) end1.2).2) in *.
    exists fs. split_and!; try done.
    + by rewrite He2, He.
    + by rewrite Hs2, Hs, Hs0.
    + eapply Forall_impl; [exact Hfs|]. intros g Hg Hg'. by apply Hg, Hp0.
    + intros x Hx. by apply Hp2, Hp, Hp0.
    + intros x Hx. apply Hq2 in Hx. rewrite !elem_of_union in *.
      destruct Hx as [[Hx|Hx]|Hx]; [tauto|by apply elem_of_empty in Hx|].
      apply Hq in Hx. rewrite !elem_of_union in Hx.
      destruct Hx as [[Hx|Hx]|Hx]; [tauto|tauto|].
      apply Hq0 in Hx. rewrite !elem_of_union in Hx. tauto.
    + intros f Hf Hfresh Hlog Hnot. apply Hall; [done| |done].
      intros Hin. apply Hq0 in Hin. rewrite !elem_of_union, !elem_of_singleton in Hin.
      tauto.
    + intros t [= <-]. unfold tally_of. rewrite Hc.
      cbn [totalDiscovered succeeded failed skipped fst snd].
      pose proof (count_nonneg Converted (history lg cover out files v0)).
      pose proof (count_nonneg Failed (history lg cover out files v0)).
      split_and!; try done; try lia.
      * by apply Hp2, Hp.
      * intros Hcontract Hclean f Hf. apply Hp2.
        apply loop_leaves_present; [by rewrite He0| |done]. lia.
Qed.

(** A call made in a world with the same environment as one that returned
    returns too, with a tally for the same number of candidates. *)
Lemma processFolder_returns_again inF w r w' w0 :
  processFolder lg inF cover out w = (Resolved r, w') →
  w_env w0 = w_env w →
  ∃ r0 w0',
    processFolder lg inF cover out w0 = (Resolved r0, w0')
    ∧ (r = None → r0 = None)
    ∧ ∀ t, r = Some t →
        ∃ t0, r0 = Some t0 ∧ totalDiscovered t0 = totalDiscovered t.
Proof.
  intros Hrun He. rewrite processFolder_run in Hrun. rewrite processFolder_run.
  rewrite He, (candidates_env inF w w0 He).
  destruct (e_readdir (w_env w) inF) as [|listing]; [done|].
  cbv zeta in Hrun. cbv zeta.
  destruct (length (candidates inF w) =? 0)%nat.
  - injection Hrun as <- _. eexists _, _. split; [reflexivity|]. by split.
  - destruct (e_ensureDir (w_env w) out); [done|].
    injection Hrun as <- _. eexists _, _. split; [reflexivity|]. split; [done|].
    intros t [= <-]. eexists. split; [reflexivity|]. reflexivity.
Qed.
End AttemptFacts.

(** C2, as the code has it: the skip test is the existence of the
    destination, nothing else.  A second run with the same inputs over the
    world the first one left starts the converter only for candidates whose
    destination does not exist then, so no file that is there is converted
    again or overwritten; and it does start it for every destination that is
    missing (at least once for each, the log file apart).  When the converter
    writes its output whenever it exits with code 0 and the first run had no
    failed conversion, nothing is missing: the second run starts no child
    process, creates no file besides the log, and reports succeeded = 0,
    failed = 0 and skipped = total. *)
Theorem rerun_attempts_only_what_is_missing (lg : Logger.logger)
    (inputFolder coverArtPath outputFolder : string) (w w1 : World)
    (r1 : option Tally) :
  processFolder lg inputFolder coverArtPath outputFolder w = (Resolved r1, w1) →
  ∃ (r2 : option Tally) (w2 : World) (attempted : list string),
    processFolder lg inputFolder coverArtPath outputFolder w1 = (Resolved r2, w2)
    ∧ attempted `sublist_of` candidates inputFolder w
    ∧ w_spawned w2
      = w_spawned w1 ++ List.map (conversion coverArtPath outputFolder) attempted
    ∧ Forall (λ f, destination outputFolder f ∉ w_paths w1) attempted
    ∧ (∀ f, f ∈ candidates inputFolder w →
            destination outputFolder f ∉ w_paths w1 →
            destination outputFolder f ≠ Logger.logFile lg →
            ∃ g, g ∈ attempted
                 ∧ destination outputFolder g = destination outputFolder f)
    ∧ (r1 = None → r2 = None)
    ∧ (∀ t1, r1 = Some t1 →
         ∃ t2, r2 = Some t2
               ∧ totalDiscovered t2 = totalDiscovered t1
               ∧ succeeded t2 + failed t2 = Z.of_nat (length attempted)
               ∧ skipped t2 = totalDiscovered t2 - Z.of_nat (length attempted))
    ∧ (writes_on_success (w_env w) →
       (∀ t1, r1 = Some t1 → failed t1 = 0) →
       attempted = []
       ∧ w_spawned w2 = w_spawned w1
       ∧ w_paths w2 ⊆ {[ Logger.logFile lg ]} ∪ w_paths w1
       ∧ ∀ t1, r1 = Some t1 →
           ∃ t2, r2 = Some t2
                 ∧ totalDiscovered t2 = totalDiscovered t1
                 ∧ succeeded t2 = 0
                 ∧ failed t2 = 0
                 ∧ skipped t2 = totalDiscovered t2).
Proof.
  intros Hrun.
  destruct (processFolder_attempts lg coverArtPath outputFolder inputFolder w r1 w1 Hrun)
    as (fs1 & _ & He1 & _ & _ & Hp1 & _ & _ & Hnone1 & Hsome1).
  destruct (processFolder_returns_again lg coverArtPath outputFolder inputFolder
              w r1 w1 w1 Hrun He1) as (r2 & w2 & Hrun2 & Hnone & Hsome).
  destruct (processFolder_attempts lg coverArtPath outputFolder inputFolder w1 r2 w2 Hrun2)
    as (fs & Hsub & He2 & Hs2 & Hfs & Hp2 & Hq2 & Hall & Hnone2 & Hsome2).
  rewrite (candidates_env inputFolder w w1 He1) in Hsub, Hall, Hnone2, Hsome2.
  (* what the first run made is still there *)
  assert (∀ t1, r1 = Some t1 → outputFolder ∈ w_paths w1) as Hmade.
  { intros t1 Ht1. by destruct (Hsome1 t1 Ht1) as (_ & H & _). }
  exists r2, w2, fs. split; [exact Hrun2|]. split; [exact Hsub|].
  split; [exact Hs2|]. split; [exact Hfs|]. split.
  { intros f Hf Hfresh Hlog. apply Hall; try done.
    destruct r1 as [t1|].
    - intros Heq. apply Hfresh. rewrite Heq. by apply (Hmade t1).
    - rewrite Hnone1 in Hf by done. by apply elem_of_nil in Hf. }
  split; [exact Hnone|]. split.
  { intros t1 Ht1. destruct (Hsome t1 Ht1) as (t2 & Ht2 & Htot).
    exists t2. destruct (Hsome2 t2 Ht2) as (_ & _ & _ & Hsum & _ & _ & Hsk & _).
    by split_and!. }
  intros Hcontract Hclean.
  assert (fs = []) as Hfs0.
  { destruct r1 as [t1|].
    - destruct (Hsome1 t1 eq_refl) as (_ & _ & _ & _ & _ & _ & _ & Hleft).
      destruct fs as [|f fs']; [done|]. exfalso.
      apply Forall_cons in Hfs as [Hfresh _]. apply Hfresh, Hleft; try done.
      + by apply Hclean.
      + apply (sublist_subseteq _ _ Hsub). by left.
    - rewrite Hnone1 in Hsub by done. by apply sublist_nil_r in Hsub. }
  subst fs. cbn [List.map list_to_set length] in *. rewrite app_nil_r in Hs2.
  split; [done|]. split; [exact Hs2|]. split.
  { intros x Hx. apply Hq2 in Hx. rewrite !elem_of_union in *.
    destruct Hx as [[[Hx|Hx]|Hx]|Hx]; [tauto| |by apply elem_of_empty in Hx|tauto].
    destruct r2 as [t2|]; [|by apply elem_of_empty in Hx].
    destruct r1 as [t1|]; [|by specialize (Hnone eq_refl)].
    apply elem_of_singleton in Hx as ->. right. by apply (Hmade t1). }
  intros t1 Ht1. destruct (Hsome t1 Ht1) as (t2 & Ht2 & Htot).
  exists t2. destruct (Hsome2 t2 Ht2) as (_ & _ & _ & Hsum & H0 & H1 & Hsk & _).
  split_and!; try done; lia.
Qed.

Lemma rerun_attempts_only_what_is_missing_witness :
  ∃ (r2 : option Tally) (w2 : World),
    processFolder (sample_logger "info") "/music" "/cover.jpg" "/out" clean_first_run.2
    = (Resolved r2, w2)
    ∧ w_spawned w2 = w_spawned clean_first_run.2.
Proof.
  destruct (rerun_attempts_only_what_is_missing (sample_logger "info") "/music"
              "/cover.jpg" "/out" (world_of sample_env) clean_first_run.2
              (Some {| totalDiscovered := 2; succeeded := 2; failed := 0; skipped := 0 |}))
    as (r2 & w2 & attempted & H & _ & _ & _ & _ & _ & _ & Hclean).
  - by vm_compute.
  - destruct Hclean as (_ & Hs & _).
    + intros n command args _. reflexivity.
    + intros t1 [= <-]. reflexivity.
    + exists r2, w2. split; [exact H|exact Hs].
Defined.

(** C2 as the specification words it fails: the first run's only conversion
    exits with code 1 and leaves no output; the second run, over the
    untouched output folder, starts the converter again and reports
    succeeded = 1 and skipped = 0 for its one candidate. *)
Lemma rerun_converts_what_failed_before :
  flaky_first_run.1
  = Resolved (Some {| totalDiscovered := 1; succeeded := 0; failed := 1; skipped := 0 |})
  ∧ flaky_second_run.1
    = Resolved (Some {| totalDiscovered := 1; succeeded := 1; failed := 0; skipped := 0 |})
  ∧ length (w_spawned flaky_first_run.2) = 1%nat
  ∧ length (w_spawned flaky_second_run.2) = 2%nat.
Proof. split_and!; by vm_compute. Qed.

Section FreshBatch.
Variable lg : Logger.logger.
Variables cover out : string.

Lemma outcome_failed e : e ≠ Close (Some 0) → outcome e = Failed.
Proof. by destruct e as [[[| |]|]|]. Qed.

(** When no destination exists and no two candidates share one, nothing is
    skipped: the i-th candidate gets the outcome of the i-th child process
    started from here. *)
Lemma history_fresh files w :
  NoDup (List.map (destination out) files) →
  (∀ f, f ∈ files →
        (destination out f ∉ w_paths w)
        ∧ (destination out f ≠ Logger.logFile lg)) →
  history lg cover out files w
  = imap (λ i f,
            outcome (pr_ending
                       (e_spawn (w_env w) (length (w_spawned w) + i) "ffmpeg"
                          (ffmpegArgs f cover (destination out f)))))
      files.
Proof.
  revert w. induction files as [|f rest IH]; intros w Hnd Hfresh; [done|].
  cbn [List.map] in Hnd. apply NoDup_cons in Hnd as [Hf Hnd].
  destruct (Hfresh f) as [Hnew Hlog]; [apply list_elem_of_here|].
  cbn [history imap]. f_equal.
  { rewrite verdict_fresh by done. unfold next_ending. by rewrite Nat.add_0_r. }
  destruct (iteration_spec lg cover out f 0 0 w) as [_ Hw].
  rewrite verdict_fresh in Hw by done.
  set (w' := (iteration lg cover out f (0, 0) w).2) in *.
  assert (evolved lg
            (if pr_wrote (e_spawn (w_env w) (length (w_spawned w)) "ffmpeg"
                            (ffmpegArgs f cover (destination out f)))
             then {[ destination out f ]} else ∅)
            [("ffmpeg", ffmpegArgs f cover (destination out f))] w w')
    as (He & Hs & _ & Hq).
  { unfold outcome in Hw.
    by destruct (next_ending _ _ _ _) as [[[| |]|]|]; destruct Hw. }
  rewrite IH; [|done|].
  - apply imap_ext. intros i g _. cbn. rewrite He, Hs, length_app. cbn [length].
    do 3 f_equal. lia.
  - intros g Hg. destruct (Hfresh g) as [Hgnew Hglog]; [by apply list_elem_of_further|].
    split; [|done]. intros Hin. apply Hq in Hin. rewrite !elem_of_union in Hin.
    destruct Hin as [[Hin|Hin]|Hin]; [|destruct (pr_wrote _)|done].
    + by apply elem_of_singleton in Hin.
    + apply elem_of_singleton in Hin. apply Hf. rewrite <- Hin.
      apply list_elem_of_In, in_map, list_elem_of_In, Hg.
    + by apply elem_of_empty in Hin.
Qed.
End FreshBatch.

Section Attempts.
Variable lg : Logger.logger.
Variables cover out : string.

(** Every candidate that is not skipped starts one child process. *)
Lemma loop_spawned files c w :
  Z.of_nat (length (w_spawned (loop lg cover out files c w).2))
  = Z.of_nat (length (w_spawned w))
    + count Converted (history lg cover out files w)
    + count Failed (history lg cover out files w).
Proof.
  revert c w. induction files as [|f rest IH]; intros [s fl] w.
  - cbn [loop history ret snd]. unfold count. cbn [List.filter length]. lia.
  - cbn [loop history]. rewrite bind_run, IH.
    rewrite (iteration_world lg cover out f (0, 0) (s, fl)), !count_cons.
    destruct (iteration_spec lg cover out f s fl w) as [_ Hw].
    destruct (verdict w cover out f);
      [destruct Hw as (_ & Hs & _)|destruct Hw as [(_ & Hs & _) _]..];
      rewrite Hs, length_app; cbn [length];
      repeat case_bool_decide; try done; lia.
Qed.
End Attempts.

(** C3: a failed conversion does not stop the batch.  For three candidates
    none of whose destinations exists, when the first and the third child
    process close with code 0 and the second does not (another code, a
    signal, or a failure to start), all three conversions are attempted and
    the tally is total 3, succeeded 2, failed 1, skipped 0.  The candidates
    are three distinct directory entries, and the logger does not keep its
    log in one of the destinations. *)
Theorem one_failure_does_not_stop_the_batch (lg : Logger.logger)
    (inputFolder coverArtPath outputFolder : string) (w : World)
    (listing : list string) (f1 f2 f3 : string) :
  e_readdir (w_env w) inputFolder = inr listing →
  List.filter is_mp3 listing = [f1; f2; f3] →
  NoDup [f1; f2; f3] →
  Forall entry_name [f1; f2; f3] →
  e_ensureDir (w_env w) outputFolder = None →
  (∀ f, f ∈ [f1; f2; f3] →
        (Path.join outputFolder f ∉ w_paths w)
        ∧ (Path.join outputFolder f ≠ Logger.logFile lg)) →
  (∀ args, pr_ending (e_spawn (w_env w) (length (w_spawned w)) "ffmpeg" args)
           = Close (Some 0)) →
  (∀ args, pr_ending (e_spawn (w_env w) (length (w_spawned w) + 1) "ffmpeg" args)
           ≠ Close (Some 0)) →
  (∀ args, pr_ending (e_spawn (w_env w) (length (w_spawned w) + 2) "ffmpeg" args)
           = Close (Some 0)) →
  ∃ w' : World,
    processFolder lg inputFolder coverArtPath outputFolder w
    = (Resolved (Some {| totalDiscovered := 3; succeeded := 2;
                         failed := 1; skipped := 0 |}), w')
    ∧ length (w_spawned w') = (length (w_spawned w) + 3)%nat.
Proof.
  intros Hdir Hmp3 Hnd Hnames Hmk Hfresh Hfirst Hsecond Hthird.
  apply Forall_cons in Hnames as [Hn1 Hnames].
  apply Forall_cons in Hnames as [Hn2 Hnames].
  apply Forall_cons in Hnames as [Hn3 _].
  assert (candidates inputFolder w
          = [Path.join inputFolder f1; Path.join inputFolder f2;
             Path.join inputFolder f3]) as Hfiles.
  { unfold candidates. by rewrite Hdir, Hmp3. }
  assert (List.map (destination outputFolder) (candidates inputFolder w)
          = [Path.join outputFolder f1; Path.join outputFolder f2;
             Path.join outputFolder f3]) as Hdests.
  { rewrite Hfiles. unfold destination. cbn [List.map].
    by rewrite !basename_join. }
  destruct (loop_start_evolved lg inputFolder outputFolder w Hmk)
    as [(He & Hs & _ & Hq) _].
  set (v0 := loop_start lg inputFolder outputFolder w) in *.
  rewrite app_nil_r in Hs.
  assert (history lg coverArtPath outputFolder (candidates inputFolder w) v0
          = [Converted; Failed; Converted]) as Hh.
  { rewrite history_fresh.
    - rewrite Hfiles. cbn [imap]. unfold compose. rewrite He, Hs, Nat.add_0_r.
      by rewrite Hfirst, Hthird, (outcome_failed _ (Hsecond _)).
    - rewrite Hdests.
      apply NoDup_cons in Hnd as [Hx1 Hnd]. apply NoDup_cons in Hnd as [Hx2 _].
      apply not_elem_of_cons in Hx1 as [H12 Hx1].
      apply not_elem_of_cons in Hx1 as [H13 _].
      apply not_elem_of_cons in Hx2 as [H23 _].
      repeat (apply NoDup_cons; split); [| |apply not_elem_of_nil|apply NoDup_nil_2].
      + intros Hin. apply elem_of_cons in Hin as [Hin|Hin];
          [by apply join_inj in Hin|].
        apply list_elem_of_singleton in Hin. by apply join_inj in Hin.
      + intros Hin%list_elem_of_singleton. by apply join_inj in Hin.
    - intros f Hf.
      assert (destination outputFolder f
              ∈ List.map (destination outputFolder) (candidates inputFolder w)) as Hd.
      { apply list_elem_of_In, in_map, list_elem_of_In, Hf. }
      rewrite Hdests in Hd.
      assert (∃ g, g ∈ [f1; f2; f3] ∧ entry_name g
                   ∧ destination outputFolder f = Path.join outputFolder g)
        as (g & Hg & Hgn & ->).
      { rewrite !elem_of_cons in Hd. destruct Hd as [Hd|[Hd|[Hd|Hd]]].
        - exists f1. split_and!; [apply list_elem_of_here|done|done].
        - exists f2. split_and!; [|done|done].
          apply list_elem_of_further, list_elem_of_here.
        - exists f3. split_and!; [|done|done].
          do 2 apply list_elem_of_further. apply list_elem_of_here.
        - by apply elem_of_nil in Hd. }
      destruct (Hfresh g Hg) as [Hnew Hlog]. split; [|done].
      intros Hin. apply Hq in Hin. rewrite !elem_of_union in Hin.
      destruct Hin as [[Hin|Hin]|Hin]; [| |done].
      + by apply elem_of_singleton in Hin.
      + apply elem_of_singleton in Hin. by apply join_ne_folder in Hin. }
  rewrite processFolder_run, Hdir. cbv zeta. fold v0.
  assert ((length (candidates inputFolder w) =? 0)%nat = false) as ->
      by (by rewrite Hfiles).
  rewrite Hmk. eexists. split.
  - f_equal. f_equal. f_equal. unfold tally_of. rewrite loop_counts, Hh, Hfiles.
    reflexivity.
  - apply Nat2Z.inj.
    destruct (logSummary_only_logged lg outputFolder
                (tally_of (candidates inputFolder w)
                   (loop lg coverArtPath outputFolder (candidates inputFolder w)
                      (0, 0) v0).1)
                (loop lg coverArtPath outputFolder (candidates inputFolder w)
                   (0, 0) v0).2) as (_ & Hs' & _).
    cbn [snd]. rewrite Hs', app_nil_r, loop_spawned, Hh, Hs.
    change (count Converted [Converted; Failed; Converted]) with 2.
    change (count Failed [Converted; Failed; Converted]) with 1. lia.
Qed.

Lemma one_failure_does_not_stop_the_batch_witness :
  ∃ w' : World,
    processFolder (sample_logger "info") "/three" "/cover.jpg" "/out"
      (world_of second_fails_env)
    = (Resolved (Some {| totalDiscovered := 3; succeeded := 2;
                         failed := 1; skipped := 0 |}), w').
Proof.
  destruct (one_failure_does_not_stop_the_batch (sample_logger "info") "/three"
              "/cover.jpg" "/out" (world_of second_fails_env)
              ["one.mp3"; "cover.jpg"; "two.mp3"; "three.mp3"]
              "one.mp3" "two.mp3" "three.mp3") as (w' & H & _).
  - reflexivity.
  - reflexivity.
  - apply (bool_decide_unpack _). by vm_compute.
  - repeat constructor; by vm_compute.
  - reflexivity.
  - intros f Hf. split.
    + apply not_elem_of_empty.
    + repeat (apply elem_of_cons in Hf as [->|Hf]; [by vm_compute|]).
      by apply elem_of_nil in Hf.
  - reflexivity.
  - intros args. by vm_compute.
  - reflexivity.
  - by exists w'.
Defined.

(** ** Further properties of the logger *)

Lemma ge_undefined_l b : Logger.ge Logger.JsUndefined b = false.
Proof. by destruct b. Qed.

Lemma ge_undefined_r a : Logger.ge a Logger.JsUndefined = false.
Proof. by destruct a. Qed.

Lemma recognized_rank level :
  level ∈ recognized → ∃ x, Logger.toNumber (Logger.logLevels level) = Some x ∧ 0 ≤ x ≤ 3.
Proof.
  intros H. unfold recognized in H. rewrite !elem_of_cons in H.
  destruct H as [->|[->|[->|[->|H]]]]; [| | | |by apply elem_of_nil in H];
    eexists; (split; [reflexivity|lia]).
Qed.

Lemma rank_recognized level x :
  Logger.toNumber (Logger.logLevels level) = Some x → level ∈ recognized.
Proof.
  intros H. destruct (decide (level ∈ recognized)) as [|Hn]; [done|].
  by rewrite (unknown_rank level Hn) in H.
Qed.

(** What [logLevels] gives for a name without a rank. *)
Lemma logLevels_unranked key :
  key ∉ recognized →
  Logger.logLevels key
  = (if bool_decide (key ∈ Logger.object_prototype_keys)
     then Logger.JsInherited (Logger.prototype_text key)
     else Logger.JsUndefined).
Proof.
  intros H. unfold Logger.logLevels.
  destruct (String.eqb_spec key "debug") as [->|_];
    [exfalso; apply H, recognized_debug|].
  destruct (String.eqb_spec key "info") as [->|_];
    [exfalso; apply H, recognized_info|].
  destruct (String.eqb_spec key "warn") as [->|_];
    [exfalso; apply H, recognized_warn|].
  destruct (String.eqb_spec key "error") as [->|_];
    [exfalso; apply H, recognized_error|].
  reflexivity.
Qed.

(** A level passes the filter only when both names have a rank, or both
    are names of members of [Object.prototype]. *)
Lemma shouldLog_passes lg level :
  Logger.shouldLog lg level = true →
  (level ∈ recognized ∧ Logger.logLevel lg ∈ recognized)
  ∨ (level ∈ Logger.object_prototype_keys
     ∧ Logger.logLevel lg ∈ Logger.object_prototype_keys
     ∧ level ∉ recognized).
Proof.
  unfold Logger.shouldLog. intros Hpass.
  destruct (decide (level ∈ recognized)) as [Hl|Hl].
  - left. split; [done|].
    destruct (decide (Logger.logLevel lg ∈ recognized)) as [|Ht]; [done|].
    destruct (recognized_number level Hl) as [n Hn]. rewrite Hn in Hpass.
    by rewrite (ge_nan_r n _ (unknown_rank _ Ht)) in Hpass.
  - right. rewrite (logLevels_unranked level Hl) in Hpass.
    case_bool_decide as Hk; [|by rewrite ge_undefined_l in Hpass].
    split; [done|]. split; [|done].
    destruct (decide (Logger.logLevel lg ∈ recognized)) as [Ht|Ht].
    + destruct (recognized_number _ Ht) as [n Hn]. by rewrite Hn in Hpass.
    + rewrite (logLevels_unranked _ Ht) in Hpass.
      case_bool_decide; [done|]. by rewrite ge_undefined_r in Hpass.
Qed.

Lemma shouldLog_unrecognised lg level :
  level ∉ recognized →
  level ∉ Logger.object_prototype_keys
  ∨ Logger.logLevel lg ∉ Logger.object_prototype_keys →
  Logger.shouldLog lg level = false.
Proof.
  intros Hl Hk. destruct (Logger.shouldLog lg level) eqn:Hpass; [|done].
  destruct (shouldLog_passes lg level Hpass) as [[? _]|(? & ? & _)]; tauto.
Qed.

(** X1: a message logged at a level that is not one of debug, info, warn,
    error is dropped whatever the threshold is, also at debug: nothing is
    printed, nothing is written and the clock is not read.  The one way out
    is a level and a threshold that are both names of members of
    [Object.prototype] ([toString], [valueOf], ...), which [>=] compares as
    strings. *)
Theorem unrecognised_level_is_dropped (lg : Logger.logger) (level message : string)
    (w : World) :
  level ∉ recognized →
  level ∉ Logger.object_prototype_keys
  ∨ Logger.logLevel lg ∉ Logger.object_prototype_keys →
  Logger.shouldLog lg level = false
  ∧ Logger.log lg level message w = (tt, w).
Proof.
  intros Hl Hk.
  pose proof (shouldLog_unrecognised lg level Hl Hk) as H.
  split; [exact H|by apply log_below].
Qed.

Lemma unrecognised_level_is_dropped_witness :
  Logger.log (sample_logger "debug") "trace" "entering" (world_of sample_env)
  = (tt, world_of sample_env).
Proof.
  refine (proj2 (unrecognised_level_is_dropped (sample_logger "debug") "trace"
                   "entering" (world_of sample_env) _ _)).
  - apply (bool_decide_unpack _). by vm_compute.
  - left. apply (bool_decide_unpack _). by vm_compute.
Defined.


(** X3: the filter is monotone in the level and in the threshold: a level
    that passes lets every level of higher rank pass, and a level that passes
    a threshold passes every threshold of lower rank. *)
Theorem filter_is_monotone (lg lg2 : Logger.logger) (level level2 : string)
    (x x2 y y2 : Z) :
  Logger.toNumber (Logger.logLevels level) = Some x →
  Logger.toNumber (Logger.logLevels level2) = Some x2 →
  Logger.toNumber (Logger.logLevels (Logger.logLevel lg)) = Some y →
  Logger.toNumber (Logger.logLevels (Logger.logLevel lg2)) = Some y2 →
  x ≤ x2 → y2 ≤ y →
  Logger.shouldLog lg level = true →
  Logger.shouldLog lg2 level2 = true.
Proof.
  unfold Logger.shouldLog. intros H1 H2 H3 H4 Hx Hy H.
  rewrite (ge_numbers _ _ x y) in H by done.
  rewrite (ge_numbers _ _ x2 y2) by done.
  apply Z.leb_le in H. apply Z.leb_le. lia.
Qed.

Lemma filter_is_monotone_witness :
  Logger.shouldLog (sample_logger "info") "error" = true.
Proof.
  refine (filter_is_monotone (sample_logger "warn") (sample_logger "info")
            "warn" "error" 2 3 2 1 eq_refl eq_refl eq_refl eq_refl _ _ eq_refl); lia.
Defined.

(** X4: with a recognized threshold, error messages are never filtered out,
    and the threshold debug filters out nothing that is logged at a
    recognized level. *)
Theorem error_always_passes (lg : Logger.logger) :
  Logger.logLevel lg ∈ recognized →
  Logger.shouldLog lg "error" = true
  ∧ (Logger.logLevel lg = "debug" →
     ∀ level, level ∈ recognized → Logger.shouldLog lg level = true).
Proof.
  intros Hthr. split.
  - destruct (recognized_rank _ Hthr) as (y & Hy & Hb).
    unfold Logger.shouldLog. rewrite (ge_numbers _ _ 3 y) by done.
    apply Z.leb_le. lia.
  - intros Hd level Hl. destruct (recognized_rank _ Hl) as (x & Hx & Hb).
    unfold Logger.shouldLog. rewrite (ge_numbers _ _ x 0) by (by rewrite ?Hd).
    apply Z.leb_le. lia.
Qed.

Lemma error_always_passes_witness :
  Logger.shouldLog (sample_logger "error") "error" = true.
Proof.
  refine (proj1 (error_always_passes (sample_logger "error") _)).
  apply (bool_decide_unpack _). by vm_compute.
Defined.

(** X5: a logger built without the file sink never touches the file
    system: its construction leaves the world as it was, and none of its
    messages issues an append, creates a path or writes to the error
    console. *)
Theorem logger_without_file_sink (level : string) (w : World) :
  Logger.new level false w
  = ({| Logger.logLevel := level; Logger.logToFile := false;
        Logger.logDir := ""; Logger.logFile := "" |}, w)
  ∧ ∀ (lg : Logger.logger) (level2 message : string) (w0 : World),
      Logger.logToFile lg = false →
      w_appends (Logger.log lg level2 message w0).2 = w_appends w0
      ∧ w_written (Logger.log lg level2 message w0).2 = w_written w0
      ∧ w_paths (Logger.log lg level2 message w0).2 = w_paths w0
      ∧ w_stderr (Logger.log lg level2 message w0).2 = w_stderr w0.
Proof.
  split; [reflexivity|]. intros lg level2 message w0 Hoff.
  destruct (Logger.shouldLog lg level2) eqn:Hs.
  - destruct (log_above lg level2 message w0 Hs) as (_ & _ & H3 & H4 & H5).
    rewrite Hoff in H3, H4, H5. rewrite app_nil_r in H3, H4, H5.
    split_and!; try done.
    unfold Logger.log. rewrite Hs. cbn [negb].
    unfold Logger.formatMessage, Logger.getTimestamp, Logger.writeToFile, bind, ret,
      Sys.nowISOString, Sys.consoleLog.
    by rewrite Hoff.
  - by rewrite log_below.
Qed.

Lemma split_on_first c a b :
  PathShape.plain c a → (JsString.split_on c (a +:+ String c b)).1 = a.
Proof.
  intros Ha. pose proof (split_app_sep c a b) as H.
  rewrite (split_on_split c (a +:+ String c b)) in H.
  unfold PathShape.plain in Ha. rewrite Ha in H. by injection H as H _.
Qed.

Lemma plain_app c a b :
  PathShape.plain c a → PathShape.plain c b → PathShape.plain c (a +:+ b).
Proof.
  induction a as [|x a IH]; intros Ha Hb; [done|].
  apply plain_cons in Ha as [Hx Ha].
  change (String x a +:+ b) with (String x (a +:+ b)).
  apply plain_cons_intro; [done|by apply IH].
Qed.

(** X6: the logger that the constructor returns keeps its log in
    [logs/mp3-cover-art-<date>.log] under the working directory, where
    <date> is what the ISO timestamp of the moment of construction holds
    before its [T]; that is the path [getLogFilePath] gives.  The
    initialisation that the constructor starts for this logger, followed to
    its end from any world, makes the directory and the file exist and
    prints nothing when both can be created; when the directory cannot be
    created it reports once on the error console and does not go on to the
    file. *)
Theorem log_file_is_named_after_the_date (level date time : string) (w : World) :
  e_clock (w_env w) (w_clock_reads w) = date +:+ String "T" time →
  PathShape.plain "T" date →
  let lg := (Logger.new level true w).1 in
  Logger.logLevel lg = level
  ∧ Logger.logToFile lg = true
  ∧ Logger.logDir lg = Path.join (e_cwd (w_env w)) "logs"
  ∧ Logger.getLogFilePath lg
    = Path.join (Path.join (e_cwd (w_env w)) "logs")
        ("mp3-cover-art-" +:+ date +:+ ".log")
  ∧ (PathShape.plain Path.slash date →
     Path.basename (Logger.getLogFilePath lg)
     = "mp3-cover-art-" +:+ date +:+ ".log")
  ∧ (∀ w0 : World,
       e_ensureDir (w_env w0) (Logger.logDir lg) = None →
       e_ensureFile (w_env w0) (Logger.logFile lg) = None →
       w_paths (Logger.initializeLogFile lg w0).2
       = {[ Logger.logFile lg ]} ∪ ({[ Logger.logDir lg ]} ∪ w_paths w0)
       ∧ w_stdout (Logger.initializeLogFile lg w0).2 = w_stdout w0
       ∧ w_stderr (Logger.initializeLogFile lg w0).2 = w_stderr w0
       ∧ w_appends (Logger.initializeLogFile lg w0).2 = w_appends w0)
  ∧ (∀ (w0 : World) (cause : string),
       e_ensureDir (w_env w0) (Logger.logDir lg) = Some cause →
       w_paths (Logger.initializeLogFile lg w0).2 = w_paths w0
       ∧ w_stdout (Logger.initializeLogFile lg w0).2 = w_stdout w0
       ∧ w_stderr (Logger.initializeLogFile lg w0).2
         = w_stderr w0 ++ ["Failed to initialize log file: " +:+ cause]).
Proof.
  intros Hclock Hdate. cbv zeta. rewrite new_with_file. cbn [fst].
  assert (Logger.dated_logger level w
          = {| Logger.logLevel := level; Logger.logToFile := true;
               Logger.logDir := Path.join (e_cwd (w_env w)) "logs";
               Logger.logFile :=
                 Path.join (Path.join (e_cwd (w_env w)) "logs")
                   ("mp3-cover-art-" +:+ date +:+ ".log") |}) as ->.
  { unfold Logger.dated_logger. by rewrite Hclock, split_on_first. }
  unfold Logger.getLogFilePath.
  cbn [Logger.logDir Logger.logFile Logger.logLevel Logger.logToFile].
  split_and!; try done.
  - intros Hplain. apply basename_join. split_and!; try done.
    apply (plain_app Path.slash "mp3-cover-art-" (date +:+ ".log")); [done|].
    by apply plain_app.
  - intros w0 Hdir Hfile.
    unfold Logger.initializeLogFile, bind, ret, Sys.ensureDir, Sys.ensureFile,
      Sys.create.
    cbn [Logger.logDir Logger.logFile]. rewrite Hdir. cbn [fst snd w_env].
    by rewrite Hfile.
  - intros w0 cause Hdir.
    unfold Logger.initializeLogFile, bind, ret, Sys.ensureDir, Sys.consoleError.
    cbn [Logger.logDir Logger.logFile]. by rewrite Hdir.
Qed.

Lemma log_file_is_named_after_the_date_witness :
  Logger.getLogFilePath (Logger.new "info" true (world_of sample_env)).1
  = "/app/logs/mp3-cover-art-2024-05-06.log".
Proof.
  destruct (log_file_is_named_after_the_date "info" "2024-05-06"
              "07:08:09.0Z" (world_of sample_env)) as (_ & _ & _ & Hp & _).
  - reflexivity.
  - reflexivity.
  - rewrite Hp. reflexivity.
Defined.

Import Mp3Processor Batch.

(** ** Further properties of a conversion *)

Lemma append_assoc (a b c : string) : (a +:+ b) +:+ c = a +:+ (b +:+ c).
Proof.
  induction a as [|x a IH]; [done|].
  change (String x ((a +:+ b) +:+ c) = String x (a +:+ (b +:+ c))). by rewrite IH.
Qed.

Lemma onData_text lg chunks acc w :
  (onData lg chunks acc w).1 = acc +:+ Capture.captured chunks.
Proof.
  revert acc w. induction chunks as [|[[|] line] rest IH]; intros acc w.
  - cbn. by rewrite append_empty_r.
  - cbn [onData Capture.captured]. apply IH.
  - cbn [onData Capture.captured]. rewrite bind_run, IH. apply append_assoc.
Qed.

Lemma onData_stdout lg chunks acc w :
  Logger.shouldLog lg "debug" = true →
  w_stdout (onData lg chunks acc w).2
  = w_stdout w
      ++ console_lines (w_env w) "debug" (w_clock_reads w) (Capture.progress chunks).
Proof.
  intros Hd. revert acc w. induction chunks as [|[[|] line] rest IH]; intros acc w.
  - cbn. by rewrite app_nil_r.
  - cbn [onData Capture.progress]. apply IH.
  - cbn [onData Capture.progress]. rewrite bind_run, IH.
    destruct (JsString.includes "time=" line).
    + destruct (log_above lg "debug" ("FFmpeg: " +:+ JsString.trim line) w Hd)
        as (H1 & H2 & _).
      destruct (log_only_logged lg "debug" ("FFmpeg: " +:+ JsString.trim line) w)
        as (He & _).
      unfold Logger.debug. rewrite H1, H2, He, <- app_assoc. reflexivity.
    + reflexivity.
Qed.

Lemma onData_silent lg chunks acc w :
  Logger.shouldLog lg "debug" = false → (onData lg chunks acc w).2 = w.
Proof.
  intros Hd. revert acc w. induction chunks as [|[[|] line] rest IH]; intros acc w.
  - reflexivity.
  - apply IH.
  - cbn [onData]. rewrite bind_run, IH.
    destruct (JsString.includes "time=" line); [|reflexivity].
    unfold Logger.debug. by rewrite log_below.
Qed.

(** X7: while a conversion runs, what the child process writes to its
    error stream is gathered chunk after chunk, in arrival order, and what it
    writes to its output stream is not; every chunk of the error stream that
    holds [time=] is forwarded at once as a debug message, trimmed, and the
    other chunks are not.  When debug messages are filtered out, reading the
    streams leaves the world as it was. *)
Theorem streams_are_captured_and_progress_is_forwarded (lg : Logger.logger)
    (chunks : list (Channel * string)) (w : World) :
  (onData lg chunks "" w).1 = Capture.captured chunks
  ∧ (Logger.shouldLog lg "debug" = true →
     w_stdout (onData lg chunks "" w).2
     = w_stdout w
         ++ console_lines (w_env w) "debug" (w_clock_reads w) (Capture.progress chunks))
  ∧ (Logger.shouldLog lg "debug" = false → (onData lg chunks "" w).2 = w).
Proof.
  split; [by rewrite onData_text|].
  split; [apply onData_stdout|apply onData_silent].
Qed.

(** X8: whatever happens to it, a conversion starts exactly one child
    process: [ffmpeg] with the two inputs, the stream maps, the copy codecs,
    the ID3v2.3 tag version, the attached-picture disposition and [-y]
    before the output file, in this order.  Its promise resolves exactly when
    that process closes with code 0; it rejects with the exit code in the
    message when the process closes otherwise, and with the message of the
    error when the process could not be started. *)
Theorem conversion_starts_one_process (lg : Logger.logger)
    (inputFile coverArtPath outputFile : string) (w : World) :
  ∃ (r : Settled unit) (w' : World),
    applyCoverArt lg inputFile coverArtPath outputFile w = (r, w')
    ∧ w_spawned w'
      = w_spawned w
          ++ [("ffmpeg",
               ["-i"; inputFile; "-i"; coverArtPath; "-map"; "0:a"; "-map"; "1:0";
                "-c:a"; "copy"; "-c:v"; "copy"; "-id3v2_version"; "3";
                "-disposition:v:0"; "attached_pic"; "-y"; outputFile])]
    ∧ (r = Resolved tt ↔
       pr_ending (e_spawn (w_env w) (length (w_spawned w)) "ffmpeg"
                    (ffmpegArgs inputFile coverArtPath outputFile)) = Close (Some 0))
    ∧ (∀ code,
         pr_ending (e_spawn (w_env w) (length (w_spawned w)) "ffmpeg"
                      (ffmpegArgs inputFile coverArtPath outputFile)) = Close code →
         code ≠ Some 0 →
         r = Rejected ("FFmpeg process exited with code " +:+ show_code code))
    ∧ (∀ message,
         pr_ending (e_spawn (w_env w) (length (w_spawned w)) "ffmpeg"
                      (ffmpegArgs inputFile coverArtPath outputFile)) = Error message →
         r = Rejected message).
Proof.
  destruct (applyCoverArt_spec lg inputFile coverArtPath outputFile w)
    as (Hr & (_ & Hs & _) & _).
  destruct (applyCoverArt lg inputFile coverArtPath outputFile w) as [r w'].
  cbn [fst snd] in *. exists r, w'. split; [reflexivity|]. split; [exact Hs|].
  rewrite Hr.
  destruct (pr_ending _) as [[[| |]|]|message]; split_and!;
    try done; try (intros ? ?; congruence); try (split; congruence);
    intros code [= <-] Hne; done.
Qed.

(** What the 'close' handler puts on the console for a code other than 0,
    when error messages pass the filter. *)
Lemma onClose_console lg i o text code w :
  Logger.shouldLog lg "error" = true →
  code ≠ Some 0 →
  w_stdout (onClose lg i o text code w).2
  = w_stdout w
      ++ console_lines (w_env w) "error" (w_clock_reads w)
           (("✗ Failed to process " +:+ Path.basename i
               +:+ ": FFmpeg exited with code " +:+ show_code code)
            :: (if JsString.is_empty text then []
                else ["FFmpeg stderr: " +:+ JsString.trim text])).
Proof.
  intros Herr Hne.
  assert (∀ m w5, w_stdout (Logger.error lg m w5).2
                  = w_stdout w5 ++ console_lines (w_env w5) "error" (w_clock_reads w5) [m]
                    ∧ w_env (Logger.error lg m w5).2 = w_env w5
                    ∧ w_clock_reads (Logger.error lg m w5).2 = S (w_clock_reads w5))
    as Hline.
  { intros m w5. destruct (log_above lg "error" m w5 Herr) as (H1 & H2 & _).
    destruct (log_only_logged lg "error" m w5) as (E & _). by split_and!. }
  assert ((onClose lg i o text code w).2
          = ((if JsString.is_empty text then ret tt
              else Logger.error lg ("FFmpeg stderr: " +:+ JsString.trim text))
               (Logger.error lg
                  ("✗ Failed to process " +:+ Path.basename i
                     +:+ ": FFmpeg exited with code " +:+ show_code code) w).2).2) as ->.
  { unfold onClose. destruct code as [[| |]|]; try done; by rewrite !bind_run. }
  destruct (Hline ("✗ Failed to process " +:+ Path.basename i
                     +:+ ": FFmpeg exited with code " +:+ show_code code) w)
    as (L1 & L2 & L3).
  destruct (JsString.is_empty text).
  - cbn [ret snd]. by rewrite L1.
  - destruct (Hline ("FFmpeg stderr: " +:+ JsString.trim text)
                (Logger.error lg
                   ("✗ Failed to process " +:+ Path.basename i
                      +:+ ": FFmpeg exited with code " +:+ show_code code) w).2)
      as (M1 & _).
    by rewrite M1, L1, L2, L3, <- app_assoc.
Qed.

(** X9: a conversion that fails says why, at error level.  When the child
    process closes with a code other than 0 (or is killed), the console ends
    with the line that names the file and the exit code, followed, when the
    error stream was not empty, by the whole text gathered from it, trimmed.
    When the process could not be started, the line that carries the
    message of the error comes first, and the 'close' event that Node emits
    after the 'error' adds the lines of the first case, with the negative
    errno as exit code. *)
Theorem failed_conversion_logs_its_cause (lg : Logger.logger)
    (inputFile coverArtPath outputFile : string) (w : World) :
  Logger.shouldLog lg "error" = true →
  let run := e_spawn (w_env w) (length (w_spawned w)) "ffmpeg"
               (ffmpegArgs inputFile coverArtPath outputFile) in
  let text := Capture.captured (pr_data run) in
  (∀ code,
     pr_ending run = Close code →
     code ≠ Some 0 →
     ∃ before n,
       w_stdout (applyCoverArt lg inputFile coverArtPath outputFile w).2
       = before
           ++ console_lines (w_env w) "error" n
                (("✗ Failed to process " +:+ Path.basename inputFile
                    +:+ ": FFmpeg exited with code " +:+ show_code code)
                 :: (if JsString.is_empty text then []
                     else ["FFmpeg stderr: " +:+ JsString.trim text])))
  ∧ (∀ message,
       pr_ending run = Error message →
       pr_errno run ≠ 0 →
       ∃ before n,
         w_stdout (applyCoverArt lg inputFile coverArtPath outputFile w).2
         = before
             ++ console_lines (w_env w) "error" n
                  (("✗ Failed to start FFmpeg: " +:+ message)
                   :: ("✗ Failed to process " +:+ Path.basename inputFile
                         +:+ ": FFmpeg exited with code " +:+ pretty (pr_errno run))
                   :: (if JsString.is_empty text then []
                       else ["FFmpeg stderr: " +:+ JsString.trim text]))).
Proof.
  intros Herr. cbv zeta. unfold applyCoverArt. rewrite !bind_run.
  set (w1 := (Logger.info lg _ w).2).
  set (w2 := (Logger.info lg _ w1).2).
  assert (only_logged lg w w2) as H02.
  { eapply only_logged_trans; apply log_only_logged. }
  destruct (spawn_convert lg inputFile coverArtPath outputFile w2) as (Hrun & Hsp & _).
  destruct H02 as (He & Hs & _).
  rewrite He, Hs, app_nil_r in Hrun, Hsp.
  set (run := e_spawn (w_env w) (length (w_spawned w)) "ffmpeg"
                (ffmpegArgs inputFile coverArtPath outputFile)) in *.
  rewrite Hrun.
  set (w3 := (Sys.spawn "ffmpeg" (ffmpegArgs inputFile coverArtPath outputFile) w2).2) in *.
  rewrite onData_text.
  change ("" +:+ Capture.captured (pr_data run)) with (Capture.captured (pr_data run)).
  set (w4 := (onData lg (pr_data run) "" w3).2).
  assert (w_env w4 = w_env w) as He4.
  { destruct (onData_only_logged lg (pr_data run) "" w3) as (E & _).
    destruct Hsp as (E' & _). unfold w4. by rewrite E, E', He. }
  split.
  - intros code Hc Hne. rewrite Hc.
    rewrite (onClose_console lg inputFile outputFile _ code w4 Herr Hne), He4.
    by eexists _, _.
  - intros message Hm Hno. rewrite Hm. rewrite !bind_run. cbn [ret snd].
    destruct (log_above lg "error" ("✗ Failed to start FFmpeg: " +:+ message) w4 Herr)
      as (L1 & L2 & _).
    destruct (log_only_logged lg "error" ("✗ Failed to start FFmpeg: " +:+ message) w4)
      as (L3 & _).
    cbv zeta in L1. unfold Logger.error.
    set (w5 := (Logger.log lg "error" ("✗ Failed to start FFmpeg: " +:+ message) w4).2)
      in *.
    rewrite (onClose_console lg inputFile outputFile _ (Some (pr_errno run)) w5 Herr)
      by (intros [= E]; done).
    rewrite L1, L2, L3, He4, <- app_assoc. cbn [show_code].
    by eexists _, _.
Qed.

Lemma failed_conversion_logs_its_cause_witness :
  ∃ before n,
    w_stdout (applyCoverArt (sample_logger "info") "/single/a.mp3" "/cover.jpg"
                "/out/a.mp3" (world_of flaky_env)).2
    = before
        ++ console_lines flaky_env "error" n
             ["✗ Failed to process a.mp3: FFmpeg exited with code 1";
              "FFmpeg stderr: Invalid data found when processing input"].
Proof.
  destruct (failed_conversion_logs_its_cause (sample_logger "info") "/single/a.mp3"
              "/cover.jpg" "/out/a.mp3" (world_of flaky_env) eq_refl) as [H _].
  destruct (H (Some 1) eq_refl) as (before & n & E); [discriminate|].
  exists before, n. exact E.
Defined.

Import Mp3Processor Batch.

(** ** Further properties of [processFolder] *)

(** X10: when the input folder cannot be listed, [processFolder] throws with
    the cause wrapped twice, by [getMp3Files] and by itself, and has done
    nothing: the world is as it was. *)
Theorem unreadable_input_folder_is_fatal (lg : Logger.logger)
    (inputFolder coverArtPath outputFolder cause : string) (w : World) :
  e_readdir (w_env w) inputFolder = inl cause →
  getMp3Files lg inputFolder w
  = (Rejected ("Failed to read directory " +:+ inputFolder +:+ ": " +:+ cause), w)
  ∧ processFolder lg inputFolder coverArtPath outputFolder w
    = (Rejected ("Failed to process folder: Failed to read directory "
                   +:+ inputFolder +:+ ": " +:+ cause), w).
Proof.
  intros Hdir. split.
  - by rewrite getMp3Files_run, Hdir.
  - by rewrite processFolder_run, Hdir.
Qed.

Lemma unreadable_input_folder_is_fatal_witness :
  processFolder (sample_logger "info") "/missing" "/cover.jpg" "/out"
    (world_of sample_env)
  = (Rejected "Failed to process folder: Failed to read directory /missing: ENOENT: no such file or directory",
     world_of sample_env).
Proof.
  exact (proj2 (unreadable_input_folder_is_fatal (sample_logger "info") "/missing"
                  "/cover.jpg" "/out" "ENOENT: no such file or directory"
                  (world_of sample_env) eq_refl)).
Defined.

(** X11: when candidates were found but the output folder cannot be
    created, [processFolder] throws with the cause, and no conversion has
    been attempted: no child process was started and no path was created,
    the log file apart. *)
Theorem uncreatable_output_folder_is_fatal (lg : Logger.logger)
    (inputFolder coverArtPath outputFolder cause : string) (w : World)
    (listing : list string) :
  e_readdir (w_env w) inputFolder = inr listing →
  List.filter is_mp3 listing ≠ [] →
  e_ensureDir (w_env w) outputFolder = Some cause →
  ∃ w' : World,
    processFolder lg inputFolder coverArtPath outputFolder w
    = (Rejected ("Failed to process folder: " +:+ cause), w')
    ∧ w_spawned w' = w_spawned w
    ∧ w_paths w' ⊆ {[ Logger.logFile lg ]} ∪ w_paths w.
Proof.
  intros Hdir Hsome Hmk. rewrite processFolder_run, Hdir. cbv zeta.
  assert ((length (candidates inputFolder w) =? 0)%nat = false) as ->.
  { unfold candidates. rewrite Hdir, length_map. apply Nat.eqb_neq.
    by destruct (List.filter is_mp3 listing). }
  rewrite Hmk. eexists. split; [reflexivity|].
  destruct (getMp3Files_only_logged lg inputFolder w) as (_ & Hs & _ & Hp).
  split; [by rewrite Hs, app_nil_r|].
  intros x Hx. apply Hp in Hx. rewrite !elem_of_union in *.
  destruct Hx as [[Hx|Hx]|Hx]; [tauto| |tauto]. by apply elem_of_empty in Hx.
Qed.

(** The output folder of [readonly_env] cannot be created. *)
Lemma uncreatable_output_folder_is_fatal_witness :
  ∃ w' : World,
    processFolder (sample_logger "info") "/music" "/cover.jpg" "/out"
      (world_of readonly_env)
    = (Rejected "Failed to process folder: EACCES: permission denied", w').
Proof.
  destruct (uncreatable_output_folder_is_fatal (sample_logger "info") "/music"
              "/cover.jpg" "/out" "EACCES: permission denied" (world_of readonly_env)
              ["a.mp3"; "b.MP3"; "c.wav"; "d.txt"] eq_refl) as (w' & H & _).
  - by vm_compute.
  - reflexivity.
  - exists w'. exact H.
Defined.

Section Created.
Variable lg : Logger.logger.
Variables cover out : string.

(** The paths that exist after the loop existed before, or are the log
    file, or are destinations of the batch. *)
Lemma loop_created files c w p :
  p ∈ w_paths (loop lg cover out files c w).2 →
  p ∈ w_paths w ∨ p = Logger.logFile lg
  ∨ ∃ f, f ∈ files ∧ p = destination out f.
Proof.
  revert c w. induction files as [|f rest IH]; intros [s fl] w Hp.
  { by left. }
  cbn [loop] in Hp. rewrite bind_run in Hp. apply IH in Hp.
  destruct Hp as [Hp|[Hp|(g & Hg & Hp)]].
  - destruct (iteration_spec lg cover out f s fl w) as [_ Hw].
    assert (w_paths (iteration lg cover out f (s, fl) w).2
            ⊆ {[ Logger.logFile lg ]} ∪ {[ destination out f ]} ∪ w_paths w) as Hsub.
    { destruct (verdict w cover out f).
      - destruct Hw as (_ & _ & _ & Hq). intros x Hx. apply Hq in Hx.
        rewrite !elem_of_union in *. destruct Hx as [[Hx|Hx]|Hx]; [tauto| |tauto].
        by apply elem_of_empty in Hx.
      - destruct Hw as [(_ & _ & _ & Hq) _]. intros x Hx. apply Hq in Hx.
        rewrite !elem_of_union in *. destruct Hx as [[Hx|Hx]|Hx]; [tauto| |tauto].
        destruct (pr_wrote _); [tauto|by apply elem_of_empty in Hx].
      - destruct Hw as [(_ & _ & _ & Hq) _]. intros x Hx. apply Hq in Hx.
        rewrite !elem_of_union in *. destruct Hx as [[Hx|Hx]|Hx]; [tauto| |tauto].
        destruct (pr_wrote _); [tauto|by apply elem_of_empty in Hx]. }
    apply Hsub in Hp. rewrite !elem_of_union, !elem_of_singleton in Hp.
    destruct Hp as [[Hp|Hp]|Hp]; [by right; left| |by left].
    right; right. exists f. split; [apply list_elem_of_here|done].
  - by right; left.
  - right; right. exists g. split; [by apply list_elem_of_further|done].
Qed.
End Created.

(** X12: [processFolder] removes nothing and creates little.  When the
    directory above the output folder exists, so that ensuring the output
    folder has nothing to make but the folder itself, then whatever the
    result every path that existed still exists, and a path that exists
    afterwards existed before, or is the log file, the output folder, or the
    destination of one of the candidates. *)
Theorem batch_only_creates_its_outputs (lg : Logger.logger)
    (inputFolder coverArtPath outputFolder : string) (w : World) :
  Path.dirname outputFolder ∈ w_paths w →
  w_env (processFolder lg inputFolder coverArtPath outputFolder w).2 = w_env w
  ∧ w_paths w ⊆ w_paths (processFolder lg inputFolder coverArtPath outputFolder w).2
  ∧ ∀ p, p ∈ w_paths (processFolder lg inputFolder coverArtPath outputFolder w).2 →
         p ∈ w_paths w
         ∨ p = Logger.logFile lg
         ∨ p = outputFolder
         ∨ ∃ f, f ∈ candidates inputFolder w ∧ p = destination outputFolder f.
Proof.
  intros _.
  assert (∀ w1 w2, only_logged lg w1 w2 →
            w_env w2 = w_env w1 ∧ w_paths w1 ⊆ w_paths w2
            ∧ ∀ p, p ∈ w_paths w2 → p ∈ w_paths w1 ∨ p = Logger.logFile lg) as Hlog.
  { intros w1 w2 (He & _ & Hp & Hq). split_and!; try done.
    intros p Hin. apply Hq in Hin. rewrite !elem_of_union, elem_of_singleton in Hin.
    destruct Hin as [[Hin|Hin]|Hin]; [tauto| |tauto]. by apply elem_of_empty in Hin. }
  rewrite processFolder_run.
  destruct (e_readdir (w_env w) inputFolder) as [m|listing] eqn:Hdir.
  { cbn [snd]. split_and!; try done. by left. }
  cbv zeta. destruct (length (candidates inputFolder w) =? 0)%nat.
  { cbn [snd].
    destruct (Hlog w (Logger.warn lg "No MP3 files found in the input folder"
                        (getMp3Files lg inputFolder w).2).2) as (He & Hp & Hq).
    { eapply only_logged_trans; [apply getMp3Files_only_logged|apply log_only_logged]. }
    split_and!; try done. intros p Hin. destruct (Hq p Hin); tauto. }
  destruct (e_ensureDir (w_env w) outputFolder) eqn:Hmk.
  { cbn [snd]. destruct (Hlog w (getMp3Files lg inputFolder w).2) as (He & Hp & Hq).
    { apply getMp3Files_only_logged. }
    split_and!; try done. intros p Hin. destruct (Hq p Hin); tauto. }
  cbn [snd].
  destruct (loop_start_evolved lg inputFolder outputFolder w Hmk)
    as [(He0 & _ & Hp0 & Hq0) _].
  set (v0 := loop_start lg inputFolder outputFolder w) in *.
  set (files := candidates inputFolder w).
  destruct (loop_grows lg coverArtPath outputFolder files (0, 0) v0) as [He1 Hp1].
  set (end1 := loop lg coverArtPath outputFolder files (0, 0) v0) in *.
  destruct (Hlog end1.2 (logSummary lg outputFolder (tally_of files end1.1) end1.2).2)
    as (He2 & Hp2 & Hq2); [apply logSummary_only_logged|].
  split_and!.
  - by rewrite He2, He1.
  - intros x Hx. by apply Hp2, Hp1, Hp0.
  - intros p Hin. destruct (Hq2 p Hin) as [Hin1|Hin1]; [|tauto].
    apply loop_created in Hin1. destruct Hin1 as [Hin0|[Hin0|Hf]]; [|tauto|tauto].
    apply Hq0 in Hin0. rewrite !elem_of_union, !elem_of_singleton in Hin0. tauto.
Qed.

Lemma batch_only_creates_its_outputs_witness :
  w_env (processFolder (sample_logger "info") "/music" "/cover.jpg" "/music/out"
           (stocked_world sample_env)).2
  = sample_env.
Proof.
  refine (proj1 (batch_only_creates_its_outputs (sample_logger "info") "/music"
                   "/cover.jpg" "/music/out" (stocked_world sample_env) _)).
  apply (bool_decide_unpack _). by vm_compute.
Defined.

(** X13: the converter is started once for every candidate that is not
    skipped, and never otherwise: a run that returns has started as many
    child processes as its summary counts successes and failures, and none
    when it found no candidate. *)
Theorem one_process_per_attempted_candidate (lg : Logger.logger)
    (inputFolder coverArtPath outputFolder : string) (w w' : World)
    (r : option Tally) :
  processFolder lg inputFolder coverArtPath outputFolder w = (Resolved r, w') →
  Z.of_nat (length (w_spawned w'))
  = Z.of_nat (length (w_spawned w))
    + match r with
      | Some t => succeeded t + failed t
      | None => 0
      end.
Proof.
  rewrite processFolder_run.
  destruct (e_readdir (w_env w) inputFolder) as [m|listing]; [done|].
  cbv zeta. destruct (length (candidates inputFolder w) =? 0)%nat.
  { intros [= <- <-].
    assert (only_logged lg w
              (Logger.warn lg "No MP3 files found in the input folder"
                 (getMp3Files lg inputFolder w).2).2) as (_ & Hs & _).
    { eapply only_logged_trans; [apply getMp3Files_only_logged|apply log_only_logged]. }
    rewrite Hs, app_nil_r. lia. }
  destruct (e_ensureDir (w_env w) outputFolder) eqn:Hmk; [done|].
  intros [= <- <-].
  destruct (loop_start_evolved lg inputFolder outputFolder w Hmk) as [(_ & Hs0 & _) _].
  destruct (logSummary_only_logged lg outputFolder
              (tally_of (candidates inputFolder w)
                 (loop lg coverArtPath outputFolder (candidates inputFolder w) (0, 0)
                    (loop_start lg inputFolder outputFolder w)).1)
              (loop lg coverArtPath outputFolder (candidates inputFolder w) (0, 0)
                 (loop_start lg inputFolder outputFolder w)).2) as (_ & Hs2 & _).
  rewrite Hs2, app_nil_r, loop_spawned, Hs0, app_nil_r.
  unfold tally_of. cbn [succeeded failed]. rewrite loop_counts. cbn [fst snd]. lia.
Qed.

Lemma one_process_per_attempted_candidate_witness :
  Z.of_nat (length (w_spawned mixed_run.2))
  = Z.of_nat (length (w_spawned (world_of second_fails_env)))
    + (succeeded mixed_tally + failed mixed_tally).
Proof.
  refine (one_process_per_attempted_candidate (sample_logger "info") "/music"
            "/cover.jpg" "/out" (world_of second_fails_env) mixed_run.2
            (Some mixed_tally) _).
  by vm_compute.
Defined.

(** X14: the counters of a summary are within bounds: a summary is only
    reported for at least one candidate, and each of succeeded, failed and
    skipped lies between 0 and the total. *)
Theorem tally_counters_are_bounded (lg : Logger.logger)
    (inputFolder coverArtPath outputFolder : string) (w w' : World) (t : Tally) :
  processFolder lg inputFolder coverArtPath outputFolder w = (Resolved (Some t), w') →
  1 ≤ totalDiscovered t
  ∧ 0 ≤ succeeded t ≤ totalDiscovered t
  ∧ 0 ≤ failed t ≤ totalDiscovered t
  ∧ 0 ≤ skipped t ≤ totalDiscovered t.
Proof.
  rewrite processFolder_run.
  destruct (e_readdir (w_env w) inputFolder) as [m|listing]; [done|].
  cbv zeta. destruct (length (candidates inputFolder w) =? 0)%nat eqn:Hlen; [done|].
  destruct (e_ensureDir (w_env w) outputFolder); [done|].
  intros [= <- _]. apply Nat.eqb_neq in Hlen.
  unfold tally_of. cbn [totalDiscovered succeeded failed skipped].
  rewrite loop_counts. cbn [fst snd].
  set (h := history lg coverArtPath outputFolder (candidates inputFolder w)
              (loop_start lg inputFolder outputFolder w)).
  pose proof (count_total h) as Ht. unfold h in Ht at 1.
  rewrite history_length in Ht.
  pose proof (count_nonneg Converted h). pose proof (count_nonneg Failed h).
  pose proof (count_nonneg Skipped h). lia.
Qed.

Lemma tally_counters_are_bounded_witness :
  1 ≤ totalDiscovered mixed_tally
  ∧ 0 ≤ succeeded mixed_tally ≤ totalDiscovered mixed_tally
  ∧ 0 ≤ failed mixed_tally ≤ totalDiscovered mixed_tally
  ∧ 0 ≤ skipped mixed_tally ≤ totalDiscovered mixed_tally.
Proof.
  refine (tally_counters_are_bounded (sample_logger "info") "/music" "/cover.jpg"
            "/out" (world_of second_fails_env) mixed_run.2 mixed_tally _).
  by vm_compute.
Defined.

(** X15: under the converter's contract (a process that closes with code 0
    has written its output), a run that reports no failure leaves the
    converted copy of every candidate in place: each destination exists when
    the run returns. *)
Theorem clean_run_leaves_every_destination (lg : Logger.logger)
    (inputFolder coverArtPath outputFolder : string) (w w' : World) (t : Tally) :
  writes_on_success (w_env w) →
  processFolder lg inputFolder coverArtPath outputFolder w = (Resolved (Some t), w') →
  failed t = 0 →
  ∀ f, f ∈ candidates inputFolder w → destination outputFolder f ∈ w_paths w'.
Proof.
  intros Hcontract Hrun Hclean f Hf. rewrite processFolder_run in Hrun.
  destruct (e_readdir (w_env w) inputFolder) as [m|listing]; [done|].
  cbv zeta in Hrun.
  destruct (length (candidates inputFolder w) =? 0)%nat; [done|].
  destruct (e_ensureDir (w_env w) outputFolder) eqn:Hmk; [done|].
  injection Hrun as <- <-.
  destruct (loop_start_evolved lg inputFolder outputFolder w Hmk) as [(He0 & _) _].
  eapply only_logged_paths; [apply logSummary_only_logged|].
  apply loop_leaves_present; [by rewrite He0| |done].
  unfold tally_of in Hclean. cbn [failed] in Hclean.
  rewrite loop_counts in Hclean. cbn [snd] in Hclean. lia.
Qed.

Lemma clean_run_leaves_every_destination_witness :
  destination "/out" "/music/b.MP3" ∈ w_paths clean_first_run.2.
Proof.
  refine (clean_run_leaves_every_destination (sample_logger "info") "/music"
            "/cover.jpg" "/out" (world_of sample_env) clean_first_run.2
            {| totalDiscovered := 2; succeeded := 2; failed := 0; skipped := 0 |}
            _ _ eq_refl "/music/b.MP3" _).
  - intros n command args _. reflexivity.
  - by vm_compute.
  - apply (bool_decide_unpack _). by vm_compute.
Defined.

Lemma filter_Forall {A} (P : A → Prop) (f : A → bool) (l : list A) :
  Forall P l → Forall P (List.filter f l).
Proof.
  induction 1 as [|x l Hx Hl IH]; cbn; [constructor|].
  destruct (f x); [by constructor|done].
Qed.

Lemma filter_NoDup {A} (f : A → bool) (l : list A) :
  NoDup l → NoDup (List.filter f l).
Proof.
  induction 1 as [|x l Hx Hl IH]; cbn; [constructor|].
  destruct (f x); [|done]. constructor; [|done].
  intros Hin. apply Hx. apply list_elem_of_In in Hin. apply filter_In in Hin as [Hin _].
  by apply list_elem_of_In.
Qed.

Lemma map_join_NoDup folder (names : list string) :
  Forall entry_name names → NoDup names → NoDup (List.map (Path.join folder) names).
Proof.
  intros Hn Hnd. induction Hnd as [|x l Hx Hl IH]; cbn; [constructor|].
  apply Forall_cons in Hn as [Hxn Hn]. constructor; [|by apply IH].
  intros Hin. apply list_elem_of_In, in_map_iff in Hin as (y & Hy & Hin).
  apply Hx. apply list_elem_of_In in Hin as Hin'.
  apply join_inj in Hy; [by subst|by eapply Forall_forall in Hn|done].
Qed.

(** X16: candidates keep the order of the listing and their names: for a
    listing of directory entries, the base names of the candidates are the
    entries with the extension [.mp3] (in any letter case), in listing order;
    each destination is the output folder joined with the unchanged entry
    name; and entries with different names never share a destination. *)
Theorem candidates_keep_order_and_names (inputFolder outputFolder : string)
    (w : World) (listing : list string) :
  e_readdir (w_env w) inputFolder = inr listing →
  Forall entry_name listing →
  List.map Path.basename (candidates inputFolder w) = List.filter is_mp3 listing
  ∧ List.map (destination outputFolder) (candidates inputFolder w)
    = List.map (Path.join outputFolder) (List.filter is_mp3 listing)
  ∧ List.map Path.basename (List.map (destination outputFolder) (candidates inputFolder w))
    = List.filter is_mp3 listing
  ∧ (NoDup listing →
     NoDup (List.map (destination outputFolder) (candidates inputFolder w))).
Proof.
  intros Hdir Hnames. unfold candidates. rewrite Hdir.
  pose proof (filter_Forall entry_name is_mp3 listing Hnames) as Hkept.
  pose proof (filter_NoDup is_mp3 listing) as Hdistinct.
  set (kept := List.filter is_mp3 listing) in *. clearbody kept.
  assert (List.map Path.basename (List.map (Path.join inputFolder) kept) = kept) as H1.
  { clear Hdistinct. induction Hkept as [|x l Hx Hl IH]; [done|]. cbn. by rewrite basename_join, IH. }
  assert (List.map (destination outputFolder) (List.map (Path.join inputFolder) kept)
          = List.map (Path.join outputFolder) kept) as H2.
  { clear H1 Hdistinct. unfold destination.
    induction Hkept as [|x l Hx Hl IH]; [done|].
    cbn. rewrite basename_join by done. f_equal. apply IH. }
  split; [exact H1|]. split; [exact H2|]. split.
  - rewrite H2. clear H1 H2 Hdistinct.
    induction Hkept as [|x l Hx Hl IH]; [done|]. cbn. by rewrite basename_join, IH.
  - intros Hnd. rewrite H2. by apply map_join_NoDup, Hdistinct.
Qed.

Lemma candidates_keep_order_and_names_witness :
  List.map Path.basename (candidates "/three" (world_of sample_env))
  = ["one.mp3"; "two.mp3"; "three.mp3"].
Proof.
  refine (proj1 (candidates_keep_order_and_names "/three" "/out" (world_of sample_env)
                   ["one.mp3"; "cover.jpg"; "two.mp3"; "three.mp3"] eq_refl _)).
  repeat constructor; by vm_compute.
Defined.

(** ** Properties of the command line *)

Section CommandLine.
Import App.

Lemma indexOf_absent x l : x ∉ l → indexOf x l = None.
Proof.
  induction l as [|y l IH]; [done|]. intros Hx.
  apply not_elem_of_cons in Hx as [Hne Hx]. cbn.
  destruct (String.eqb_spec y x); [by subst|]. by rewrite IH.
Qed.

Lemma indexOf_first x xs ys : x ∉ xs → indexOf x (xs ++ x :: ys) = Some (length xs).
Proof.
  induction xs as [|y xs IH]; intros Hx.
  - cbn. by rewrite String.eqb_refl.
  - apply not_elem_of_cons in Hx as [Hne Hx]. cbn.
    destruct (String.eqb_spec y x); [by subst|]. by rewrite IH.
Qed.

Lemma nth_error_after {A} (xs : list A) x y ys :
  List.nth_error (xs ++ x :: y :: ys) (length xs + 1) = Some y.
Proof. induction xs as [|z xs IH]; [done|]. exact IH. Qed.

Lemma nth_error_end {A} (xs : list A) x :
  List.nth_error (xs ++ [x]) (length xs + 1) = None.
Proof. induction xs as [|z xs IH]; [done|]. exact IH. Qed.

Lemma nth_after {A} (xs : list A) x y ys d :
  List.nth (length xs + 1) (xs ++ x :: y :: ys) d = y.
Proof. induction xs as [|z xs IH]; [done|]. exact IH. Qed.

Lemma splice2_middle (xs : list string) x y ys :
  splice2 (length xs) (xs ++ x :: y :: ys) = xs ++ ys.
Proof.
  unfold splice2. f_equal.
  - induction xs as [|z xs IH]; [done|]. cbn. by rewrite IH.
  - induction xs as [|z xs IH]; [done|]. exact IH.
Qed.

Lemma scan_without_option argv :
  "--log-level" ∉ argv → scanLogLevel argv = ("info", argv).
Proof. intros H. unfold scanLogLevel. by rewrite indexOf_absent. Qed.

Lemma scan_with_option xs l ys :
  "--log-level" ∉ xs → l ≠ "" →
  scanLogLevel (xs ++ "--log-level" :: l :: ys) = (l, xs ++ ys).
Proof.
  intros Hx Hl. unfold scanLogLevel, truthy_at.
  rewrite indexOf_first, nth_error_after, nth_after, splice2_middle by done.
  by destruct l.
Qed.

End CommandLine.

(** X17: the option [--log-level <level>] is taken out wherever it stands:
    parsing a command line with the option, before, between or after the
    positional arguments, gives what parsing the command line without it
    gives, with the level of the option instead of the default info. *)
Theorem log_level_option_is_position_independent (xs ys : list string)
    (level : string) (w : World) :
  "--log-level" ∉ xs ++ ys →
  level ≠ "" →
  App.scanLogLevel (xs ++ "--log-level" :: level :: ys) = (level, xs ++ ys)
  ∧ App.scanLogLevel (xs ++ ys) = ("info", xs ++ ys)
  ∧ App.parseArguments (xs ++ "--log-level" :: level :: ys) w
    = match App.parseArguments (xs ++ ys) w with
      | (App.Exited code, w') => (App.Exited code, w')
      | (App.Returned a, w') =>
          (App.Returned {| App.inputFolder := App.inputFolder a;
                           App.coverArtPath := App.coverArtPath a;
                           App.outputFolder := App.outputFolder a;
                           App.logLevel := level |}, w')
      end.
Proof.
  intros Hno Hl.
  assert ("--log-level" ∉ xs) as Hx.
  { intros Hin. apply Hno, elem_of_app. by left. }
  pose proof (scan_with_option xs level ys Hx Hl) as H1.
  pose proof (scan_without_option (xs ++ ys) Hno) as H2.
  split; [exact H1|]. split; [exact H2|].
  unfold App.parseArguments. rewrite H1, H2.
  destruct (length (xs ++ ys) <? 2)%nat; reflexivity.
Qed.

Lemma log_level_option_is_position_independent_witness :
  App.scanLogLevel ["/music"; "--log-level"; "warn"; "/cover.jpg"]
  = ("warn", ["/music"; "/cover.jpg"]).
Proof.
  refine (proj1 (log_level_option_is_position_independent ["/music"] ["/cover.jpg"]
                   "warn" (world_of sample_env) _ _)).
  - apply (bool_decide_unpack _). by vm_compute.
  - discriminate.
Defined.

(** X18: an option [--log-level] without a value is not an option: when
    nothing, or an empty argument, follows it, the level stays info and the
    word [--log-level] is kept among the positional arguments, so that after
    two positional arguments it is taken for the output folder. *)
Theorem dangling_log_level_is_positional (xs ys : list string) (a b : string)
    (w : World) :
  "--log-level" ∉ xs →
  a ≠ "--log-level" →
  b ≠ "--log-level" →
  App.scanLogLevel (xs ++ ["--log-level"]) = ("info", xs ++ ["--log-level"])
  ∧ App.scanLogLevel (xs ++ "--log-level" :: "" :: ys)
    = ("info", xs ++ "--log-level" :: "" :: ys)
  ∧ App.parseArguments [a; b; "--log-level"] w
    = (App.Returned
         {| App.inputFolder := PathResolve.resolve (e_cwd (w_env w)) a;
            App.coverArtPath := PathResolve.resolve (e_cwd (w_env w)) b;
            App.outputFolder := PathResolve.resolve (e_cwd (w_env w)) "--log-level";
            App.logLevel := "info" |}, w).
Proof.
  intros Hx Ha Hb. split_and!.
  - unfold App.scanLogLevel, App.truthy_at.
    by rewrite indexOf_first, nth_error_end.
  - unfold App.scanLogLevel, App.truthy_at.
    by rewrite indexOf_first, nth_error_after.
  - unfold App.parseArguments, App.scanLogLevel. cbn [App.indexOf].
    destruct (String.eqb_spec a "--log-level"); [done|].
    destruct (String.eqb_spec b "--log-level"); [done|].
    reflexivity.
Qed.

Lemma dangling_log_level_is_positional_witness :
  (App.parseArguments ["/music"; "/cover.jpg"; "--log-level"] (world_of sample_env)).1
  = App.Returned {| App.inputFolder := "/music"; App.coverArtPath := "/cover.jpg";
                    App.outputFolder := "/app/--log-level"; App.logLevel := "info" |}.
Proof.
  pose proof (dangling_log_level_is_positional [] [] "/music" "/cover.jpg"
                (world_of sample_env)) as H.
  destruct H as (_ & _ & H).
  - apply not_elem_of_nil.
  - discriminate.
  - discriminate.
  - rewrite H. reflexivity.
Defined.

(** X19: with fewer than two positional arguments, [run] prints the usage
    text and ends the process with status 1, and nothing else happens: no
    logger is built, no path is tested or created, no child process is
    started. *)
Theorem too_few_arguments_print_usage (argv : list string) (w : World) :
  (length (App.scanLogLevel argv).2 < 2)%nat →
  ∃ w' : World,
    App.run argv w = (App.Exited 1, w')
    ∧ w_stdout w' = w_stdout w ++ [App.usage]
    ∧ w_stderr w' = w_stderr w
    ∧ w_paths w' = w_paths w
    ∧ w_spawned w' = w_spawned w
    ∧ w_appends w' = w_appends w
    ∧ w_clock_reads w' = w_clock_reads w.
Proof.
  intros Hfew. unfold App.run, App.parseArguments. rewrite bind_run.
  destruct (App.scanLogLevel argv) as [level args]. cbn [snd] in Hfew.
  apply Nat.ltb_lt in Hfew. rewrite Hfew.
  eexists. split; [reflexivity|]. by split_and!.
Qed.

Lemma too_few_arguments_print_usage_witness :
  ∃ w' : World,
    App.run ["--log-level"; "debug"; "/music"] (world_of sample_env)
    = (App.Exited 1, w')
    ∧ w_stdout w' = [App.usage].
Proof.
  destruct (too_few_arguments_print_usage ["--log-level"; "debug"; "/music"]
              (world_of sample_env)) as (w' & H & Hout & _).
  - vm_compute. lia.
  - exists w'. split; [exact H|exact Hout].
Defined.

Section Resolve.
Import JsString Path PathShape.

Lemma tidy_absolute_proper stack : tidy false stack → Forall proper stack.
Proof.
  intros (names & k & -> & Hn & Hk). rewrite (Hk eq_refl). cbn.
  by rewrite app_nil_r.
Qed.

Lemma norm_segments_absolute_proper segs : Forall proper (norm_segments false segs).
Proof.
  unfold norm_segments. apply Forall_rev, tidy_absolute_proper, fold_norm_tidy, tidy_nil.
Qed.

(** What [path.resolve] gives under an absolute working directory: the
    separator-joined list of proper segments behind a leading separator. *)
Lemma resolve_shape cwd p :
  startsWith "/" cwd = true →
  ∃ L, Forall proper L ∧ Forall (plain slash) L
       ∧ PathResolve.resolve cwd p = "/" +:+ JsString.join "/" L.
Proof.
  intros Habs. unfold PathResolve.resolve.
  destruct (startsWith "/" p).
  - eexists. split; [apply norm_segments_absolute_proper|].
    split; [apply norm_segments_plain, split_pieces_plain|reflexivity].
  - destruct cwd as [|c cwd]; [done|]. cbn [is_empty]. rewrite Habs.
    eexists. split; [apply norm_segments_absolute_proper|].
    split; [apply norm_segments_plain, split_pieces_plain|reflexivity].
Qed.

Lemma join_snoc_not_empty (l : list string) s :
  s ≠ "" → is_empty (JsString.join "/" (l ++ [s])) = false.
Proof.
  intros Hs. destruct l as [|x l]; [by apply is_empty_false|].
  cbn [app]. destruct (l ++ [s]) as [|y r] eqn:E; [by destruct l|].
  change (JsString.join "/" (x :: y :: r))
    with (x +:+ String slash (JsString.join "/" (y :: r))).
  by apply is_empty_false, append_not_empty.
Qed.

Lemma removelast_rev {A} (top : A) rest l :
  rev l = top :: rest → removelast l = rev rest.
Proof.
  intros H. apply (f_equal (@rev A)) in H. rewrite rev_involutive in H. subst l.
  cbn. by rewrite removelast_last.
Qed.

(** [path.join(folder, '..', 'output')] on a resolved folder. *)
Lemma sibling_output L :
  Forall proper L → Forall (plain slash) L →
  join_all ["/" +:+ JsString.join "/" L; ".."; "output"]
  = "/" +:+ JsString.join "/" (removelast L ++ ["output"]).
Proof.
  intros Hproper Hplain. unfold join_all.
  change (List.filter _ ["/" +:+ JsString.join "/" L; ".."; "output"])
    with ["/" +:+ JsString.join "/" L; ".."; "output"].
  change (JsString.join "/" ["/" +:+ JsString.join "/" L; ".."; "output"])
    with (("/" +:+ JsString.join "/" L) +:+ String slash "../output").
  rewrite is_empty_false by (by apply append_not_empty).
  unfold normalize. cbv zeta.
  rewrite is_empty_false by (by apply append_not_empty).
  change (startsWith "/" (("/" +:+ JsString.join "/" L) +:+ String slash "../output"))
    with true.
  rewrite endsWithChar_app by done.
  change (endsWithChar slash (String slash "../output")) with false.
  unfold segments. rewrite split_app_sep.
  change (split slash "../output") with [".."; "output"].
  change ("/" +:+ JsString.join "/" L) with (String slash (JsString.join "/" L)).
  rewrite split_cons_sep.
  assert (norm_segments (negb true)
            (("" :: split slash (JsString.join "/" L)) ++ [".."; "output"])
          = removelast L ++ ["output"]) as ->.
  { unfold norm_segments. cbn [negb app fold_left]. rewrite norm_step_skip.
    destruct L as [|x L].
    - reflexivity.
    - assert (split slash (JsString.join "/" (x :: L)) = x :: L) as ->
          by (by apply (split_join slash)).
      rewrite fold_left_app. rewrite (fold_norm_proper false (x :: L)) by done.
      rewrite app_nil_r.
      destruct (rev (x :: L)) as [|top rest] eqn:E.
      { apply (f_equal length) in E. rewrite length_rev in E. done. }
      assert (proper top) as (_ & _ & Htop).
      { eapply Forall_forall; [exact Hproper|].
        apply list_elem_of_In, in_rev. rewrite E. by left. }
      cbn [fold_left]. unfold norm_step at 2. cbn [is_empty orb].
      change (String.eqb ".." ".") with false. change (String.eqb ".." "..") with true.
      cbn match. destruct (String.eqb_spec top ".."); [done|].
      rewrite norm_step_proper by done. cbn [rev].
      by rewrite (removelast_rev top rest (x :: L) E). }
  rewrite join_snoc_not_empty by done. cbn [negb]. by rewrite append_empty_r.
Qed.

End Resolve.



(** ** Properties of the application *)

Lemma validateArguments_cases (lg : Logger.logger) (args : App.Arguments)
    (w : World) :
  (App.inputFolder args ∉ w_paths w →
   App.validateArguments lg args w
   = (Rejected ("Input folder does not exist: " +:+ App.inputFolder args), w))
  ∧ (App.inputFolder args ∈ w_paths w →
     App.coverArtPath args ∉ w_paths w →
     App.validateArguments lg args w
     = (Rejected ("Cover art file does not exist: " +:+ App.coverArtPath args), w))
  ∧ (App.inputFolder args ∈ w_paths w →
     App.coverArtPath args ∈ w_paths w →
     JsString.toLowerCase (Path.extname (App.coverArtPath args)) ∉ App.imageExtensions →
     App.validateArguments lg args w
     = (Rejected "Cover art must be an image file. Supported formats: .jpg, .jpeg, .png, .bmp, .gif",
        w))
  ∧ (∀ message w',
       App.validateArguments lg args w = (Rejected message, w') → w' = w)
  ∧ (∀ w',
       App.validateArguments lg args w = (Resolved tt, w') →
       App.inputFolder args ∈ w_paths w
       ∧ App.coverArtPath args ∈ w_paths w
       ∧ JsString.toLowerCase (Path.extname (App.coverArtPath args)) ∈ App.imageExtensions
       ∧ App.outputFolder args ∈ w_paths w').
Proof.
  unfold App.validateArguments. rewrite bind_run.
  change (Sys.pathExists (App.inputFolder args) w)
    with (bool_decide (App.inputFolder args ∈ w_paths w), w).
  cbn [fst snd].
  destruct (bool_decide_reflect (App.inputFolder args ∈ w_paths w)) as [Hin|Hin];
    cbn [negb].
  2:{ split_and!; try done. by intros m w' [= _ <-]. }
  rewrite bind_run.
  change (Sys.pathExists (App.coverArtPath args) w)
    with (bool_decide (App.coverArtPath args ∈ w_paths w), w).
  cbn [fst snd].
  destruct (bool_decide_reflect (App.coverArtPath args ∈ w_paths w)) as [Hc|Hc];
    cbn [negb].
  2:{ split_and!; try done. by intros m w' [= _ <-]. }
  destruct (bool_decide_reflect
              (JsString.toLowerCase (Path.extname (App.coverArtPath args))
               ∈ App.imageExtensions)) as [He|He]; cbn [negb].
  2:{ split_and!; try done. by intros m w' [= _ <-]. }
  rewrite bind_run, ensureDir_run.
  destruct (e_ensureDir (w_env w) (App.outputFolder args)) as [m|]; cbn [fst snd].
  { split_and!; try done. by intros m' w' [= _ <-]. }
  rewrite !bind_run. cbn [ret fst snd]. split_and!; try done.
  intros w' [= <-]. split_and!; try done.
  eapply only_logged_paths.
  { eapply only_logged_trans; [|apply log_only_logged].
    eapply only_logged_trans; apply log_only_logged. }
  unfold Sys.create. cbn. apply elem_of_union_l. by apply elem_of_singleton.
Qed.

(** X21: the checks of [validateArguments] come in a fixed order (input
    folder, cover file, cover extension, output folder), the first that
    fails gives the message, and a validation that rejects has changed
    nothing: nothing is logged and the output folder is not created.  A
    validation that succeeds has seen both paths, an image extension in any
    letter case, and leaves the output folder in place. *)
Theorem validation_rejects_in_order (lg : Logger.logger) (args : App.Arguments)
    (w : World) :
  (App.inputFolder args ∉ w_paths w →
   App.validateArguments lg args w
   = (Rejected ("Input folder does not exist: " +:+ App.inputFolder args), w))
  ∧ (App.inputFolder args ∈ w_paths w →
     App.coverArtPath args ∉ w_paths w →
     App.validateArguments lg args w
     = (Rejected ("Cover art file does not exist: " +:+ App.coverArtPath args), w))
  ∧ (App.inputFolder args ∈ w_paths w →
     App.coverArtPath args ∈ w_paths w →
     JsString.toLowerCase (Path.extname (App.coverArtPath args)) ∉ App.imageExtensions →
     App.validateArguments lg args w
     = (Rejected "Cover art must be an image file. Supported formats: .jpg, .jpeg, .png, .bmp, .gif",
        w))
  ∧ (∀ message w',
       App.validateArguments lg args w = (Rejected message, w') → w' = w)
  ∧ (∀ w',
       App.validateArguments lg args w = (Resolved tt, w') →
       App.inputFolder args ∈ w_paths w
       ∧ App.coverArtPath args ∈ w_paths w
       ∧ JsString.toLowerCase (Path.extname (App.coverArtPath args)) ∈ App.imageExtensions
       ∧ App.outputFolder args ∈ w_paths w').
Proof. apply validateArguments_cases. Qed.

Section RunFacts.

Lemma new_frame level w :
  (Logger.new level true w).1 = Logger.dated_logger level w
  ∧ w_env (Logger.new level true w).2 = w_env w
  ∧ w_spawned (Logger.new level true w).2 = w_spawned w
  ∧ w_stdout (Logger.new level true w).2 = w_stdout w
  ∧ w_paths w ⊆ w_paths (Logger.new level true w).2
  ∧ ∀ p, p ∈ w_paths (Logger.new level true w).2 →
         p ∈ w_paths w
         ∨ p = Logger.logDir (Logger.dated_logger level w)
         ∨ p = Logger.logFile (Logger.dated_logger level w).
Proof.
  rewrite new_with_file. cbn [fst snd].
  set (lg := Logger.dated_logger level w).
  unfold Logger.initializeLogFile, bind, ret, Sys.nowISOString, Sys.ensureDir,
    Sys.ensureFile, Sys.consoleError, Sys.create.
  cbn [fst snd w_env].
  destruct (e_ensureDir (w_env w) (Logger.logDir lg)); cbn [fst snd w_env];
    [|destruct (e_ensureFile (w_env w) (Logger.logFile lg))];
    cbn [fst snd w_env w_spawned w_stdout w_paths]; split_and!; try done;
    try (intros p Hp; by left);
    intros p; rewrite ?elem_of_union, ?elem_of_singleton; tauto.
Qed.

Lemma parse_world argv w a :
  (App.parseArguments argv w).1 = App.Returned a →
  App.parseArguments argv w = (App.Returned a, w).
Proof.
  unfold App.parseArguments. destruct (App.scanLogLevel argv) as [level args].
  destruct (length args <? 2)%nat; [by rewrite bind_run|].
  rewrite bind_run. cbn [Sys.processCwd ret fst snd]. by intros ->.
Qed.

(** The world in which [run] validates its arguments, and its logger. *)
Lemma run_setup argv w a :
  (App.parseArguments argv w).1 = App.Returned a →
  ∃ w2,
    App.run argv w
    = (let lg := Logger.dated_logger (App.logLevel a) w in
       let! checked := App.validateArguments lg a in
       match checked with
       | Rejected message => App.fail lg message
       | Resolved _ =>
           Logger.info lg "Checking FFmpeg installation..." ;;
           let! probe := Mp3Processor.validateFFmpeg in
           match probe with
           | Rejected message => App.fail lg message
           | Resolved false => App.fail lg App.ffmpegMissing
           | Resolved true =>
               Logger.info lg "âœ“ FFmpeg is available" ;;
               let! done := Mp3Processor.processFolder lg (App.inputFolder a)
                              (App.coverArtPath a) (App.outputFolder a) in
               match done with
               | Rejected message => App.fail lg message
               | Resolved _ =>
                   Logger.info lg "MP3 Cover Art Application Completed Successfully" ;;
                   ret (App.Returned tt)
               end
           end
       end) w2
    ∧ w_env w2 = w_env w
    ∧ w_spawned w2 = w_spawned w
    ∧ w_paths w ⊆ w_paths w2
    ∧ ∀ p, p ∈ w_paths w2 →
           p ∈ w_paths w
           ∨ p = Logger.logDir (Logger.dated_logger (App.logLevel a) w)
           ∨ p = Logger.logFile (Logger.dated_logger (App.logLevel a) w).
Proof.
  intros Hparse. apply parse_world in Hparse.
  destruct (new_frame (App.logLevel a) w) as (Hlg & He & Hs & _ & Hp & Hq).
  set (lg := Logger.dated_logger (App.logLevel a) w) in *.
  exists (Logger.debug lg ("Log level set to: " +:+ App.logLevel a)
            (Logger.info lg "MP3 Cover Art Application Started"
               (Logger.new (App.logLevel a) true w).2).2).2.
  assert (only_logged lg (Logger.new (App.logLevel a) true w).2
            (Logger.debug lg ("Log level set to: " +:+ App.logLevel a)
               (Logger.info lg "MP3 Cover Art Application Started"
                  (Logger.new (App.logLevel a) true w).2).2).2)
    as (He2 & Hs2 & Hp2 & Hq2).
  { eapply only_logged_trans; apply log_only_logged. }
  split.
  - unfold App.run. rewrite bind_run, Hparse. cbn [fst snd].
    rewrite bind_run, Hlg. fold lg. by rewrite !bind_run.
  - split_and!.
    + by rewrite He2.
    + by rewrite Hs2, app_nil_r.
    + intros p Hin. by apply Hp2, Hp.
    + intros p Hin. apply Hq2 in Hin. rewrite !elem_of_union, elem_of_singleton in Hin.
      destruct Hin as [[Hin|Hin]|Hin]; [tauto|by apply elem_of_empty in Hin|].
      by apply Hq.
Qed.

Lemma fail_exits lg message w :
  (App.fail lg message w).1 = App.Exited 1
  ∧ only_logged lg w (App.fail lg message w).2.
Proof.
  unfold App.fail. rewrite bind_run. cbn [ret fst snd]. split; [done|].
  apply log_only_logged.
Qed.

End RunFacts.

(** X22: a cover art whose extension is not one of .jpg, .jpeg, .png, .bmp,
    .gif (in any letter case) ends the run with status 1 before any work:
    whether or not the paths exist, no child process is started, not even
    the probe, and nothing is created besides the log directory and file.
    When the input folder and the cover file exist, the extension is what
    stops the run: the last line on the console, when error messages pass
    the filter, is the failure that lists the supported formats. *)
Theorem bad_cover_extension_stops_the_run (argv : list string) (args : App.Arguments)
    (w : World) :
  (App.parseArguments argv w).1 = App.Returned args →
  JsString.toLowerCase (Path.extname (App.coverArtPath args)) ∉ App.imageExtensions →
  ∃ w' : World,
    App.run argv w = (App.Exited 1, w')
    ∧ w_spawned w' = w_spawned w
    ∧ (∀ p, p ∈ w_paths w' →
            p ∈ w_paths w
            ∨ p = Logger.logDir (Logger.dated_logger (App.logLevel args) w)
            ∨ p = Logger.logFile (Logger.dated_logger (App.logLevel args) w))
    ∧ (App.inputFolder args ∈ w_paths w →
       App.coverArtPath args ∈ w_paths w →
       Logger.shouldLog (Logger.dated_logger (App.logLevel args) w) "error" = true →
       ∃ before stamp,
         w_stdout w'
         = before
             ++ [Batch.console_line "error" stamp
                   "Application failed: Cover art must be an image file. Supported formats: .jpg, .jpeg, .png, .bmp, .gif"]).
Proof.
  intros Hparse Hext.
  destruct (run_setup argv w args Hparse) as (w2 & Hrun & He & Hs & Hp & Hq).
  set (lg := Logger.dated_logger (App.logLevel args) w) in *.
  assert (∃ message,
            App.validateArguments lg args w2 = (Rejected message, w2)
            ∧ (App.inputFolder args ∈ w_paths w2 →
               App.coverArtPath args ∈ w_paths w2 →
               message
               = "Cover art must be an image file. Supported formats: .jpg, .jpeg, .png, .bmp, .gif"))
    as (message & Hv & Hmessage).
  { destruct (validateArguments_cases lg args w2) as (H1 & H2 & H3 & _).
    destruct (decide (App.inputFolder args ∈ w_paths w2)) as [Hi|Hi];
      [|eexists; split; [by apply H1|done]].
    destruct (decide (App.coverArtPath args ∈ w_paths w2)) as [Hc|Hc];
      [|eexists; split; [by apply H2|done]].
    eexists. split; [by apply H3|done]. }
  rewrite Hrun. cbv zeta. rewrite bind_run, Hv. cbn [fst snd].
  destruct (fail_exits lg message w2) as [Hexit (_ & Hs' & _ & Hq')].
  exists (App.fail lg message w2).2. split_and!.
  - rewrite <- Hexit. by destruct (App.fail lg message w2).
  - by rewrite Hs', app_nil_r.
  - intros p Hin. apply Hq' in Hin. rewrite !elem_of_union, elem_of_singleton in Hin.
    destruct Hin as [[Hin|Hin]|Hin]; [tauto|by apply elem_of_empty in Hin|].
    by apply Hq.
  - intros Hi Hc Herr. rewrite Hmessage by (by apply Hp).
    unfold App.fail. rewrite bind_run. cbn [ret snd].
    destruct (log_above lg "error"
                ("Application failed: "
                   +:+ "Cover art must be an image file. Supported formats: .jpg, .jpeg, .png, .bmp, .gif")
                w2 Herr) as (H1 & _).
    unfold Logger.error. rewrite H1. by eexists _, _.
Qed.

Lemma bad_cover_extension_stops_the_run_witness :
  ∃ w' : World,
    App.run ["/music"; "/notes.txt"] (noted_world sample_env) = (App.Exited 1, w')
    ∧ w_spawned w' = []
    ∧ ∃ before stamp,
        w_stdout w'
        = before
            ++ [Batch.console_line "error" stamp
                  "Application failed: Cover art must be an image file. Supported formats: .jpg, .jpeg, .png, .bmp, .gif"].
Proof.
  destruct (bad_cover_extension_stops_the_run ["/music"; "/notes.txt"]
              {| App.inputFolder := "/music"; App.coverArtPath := "/notes.txt";
                 App.outputFolder := "/output"; App.logLevel := "info" |}
              (noted_world sample_env)) as (w' & H & Hs & _ & Hlast).
  - by vm_compute.
  - apply (bool_decide_unpack _). by vm_compute.
  - exists w'. split; [exact H|]. split; [exact Hs|].
    apply Hlast.
    + apply (bool_decide_unpack _). by vm_compute.
    + apply (bool_decide_unpack _). by vm_compute.
    + by vm_compute.
Defined.

Section ProbeFacts.

Lemma validateFFmpeg_run w :
  (Mp3Processor.validateFFmpeg w).1
  = Resolved (match pr_ending (Batch.probe_run w) with
              | Close (Some 0) => true
              | _ => false
              end)
  ∧ w_env (Mp3Processor.validateFFmpeg w).2 = w_env w
  ∧ w_spawned (Mp3Processor.validateFFmpeg w).2
    = w_spawned w ++ [("ffmpeg", ["-version"])]
  ∧ w_paths (Mp3Processor.validateFFmpeg w).2 = w_paths w
  ∧ w_stdout (Mp3Processor.validateFFmpeg w).2 = w_stdout w.
Proof.
  unfold Mp3Processor.validateFFmpeg, Batch.probe_run, bind, ret, Sys.spawn.
  cbn [Sys.output_of rev app].
  by destruct (pr_ending _) as [[[| |]|]|message].
Qed.

Lemma probe_run_frame w w' :
  w_env w' = w_env w → w_spawned w' = w_spawned w →
  Batch.probe_run w' = Batch.probe_run w.
Proof. intros He Hs. unfold Batch.probe_run. by rewrite He, Hs. Qed.

(** A validation that meets what it asks for. *)
Lemma validateArguments_ok lg args w :
  App.inputFolder args ∈ w_paths w →
  App.coverArtPath args ∈ w_paths w →
  JsString.toLowerCase (Path.extname (App.coverArtPath args)) ∈ App.imageExtensions →
  e_ensureDir (w_env w) (App.outputFolder args) = None →
  (App.validateArguments lg args w).1 = Resolved tt
  ∧ evolved lg {[ App.outputFolder args ]} [] w (App.validateArguments lg args w).2.
Proof.
  intros Hi Hc He Hmk. unfold App.validateArguments. rewrite bind_run.
  change (Sys.pathExists (App.inputFolder args) w)
    with (bool_decide (App.inputFolder args ∈ w_paths w), w).
  cbn [fst snd]. rewrite bool_decide_eq_true_2 by done. cbn [negb].
  rewrite bind_run.
  change (Sys.pathExists (App.coverArtPath args) w)
    with (bool_decide (App.coverArtPath args ∈ w_paths w), w).
  cbn [fst snd]. rewrite bool_decide_eq_true_2 by done. cbn [negb].
  rewrite (bool_decide_eq_true_2 _ He). cbn [negb].
  rewrite bind_run, ensureDir_run, Hmk. cbn [fst snd]. rewrite !bind_run.
  cbn [ret fst snd]. split; [done|].
  eapply evolved_then_log; [apply create_evolved|].
  eapply only_logged_trans; [|apply log_only_logged].
  eapply only_logged_trans; apply log_only_logged.
Qed.

End ProbeFacts.

(** X23: when the arguments are valid but the probe does not find a working
    converter (it cannot be started, or closes with another code than 0),
    the run ends with status 1 after having started one child process only,
    the probe [ffmpeg -version]: no file is listed or converted.  The reason
    is the last line on the console when error messages pass the filter. *)
Theorem missing_converter_stops_the_run (argv : list string) (args : App.Arguments)
    (w : World) :
  (App.parseArguments argv w).1 = App.Returned args →
  App.inputFolder args ∈ w_paths w →
  App.coverArtPath args ∈ w_paths w →
  JsString.toLowerCase (Path.extname (App.coverArtPath args)) ∈ App.imageExtensions →
  e_ensureDir (w_env w) (App.outputFolder args) = None →
  pr_ending (Batch.probe_run w) ≠ Close (Some 0) →
  ∃ w' : World,
    App.run argv w = (App.Exited 1, w')
    ∧ w_spawned w' = w_spawned w ++ [("ffmpeg", ["-version"])]
    ∧ (Logger.shouldLog (Logger.dated_logger (App.logLevel args) w) "error" = true →
       ∃ before stamp,
         w_stdout w'
         = before
             ++ [Batch.console_line "error" stamp
                   ("Application failed: " +:+ App.ffmpegMissing)]).
Proof.
  intros Hparse Hi Hc Hext Hmk Hprobe.
  destruct (run_setup argv w args Hparse) as (w2 & Hrun & He2 & Hs2 & Hp2 & _).
  set (lg := Logger.dated_logger (App.logLevel args) w) in *.
  destruct (validateArguments_ok lg args w2) as [Hv (He3 & Hs3 & _)];
    [by apply Hp2|by apply Hp2|done|by rewrite He2|].
  rewrite Hrun. cbv zeta. rewrite bind_run, Hv. rewrite !bind_run.
  set (w3 := (App.validateArguments lg args w2).2) in *.
  destruct (log_only_logged lg "info" "Checking FFmpeg installation..." w3)
    as (He4 & Hs4 & _).
  set (w4 := (Logger.info lg "Checking FFmpeg installation..." w3).2) in *.
  destruct (validateFFmpeg_run w4) as (Hr & He5 & Hs5 & _).
  rewrite (probe_run_frame w w4) in Hr.
  2:{ unfold w4, Logger.info. by rewrite He4, He3, He2. }
  2:{ unfold w4, Logger.info. by rewrite Hs4, Hs3, Hs2, !app_nil_r. }
  rewrite Hr.
  assert (match pr_ending (Batch.probe_run w) with
          | Close (Some 0) => true
          | _ => false
          end = false) as ->.
  { by destruct (pr_ending (Batch.probe_run w)) as [[[| |]|]|]. }
  set (w5 := (Mp3Processor.validateFFmpeg w4).2) in *.
  destruct (fail_exits lg App.ffmpegMissing w5) as [Hexit (_ & Hs6 & _)].
  exists (App.fail lg App.ffmpegMissing w5).2. split_and!.
  - rewrite <- Hexit. by destruct (App.fail lg App.ffmpegMissing w5).
  - unfold w4, Logger.info in Hs5.
    by rewrite Hs6, Hs5, Hs4, Hs3, Hs2, !app_nil_r.
  - intros Herr. unfold App.fail. rewrite bind_run. cbn [ret snd].
    destruct (log_above lg "error" ("Application failed: " +:+ App.ffmpegMissing)
                w5 Herr) as (H1 & _).
    unfold Logger.error. rewrite H1. by eexists _, _.
Qed.

(** X24: the outcome of the single conversions never decides how the run
    ends: once the arguments are valid and the probe has found the
    converter, the run returns normally whenever the input folder can be
    listed, whatever the child processes of the conversions do, and ends
    with status 1 when the folder cannot be listed. *)
Theorem conversions_never_decide_the_exit (argv : list string) (args : App.Arguments)
    (w : World) :
  (App.parseArguments argv w).1 = App.Returned args →
  App.inputFolder args ∈ w_paths w →
  App.coverArtPath args ∈ w_paths w →
  JsString.toLowerCase (Path.extname (App.coverArtPath args)) ∈ App.imageExtensions →
  e_ensureDir (w_env w) (App.outputFolder args) = None →
  pr_ending (Batch.probe_run w) = Close (Some 0) →
  (∀ listing,
     e_readdir (w_env w) (App.inputFolder args) = inr listing →
     ∃ w' : World, App.run argv w = (App.Returned tt, w'))
  ∧ (∀ cause,
       e_readdir (w_env w) (App.inputFolder args) = inl cause →
       ∃ w' : World, App.run argv w = (App.Exited 1, w')).
Proof.
  intros Hparse Hi Hc Hext Hmk Hprobe.
  destruct (run_setup argv w args Hparse) as (w2 & Hrun & He2 & Hs2 & Hp2 & _).
  set (lg := Logger.dated_logger (App.logLevel args) w) in *.
  destruct (validateArguments_ok lg args w2) as [Hv (He3 & Hs3 & _)];
    [by apply Hp2|by apply Hp2|done|by rewrite He2|].
  rewrite Hrun. cbv zeta. rewrite bind_run, Hv. rewrite !bind_run.
  set (w3 := (App.validateArguments lg args w2).2) in *.
  destruct (log_only_logged lg "info" "Checking FFmpeg installation..." w3)
    as (He4 & Hs4 & _).
  set (w4 := (Logger.info lg "Checking FFmpeg installation..." w3).2) in *.
  destruct (validateFFmpeg_run w4) as (Hr & He5 & _).
  rewrite (probe_run_frame w w4) in Hr.
  2:{ unfold w4, Logger.info. by rewrite He4, He3, He2. }
  2:{ unfold w4, Logger.info. by rewrite Hs4, Hs3, Hs2, !app_nil_r. }
  rewrite Hr, Hprobe. rewrite !bind_run.
  set (w5 := (Mp3Processor.validateFFmpeg w4).2) in *.
  destruct (log_only_logged lg "info" "âœ“ FFmpeg is available" w5) as (He6 & _).
  set (w6 := (Logger.info lg "âœ“ FFmpeg is available" w5).2) in *.
  assert (w_env w6 = w_env w) as He.
  { unfold w6, w4, Logger.info in *. by rewrite He6, He5, He4, He3, He2. }
  pose proof (processFolder_run lg (App.inputFolder args) (App.coverArtPath args)
                (App.outputFolder args) w6) as Hpf.
  rewrite He in Hpf.
  split.
  - intros listing Hdir. rewrite Hdir in Hpf. cbv zeta in Hpf.
    destruct (length (Batch.candidates (App.inputFolder args) w6) =? 0)%nat.
    + rewrite Hpf. cbn [fst snd]. rewrite bind_run. by eexists.
    + rewrite Hmk in Hpf. rewrite Hpf. cbn [fst snd]. rewrite bind_run. by eexists.
  - intros cause Hdir. rewrite Hdir in Hpf. rewrite Hpf. cbn [fst snd].
    match goal with
    | |- ∃ w', App.fail lg ?m ?w0 = _ =>
        destruct (fail_exits lg m w0) as [Hexit _];
        exists (App.fail lg m w0).2; rewrite <- Hexit;
        by destruct (App.fail lg m w0)
    end.
Qed.

Lemma missing_converter_stops_the_run_witness :
  ∃ w' : World,
    App.run ["/music"; "/cover.jpg"] (stocked_world no_converter_env)
    = (App.Exited 1, w')
    ∧ w_spawned w' = [("ffmpeg", ["-version"])].
Proof.
  destruct (missing_converter_stops_the_run ["/music"; "/cover.jpg"] music_arguments
              (stocked_world no_converter_env)) as (w' & H & Hs & _).
  - by vm_compute.
  - apply (bool_decide_unpack _). by vm_compute.
  - apply (bool_decide_unpack _). by vm_compute.
  - apply (bool_decide_unpack _). by vm_compute.
  - reflexivity.
  - by vm_compute.
  - exists w'. split; [exact H|exact Hs].
Defined.

Lemma conversions_never_decide_the_exit_witness :
  ∃ w' : World,
    App.run ["/music"; "/cover.jpg"] (stocked_world failing_conversions_env)
    = (App.Returned tt, w').
Proof.
  destruct (conversions_never_decide_the_exit ["/music"; "/cover.jpg"] music_arguments
              (stocked_world failing_conversions_env)) as [H _].
  - by vm_compute.
  - apply (bool_decide_unpack _). by vm_compute.
  - apply (bool_decide_unpack _). by vm_compute.
  - apply (bool_decide_unpack _). by vm_compute.
  - reflexivity.
  - reflexivity.
  - exact (H ["a.mp3"; "b.MP3"; "c.wav"; "d.txt"] eq_refl).
Defined.

(** ** A run with a logger that lets nothing pass *)

Section Silence.
Import Mp3Processor.
Variable lg : Logger.logger.
Hypothesis Hsilent : silent lg.

Lemma silent_debug message w : Logger.log lg "debug" message w = (tt, w).
Proof. apply log_below, Hsilent, recognized_debug. Qed.

Lemma silent_info message w : Logger.log lg "info" message w = (tt, w).
Proof. apply log_below, Hsilent, recognized_info. Qed.

Lemma silent_warn message w : Logger.log lg "warn" message w = (tt, w).
Proof. apply log_below, Hsilent, recognized_warn. Qed.

Lemma silent_error message w : Logger.log lg "error" message w = (tt, w).
Proof. apply log_below, Hsilent, recognized_error. Qed.

Lemma silent_info_all messages w : info_all lg messages w = (tt, w).
Proof.
  induction messages as [|m rest IH]; [done|].
  cbn [info_all]. rewrite bind_run. unfold Logger.info. by rewrite silent_info.
Qed.

Lemma silent_onClose i o text code w :
  w_stdout (onClose lg i o text code w).2 = w_stdout w.
Proof.
  unfold onClose, Logger.info, Logger.error.
  destruct code as [[| |]|]; rewrite ?bind_run, ?silent_info, ?silent_error;
    cbn [ret fst snd]; try destruct (JsString.is_empty _);
    rewrite ?silent_error; done.
Qed.

Lemma silent_applyCoverArt i c o w :
  w_stdout (applyCoverArt lg i c o w).2 = w_stdout w.
Proof.
  unfold applyCoverArt. rewrite !bind_run. unfold Logger.info, Logger.error.
  rewrite !silent_info. cbn [fst snd].
  rewrite onData_silent by apply Hsilent, recognized_debug.
  assert (w_stdout (Sys.spawn "ffmpeg" (ffmpegArgs i c o) w).2 = w_stdout w) as Hsp.
  { unfold Sys.spawn. cbn [snd]. rewrite output_of_ffmpegArgs.
    by destruct (pr_wrote _). }
  destruct (pr_ending _) as [code|message].
  - by rewrite silent_onClose.
  - rewrite !bind_run, silent_error. cbn [ret fst snd]. by rewrite silent_onClose.
Qed.

Lemma silent_iteration c o f counts w :
  w_stdout (iteration lg c o f counts w).2 = w_stdout w.
Proof.
  destruct counts as [s fl]. unfold iteration. rewrite bind_run.
  change (Sys.pathExists (Path.join o (Path.basename f)) w)
    with (bool_decide (Path.join o (Path.basename f) ∈ w_paths w), w).
  cbn [fst snd]. destruct (bool_decide _).
  - rewrite bind_run. unfold Logger.warn. by rewrite silent_warn.
  - rewrite bind_run.
    pose proof (silent_applyCoverArt f c (Path.join o (Path.basename f)) w) as H.
    destruct (applyCoverArt lg f c (Path.join o (Path.basename f)) w) as [[u|m] w1];
      cbn [fst snd] in *; [done|].
    rewrite bind_run. unfold Logger.error. by rewrite silent_error.
Qed.

Lemma silent_loop c o files counts w :
  w_stdout (loop lg c o files counts w).2 = w_stdout w.
Proof.
  revert counts w. induction files as [|f rest IH]; intros counts w; [done|].
  cbn [loop]. rewrite bind_run, IH. apply silent_iteration.
Qed.

Lemma silent_processFolder i c o w :
  w_stdout (processFolder lg i c o w).2 = w_stdout w.
Proof.
  rewrite processFolder_run.
  assert ((getMp3Files lg i w).2 = w) as Hg.
  { rewrite getMp3Files_run. destruct (e_readdir _ _); [done|].
    unfold Logger.info. by rewrite silent_info. }
  destruct (e_readdir (w_env w) i); [done|]. cbv zeta. rewrite Hg.
  destruct (length (Batch.candidates i w) =? 0)%nat.
  { unfold Logger.warn. by rewrite silent_warn. }
  destruct (e_ensureDir (w_env w) o) eqn:Hmk; [done|]. cbn [snd].
  unfold logSummary. rewrite bind_run, silent_info_all. cbn [fst snd].
  assert (w_stdout (Batch.loop_start lg i o w) = w_stdout w) as H0.
  { unfold Batch.loop_start. cbn [snd]. rewrite Hg, ensureDir_run, Hmk.
    unfold Logger.info. by rewrite silent_info. }
  destruct (0 <? _); [unfold Logger.info; rewrite silent_info|];
    cbn [ret snd]; by rewrite silent_loop.
Qed.

Lemma silent_validateArguments args w :
  w_stdout (App.validateArguments lg args w).2 = w_stdout w.
Proof.
  unfold App.validateArguments. rewrite bind_run.
  change (Sys.pathExists (App.inputFolder args) w)
    with (bool_decide (App.inputFolder args ∈ w_paths w), w).
  cbn [fst snd]. destruct (bool_decide _); cbn [negb]; [|done].
  rewrite bind_run.
  change (Sys.pathExists (App.coverArtPath args) w)
    with (bool_decide (App.coverArtPath args ∈ w_paths w), w).
  cbn [fst snd]. destruct (bool_decide _); cbn [negb]; [|done].
  destruct (bool_decide _); cbn [negb]; [|done].
  rewrite bind_run, ensureDir_run.
  destruct (e_ensureDir _ _); [done|]. cbn [fst snd]. rewrite !bind_run.
  unfold Logger.info. by rewrite !silent_info.
Qed.

Lemma silent_fail message w : App.fail lg message w = (App.Exited 1, w).
Proof. unfold App.fail. rewrite bind_run. unfold Logger.error. by rewrite silent_error. Qed.

End Silence.

Lemma unrecognised_threshold_is_silent lg :
  Logger.logLevel lg ∉ recognized → silent lg.
Proof. intros H level Hl. by apply unranked_threshold. Qed.

(** X25: the level given with [--log-level] is not checked: with a name
    that is not one of debug, info, warn, error the whole run is mute on the
    standard output, whatever it does and however it ends: neither the
    progress, nor the summary, nor the reason of a failure is printed. *)
Theorem unrecognised_log_level_mutes_the_run (argv : list string)
    (args : App.Arguments) (w : World) :
  (App.parseArguments argv w).1 = App.Returned args →
  App.logLevel args ∉ recognized →
  w_stdout (App.run argv w).2 = w_stdout w.
Proof.
  intros Hparse Hlevel. apply parse_world in Hparse.
  destruct (new_frame (App.logLevel args) w) as (Hlg & _ & _ & Hout & _).
  set (lg := Logger.dated_logger (App.logLevel args) w) in *.
  assert (silent lg) as Hs by (by apply unrecognised_threshold_is_silent).
  unfold App.run. rewrite bind_run, Hparse. cbn [fst snd].
  rewrite bind_run, Hlg. fold lg. rewrite !bind_run.
  unfold Logger.info, Logger.debug.
  repeat (first [rewrite (silent_info lg Hs) | rewrite (silent_debug lg Hs)]; cbn [fst snd]).
  set (w1 := (Logger.new (App.logLevel args) true w).2) in *.
  pose proof (silent_validateArguments lg Hs args w1) as Hv.
  destruct (App.validateArguments lg args w1) as [[u|m] w2]; cbn [fst snd] in *.
  2:{ rewrite (silent_fail lg Hs). cbn [snd]. by rewrite Hv. }
  rewrite ?bind_run. repeat (first [rewrite (silent_info lg Hs) | rewrite (silent_debug lg Hs)]; cbn [fst snd]).
  destruct (validateFFmpeg_run w2) as (Hr & _ & _ & _ & Hp).
  destruct (Mp3Processor.validateFFmpeg w2) as [probe w3]. cbn [fst snd] in *.
  subst probe.
  destruct (pr_ending (Batch.probe_run w2)) as [[[| |]|]|message];
    try (rewrite (silent_fail lg Hs); cbn [snd]; by rewrite Hp, Hv).
  rewrite ?bind_run. repeat (first [rewrite (silent_info lg Hs) | rewrite (silent_debug lg Hs)]; cbn [fst snd]).
  pose proof (silent_processFolder lg Hs (App.inputFolder args) (App.coverArtPath args)
                (App.outputFolder args) w3) as Hpf.
  destruct (Mp3Processor.processFolder lg (App.inputFolder args)
              (App.coverArtPath args) (App.outputFolder args) w3) as [[r|m] w4];
    cbn [fst snd] in *.
  - rewrite ?bind_run. repeat (first [rewrite (silent_info lg Hs) | rewrite (silent_debug lg Hs)]; cbn [fst snd]).
    cbn [ret snd]. by rewrite Hpf, Hp, Hv.
  - rewrite (silent_fail lg Hs). cbn [snd]. by rewrite Hpf, Hp, Hv.
Qed.

Lemma unrecognised_log_level_mutes_the_run_witness :
  w_stdout (App.run ["/music"; "/cover.jpg"; "--log-level"; "verbose"]
              (stocked_world failing_conversions_env)).2 = [].
Proof.
  refine (unrecognised_log_level_mutes_the_run
            ["/music"; "/cover.jpg"; "--log-level"; "verbose"]
            {| App.inputFolder := "/music"; App.coverArtPath := "/cover.jpg";
               App.outputFolder := "/output"; App.logLevel := "verbose" |}
            (stocked_world failing_conversions_env) _ _).
  - by vm_compute.
  - apply (bool_decide_unpack _). by vm_compute.
Defined.

Import Mp3Processor Batch.

(** ** The two sinks of the logger *)

(** X26: a message that passes the filter of a logger with a file sink goes
    to both sinks with the same text: the clock is read once, the console
    gets the formatted message between the colour codes, and one append of
    the formatted message and a line feed is issued to the log file.  When
    that append fails, the failure is reported on the error console and the
    line is lost; nothing is retried. *)
Theorem both_sinks_get_the_same_text (lg : Logger.logger) (level message : string)
    (w : World) :
  Logger.shouldLog lg level = true →
  Logger.logToFile lg = true →
  let text := Logger.format (e_clock (w_env w) (w_clock_reads w)) level message in
  let w' := (Logger.log lg level message w).2 in
  w_stdout w' = w_stdout w ++ [Logger.coloured level text]
  ∧ w_appends w' = w_appends w ++ [(Logger.getLogFilePath lg, text +:+ Logger.newline)]
  ∧ w_clock_reads w' = S (w_clock_reads w)
  ∧ (e_appendFile (w_env w) (length (w_appends w)) (Logger.getLogFilePath lg) = None →
     w_written w' = w_written w ++ [(Logger.getLogFilePath lg, text +:+ Logger.newline)]
     ∧ w_stderr w' = w_stderr w)
  ∧ (∀ cause,
       e_appendFile (w_env w) (length (w_appends w)) (Logger.getLogFilePath lg)
       = Some cause →
       w_written w' = w_written w
       ∧ w_stderr w' = w_stderr w ++ ["Failed to write to log file: " +:+ cause]).
Proof.
  intros Hpass Hfile text w'.
  destruct (log_above lg level message w Hpass) as (Hout & Hclock & Happ & Hwr & Herr).
  cbv zeta in *. rewrite Hfile in *. unfold Logger.getLogFilePath.
  subst w' text. split_and!; try done.
  - intros Hok. rewrite Hok in *. by rewrite Herr, app_nil_r.
  - intros cause Hko. rewrite Hko in *. by rewrite Hwr, app_nil_r.
Qed.

Lemma both_sinks_get_the_same_text_witness :
  w_stdout (Logger.log (sample_logger "info") "info" "ready" (world_of sample_env)).2
  = [Logger.coloured "info"
       (Logger.format (e_clock sample_env 0%nat) "info" "ready")]
  ∧ w_appends (Logger.log (sample_logger "info") "info" "ready" (world_of sample_env)).2
    = [(Logger.getLogFilePath (sample_logger "info"),
        Logger.format (e_clock sample_env 0%nat) "info" "ready" +:+ Logger.newline)].
Proof.
  destruct (both_sinks_get_the_same_text (sample_logger "info") "info" "ready"
              (world_of sample_env)) as (Hout & Happ & _).
  - by vm_compute.
  - by vm_compute.
  - split; [exact Hout|exact Happ].
Defined.

(** ** The script *)

(** X27: the script builds a first logger before it looks at the command
    line.  With fewer than two positional arguments the call still reads the
    clock once, for the date in the name of the log file, and then prints
    the usage text and ends with status 1: nothing is appended to a log, no
    child process is started, and the only paths that can have come into
    being are the log directory and the dated log file of that first
    logger. *)
Theorem usage_error_comes_after_the_first_logger (argv : list string) (w : World) :
  (length (App.scanLogLevel argv).2 < 2)%nat →
  ∃ w' : World,
    App.main argv w = (App.Exited 1, w')
    ∧ w_stdout w' = w_stdout w ++ [App.usage]
    ∧ w_clock_reads w' = S (w_clock_reads w)
    ∧ w_spawned w' = w_spawned w
    ∧ w_appends w' = w_appends w
    ∧ w_paths w ⊆ w_paths w'
    ∧ ∀ p, p ∈ w_paths w' →
           p ∈ w_paths w
           ∨ p = Logger.logDir (Logger.dated_logger "info" w)
           ∨ p = Logger.logFile (Logger.dated_logger "info" w).
Proof.
  intros Hfew. unfold App.main. rewrite bind_run, new_with_file.
  cbn [fst snd]. unfold App.run, App.parseArguments. rewrite bind_run.
  destruct (App.scanLogLevel argv) as [level args]. cbn [snd] in Hfew.
  apply Nat.ltb_lt in Hfew. rewrite Hfew.
  set (lg := Logger.dated_logger "info" w).
  unfold Logger.initializeLogFile, bind, ret, Sys.nowISOString, Sys.ensureDir,
    Sys.ensureFile, Sys.consoleError, Sys.create, App.showUsage, Sys.consoleLog.
  cbn [fst snd w_env].
  destruct (e_ensureDir (w_env w) (Logger.logDir lg)); cbn [fst snd w_env];
    [|destruct (e_ensureFile (w_env w) (Logger.logFile lg))];
    cbn [fst snd w_env w_spawned w_stdout w_paths w_appends w_clock_reads];
    (eexists; split; [reflexivity|]);
    cbn [w_spawned w_stdout w_paths w_appends w_clock_reads];
    split_and!; try done;
    try (intros p Hp; by left);
    intros p; rewrite ?elem_of_union, ?elem_of_singleton; tauto.
Qed.

Lemma usage_error_comes_after_the_first_logger_witness :
  ∃ w' : World,
    App.main ["/music"] (world_of sample_env) = (App.Exited 1, w')
    ∧ w_stdout w' = [App.usage]
    ∧ w_clock_reads w' = 1%nat.
Proof.
  destruct (usage_error_comes_after_the_first_logger ["/music"] (world_of sample_env))
    as (w' & H & Hout & Hclock & _).
  - vm_compute. lia.
  - exists w'. split; [exact H|]. split; [exact Hout|exact Hclock].
Defined.

(** ** The child processes of a batch *)

Section Started.
Variable lg : Logger.logger.
Variables cover out : string.

Lemma outcome_cases e : outcome e = Converted ∨ outcome e = Failed.
Proof. destruct e as [[[| |]|]|]; cbn; tauto. Qed.

Lemma loop_started files counts w :
  ∃ fs,
    fs `sublist_of` files
    ∧ w_env (loop lg cover out files counts w).2 = w_env w
    ∧ w_paths w ⊆ w_paths (loop lg cover out files counts w).2
    ∧ w_spawned (loop lg cover out files counts w).2
      = w_spawned w ++ List.map (conversion cover out) fs
    ∧ Forall (λ f, destination out f ∉ w_paths w) fs.
Proof.
  revert counts w. induction files as [|f rest IH]; intros [s fl] w.
  { exists []. cbn [loop ret snd List.map]. rewrite app_nil_r. by split_and!. }
  cbn [loop]. rewrite bind_run.
  pose proof (iteration_spec lg cover out f s fl w) as Hit. cbv zeta in Hit.
  destruct Hit as [_ Hit]. unfold verdict in Hit.
  destruct (IH (iteration lg cover out f (s, fl) w).1
              (iteration lg cover out f (s, fl) w).2)
    as (fs & Hsub & He & Hp & Hs & Hfs).
  set (w1 := (iteration lg cover out f (s, fl) w).2) in *.
  destruct (bool_decide (destination out f ∈ w_paths w)) eqn:Hb.
  - destruct Hit as (He1 & Hs1 & Hp1 & _). rewrite app_nil_r in Hs1.
    exists fs. split_and!.
    + by apply sublist_cons.
    + by rewrite He.
    + intros p Hin. by apply Hp, Hp1.
    + by rewrite Hs, Hs1.
    + eapply Forall_impl; [exact Hfs|]. intros g Hg Hin. by apply Hg, Hp1.
  - apply bool_decide_eq_false in Hb.
    assert (evolved lg
              (if pr_wrote (e_spawn (w_env w) (length (w_spawned w)) "ffmpeg"
                              (ffmpegArgs f cover (destination out f)))
               then {[ destination out f ]} else ∅)
              [conversion cover out f] w w1) as (He1 & Hs1 & Hp1 & _).
    { destruct (outcome_cases (next_ending w cover out f)) as [Ho|Ho];
        rewrite Ho in Hit; apply Hit. }
    exists (f :: fs). split_and!.
    + by apply sublist_skip.
    + by rewrite He.
    + intros p Hin. by apply Hp, Hp1.
    + rewrite Hs, Hs1. cbn [List.map]. by rewrite <- app_assoc.
    + constructor; [done|].
      eapply Forall_impl; [exact Hfs|]. intros g Hg Hin. by apply Hg, Hp1.
Qed.

Lemma processFolder_started inF w :
  ∃ fs,
    fs `sublist_of` candidates inF w
    ∧ Forall (λ f, destination out f ∉ w_paths w) fs
    ∧ w_spawned (processFolder lg inF cover out w).2
      = w_spawned w ++ List.map (conversion cover out) fs.
Proof.
  rewrite processFolder_run.
  destruct (getMp3Files_only_logged lg inF w) as (He1 & Hs1 & Hp1 & _).
  rewrite app_nil_r in Hs1.
  destruct (e_readdir (w_env w) inF) as [m|listing] eqn:Hdir.
  { exists []. cbn [snd List.map]. rewrite app_nil_r.
    split_and!; [apply sublist_nil_l|constructor|done]. }
  cbv zeta. destruct (length (candidates inF w) =? 0)%nat.
  { exists []. cbn [snd List.map]. rewrite app_nil_r.
    split_and!; [apply sublist_nil_l|constructor|].
    destruct (log_only_logged lg "warn" "No MP3 files found in the input folder"
                (getMp3Files lg inF w).2) as (_ & Hs2 & _).
    unfold Logger.warn. by rewrite Hs2, app_nil_r. }
  destruct (e_ensureDir (w_env w) out) as [m|] eqn:Hmk.
  { exists []. cbn [snd List.map]. rewrite app_nil_r.
    split_and!; [apply sublist_nil_l|constructor|done]. }
  cbn [snd].
  destruct (loop_start_evolved lg inF out w Hmk) as [(He2 & Hs2 & Hp2 & _) _].
  rewrite app_nil_r in Hs2.
  destruct (loop_started (candidates inF w) (0, 0) (loop_start lg inF out w))
    as (fs & Hsub & He3 & Hp3 & Hs3 & Hfs).
  exists fs. split_and!; [done| |].
  - eapply Forall_impl; [exact Hfs|]. intros g Hg Hin. by apply Hg, Hp2.
  - destruct (logSummary_only_logged lg out
                (tally_of (candidates inF w)
                   (loop lg cover out (candidates inF w) (0, 0)
                      (loop_start lg inF out w)).1)
                (loop lg cover out (candidates inF w) (0, 0)
                   (loop_start lg inF out w)).2) as (_ & Hs4 & _).
    by rewrite Hs4, app_nil_r, Hs3, Hs2.
Qed.

End Started.

(** X28: whatever its result, [processFolder] starts no other child
    processes than conversions of its candidates, each at most once and in
    listing order, each with the destination of its candidate as output;
    and it never starts one for a destination that existed when the call
    began: although the converter is given [-y], the batch overwrites no
    file that was there before. *)
Theorem batch_starts_only_conversions_in_order (lg : Logger.logger)
    (inputFolder coverArtPath outputFolder : string) (w : World) :
  ∃ attempted : list string,
    attempted `sublist_of` candidates inputFolder w
    ∧ Forall (λ f, destination outputFolder f ∉ w_paths w) attempted
    ∧ w_spawned (processFolder lg inputFolder coverArtPath outputFolder w).2
      = w_spawned w ++ List.map (conversion coverArtPath outputFolder) attempted.
Proof. apply processFolder_started. Qed.

(** ** The child processes of a run *)

Lemma validateArguments_frame lg args w :
  w_env (App.validateArguments lg args w).2 = w_env w
  ∧ w_spawned (App.validateArguments lg args w).2 = w_spawned w
  ∧ w_paths w ⊆ w_paths (App.validateArguments lg args w).2.
Proof.
  unfold App.validateArguments. rewrite bind_run.
  change (Sys.pathExists (App.inputFolder args) w)
    with (bool_decide (App.inputFolder args ∈ w_paths w), w).
  cbn [fst snd]. destruct (bool_decide _); cbn [negb ret snd]; [|done].
  rewrite bind_run.
  change (Sys.pathExists (App.coverArtPath args) w)
    with (bool_decide (App.coverArtPath args ∈ w_paths w), w).
  cbn [fst snd]. destruct (bool_decide _); cbn [negb ret snd]; [|done].
  destruct (bool_decide _); cbn [negb ret snd]; [|done].
  rewrite bind_run, ensureDir_run.
  destruct (e_ensureDir (w_env w) (App.outputFolder args)); cbn [fst snd ret]; [done|].
  rewrite !bind_run. cbn [ret fst snd].
  assert (evolved lg {[ App.outputFolder args ]} [] w
            (Logger.info lg ("Output folder: " +:+ App.outputFolder args)
               (Logger.info lg ("Cover art: " +:+ App.coverArtPath args)
                  (Logger.info lg ("Input folder: " +:+ App.inputFolder args)
                     (Sys.create (App.outputFolder args) w)).2).2).2)
    as (He & Hs & Hp & _).
  { eapply evolved_then_log; [apply create_evolved|].
    eapply only_logged_trans; [|apply log_only_logged].
    eapply only_logged_trans; apply log_only_logged. }
  rewrite app_nil_r in Hs. by split_and!.
Qed.

Lemma log_frame lg level message w :
  w_env (Logger.log lg level message w).2 = w_env w
  ∧ w_spawned (Logger.log lg level message w).2 = w_spawned w
  ∧ w_paths w ⊆ w_paths (Logger.log lg level message w).2.
Proof.
  destruct (log_only_logged lg level message w) as (He & Hs & Hp & _).
  rewrite app_nil_r in Hs. by split_and!.
Qed.

Lemma fail_frame lg message w :
  w_spawned (App.fail lg message w).2 = w_spawned w.
Proof.
  destruct (fail_exits lg message w) as (_ & _ & Hs & _).
  by rewrite app_nil_r in Hs.
Qed.

(** X29: a run starts no other program than the converter: either it
    starts no child process at all, or the first one is the probe
    [ffmpeg -version] and the others are conversions of candidates of the
    input folder, in listing order, none of them to a destination that
    existed when the run began. *)
Theorem run_starts_the_probe_then_conversions (argv : list string) (w : World) :
  w_spawned (App.run argv w).2 = w_spawned w
  ∨ ∃ (args : App.Arguments) (attempted : list string),
      (App.parseArguments argv w).1 = App.Returned args
      ∧ attempted `sublist_of` candidates (App.inputFolder args) w
      ∧ Forall (λ f, destination (App.outputFolder args) f ∉ w_paths w) attempted
      ∧ w_spawned (App.run argv w).2
        = w_spawned w
            ++ ("ffmpeg", ["-version"])
               :: List.map (conversion (App.coverArtPath args) (App.outputFolder args))
                    attempted.
Proof.
  destruct (App.parseArguments argv w) as [[code|args] w0] eqn:Hparse.
  { left. unfold App.run. rewrite bind_run, Hparse. cbn [fst snd ret].
    revert Hparse. unfold App.parseArguments.
    destruct (App.scanLogLevel argv) as [level rest].
    destruct (length rest <? 2)%nat; rewrite bind_run; cbn [ret fst snd];
      intros Heq; inversion Heq; done. }
  assert ((App.parseArguments argv w).1 = App.Returned args) as Hargs
    by (by rewrite Hparse).
  destruct (run_setup argv w args Hargs) as (w2 & Hrun & He2 & Hs2 & Hp2 & _).
  rewrite Hrun. cbv zeta.
  set (lg := Logger.dated_logger (App.logLevel args) w).
  rewrite bind_run.
  destruct (validateArguments_frame lg args w2) as (He3 & Hs3 & Hp3).
  destruct (App.validateArguments lg args w2) as [[u|m] w3]; cbn [fst snd] in *.
  2:{ left. by rewrite fail_frame, Hs3. }
  rewrite !bind_run. unfold Logger.info.
  destruct (log_frame lg "info" "Checking FFmpeg installation..." w3)
    as (He4 & Hs4 & Hp4).
  set (w4 := (Logger.log lg "info" "Checking FFmpeg installation..." w3).2) in *.
  destruct (validateFFmpeg_run w4) as (Hr & He5 & Hs5 & Hp5 & _).
  destruct (Mp3Processor.validateFFmpeg w4) as [probe w5]. cbn [fst snd] in *.
  right. exists args.
  assert (w_spawned w5 = w_spawned w ++ [("ffmpeg", ["-version"])]) as Hprobe
    by (by rewrite Hs5, Hs4, Hs3, Hs2).
  subst probe.
  destruct (pr_ending (Batch.probe_run w4)) as [[[| |]|]|message];
    try (exists []; split_and!; [done|apply sublist_nil_l|constructor|];
         by rewrite fail_frame).
  rewrite ?bind_run. unfold Logger.info.
  destruct (log_frame lg "info" "âœ“ FFmpeg is available" w5) as (He6 & Hs6 & Hp6).
  set (w6 := (Logger.log lg "info" "âœ“ FFmpeg is available" w5).2) in *.
  destruct (processFolder_started lg (App.coverArtPath args) (App.outputFolder args)
              (App.inputFolder args) w6) as (fs & Hsub & Hfs & Hs7).
  exists fs. split_and!; [done| | |].
  - rewrite <- (candidates_env (App.inputFolder args) w w6); [done|].
    by rewrite He6, He5, He4, He3, He2.
  - eapply Forall_impl; [exact Hfs|]. intros g Hg Hin. apply Hg.
    apply Hp6. rewrite Hp5. by apply Hp4, Hp3, Hp2.
  - destruct (processFolder lg (App.inputFolder args) (App.coverArtPath args)
                (App.outputFolder args) w6) as [[r|m] w7]; cbn [fst snd] in *.
    + rewrite ?bind_run. unfold Logger.info.
      destruct (log_frame lg "info" "MP3 Cover Art Application Completed Successfully" w7)
        as (_ & Hs8 & _).
      cbn [ret snd]. rewrite Hs8, Hs7, Hs6, Hprobe. by rewrite <- app_assoc.
    + rewrite fail_frame, Hs7, Hs6, Hprobe. by rewrite <- app_assoc.
Qed.

(** ** The paths that [parseArguments] returns *)

Section Canonical.
Import JsString Path PathShape.

(** The segments of an absolute path that resolution leaves as it is. *)
Lemma resolve_fixed cwd L :
  Forall proper L → Forall (plain slash) L →
  PathResolve.resolve cwd ("/" +:+ JsString.join "/" L) = "/" +:+ JsString.join "/" L.
Proof.
  intros Hproper Hplain. unfold PathResolve.resolve.
  change ("/" +:+ JsString.join "/" L) with (String slash (JsString.join "/" L)).
  cbn [is_empty].
  change (startsWith "/" (String slash (JsString.join "/" L))) with true.
  cbv iota beta zeta. cbn [negb]. unfold segments.
  change (String slash (JsString.join "/" L) +:+ "/")
    with (String slash (JsString.join "/" L +:+ String slash "")).
  rewrite split_cons_sep, split_app_sep.
  change (split slash "") with [""].
  assert (norm_segments false ("" :: split slash (JsString.join "/" L) ++ [""]) = L)
    as ->; [|reflexivity].
  unfold norm_segments. cbn [fold_left]. rewrite norm_step_skip.
  rewrite fold_left_app. cbn [fold_left]. rewrite norm_step_skip.
  destruct L as [|x L]; [reflexivity|].
  assert (split slash (JsString.join "/" (x :: L)) = x :: L) as ->
      by (by apply (split_join slash)).
  rewrite fold_norm_proper by done. by rewrite app_nil_r, rev_involutive.
Qed.

Lemma parsed_shape argv w a :
  startsWith "/" (e_cwd (w_env w)) = true →
  (App.parseArguments argv w).1 = App.Returned a →
  ∃ Li Lc Lo,
    (Forall proper Li ∧ Forall (plain slash) Li)
    ∧ (Forall proper Lc ∧ Forall (plain slash) Lc)
    ∧ (Forall proper Lo ∧ Forall (plain slash) Lo)
    ∧ App.inputFolder a = "/" +:+ JsString.join "/" Li
    ∧ App.coverArtPath a = "/" +:+ JsString.join "/" Lc
    ∧ App.outputFolder a = "/" +:+ JsString.join "/" Lo.
Proof.
  intros Habs. unfold App.parseArguments.
  destruct (App.scanLogLevel argv) as [level args].
  destruct (length args <? 2)%nat; rewrite bind_run; cbn [Sys.processCwd ret fst snd];
    [done|].
  intros Heq. inversion Heq as [Ha]. clear Heq Ha. cbn.
  destruct (resolve_shape (e_cwd (w_env w)) (List.nth 0 args "") Habs)
    as (Li & Hi1 & Hi2 & Hi).
  destruct (resolve_shape (e_cwd (w_env w)) (List.nth 1 args "") Habs)
    as (Lc & Hc1 & Hc2 & Hc).
  destruct (App.truthy_at args 2).
  - destruct (resolve_shape (e_cwd (w_env w)) (List.nth 2 args "") Habs)
      as (Lo & Ho1 & Ho2 & Ho).
    exists Li, Lc, Lo. by split_and!.
  - exists Li, Lc, (removelast Li ++ ["output"]). split_and!; try done.
    + apply Forall_app. split; [|by repeat constructor].
      clear -Hi1. induction Hi1 as [|x l Hx Hl IH]; [constructor|].
      destruct l; [constructor|]. cbn [removelast]. constructor; [done|apply IH].
    + apply Forall_app. split; [|by repeat constructor].
      clear -Hi2. induction Hi2 as [|x l Hx Hl IH]; [constructor|].
      destruct l; [constructor|]. cbn [removelast]. constructor; [done|apply IH].
    + rewrite Hi. by apply sibling_output.
Qed.

End Canonical.

(** X30: under an absolute working directory the paths that
    [parseArguments] returns are canonical: given back as the three
    positional arguments, in any world and under any working directory, they
    parse to themselves, with the default level. *)
Theorem parsed_paths_parse_to_themselves (argv : list string) (a : App.Arguments)
    (w w2 : World) :
  JsString.startsWith "/" (e_cwd (w_env w)) = true →
  (App.parseArguments argv w).1 = App.Returned a →
  App.parseArguments [App.inputFolder a; App.coverArtPath a; App.outputFolder a] w2
  = (App.Returned {| App.inputFolder := App.inputFolder a;
                     App.coverArtPath := App.coverArtPath a;
                     App.outputFolder := App.outputFolder a;
                     App.logLevel := "info" |}, w2).
Proof.
  intros Habs Hparse.
  destruct (parsed_shape argv w a Habs Hparse)
    as (Li & Lc & Lo & [Hi1 Hi2] & [Hc1 Hc2] & [Ho1 Ho2] & Hi & Hc & Ho).
  pose proof (resolve_fixed (e_cwd (w_env w2)) Li Hi1 Hi2) as Ri.
  pose proof (resolve_fixed (e_cwd (w_env w2)) Lc Hc1 Hc2) as Rc.
  pose proof (resolve_fixed (e_cwd (w_env w2)) Lo Ho1 Ho2) as Ro.
  rewrite <- Hi in Ri. rewrite <- Hc in Rc. rewrite <- Ho in Ro.
  assert (App.scanLogLevel [App.inputFolder a; App.coverArtPath a; App.outputFolder a]
          = ("info", [App.inputFolder a; App.coverArtPath a; App.outputFolder a])) as Hscan.
  { unfold App.scanLogLevel. rewrite Hi, Hc, Ho.
    change ("/" +:+ JsString.join "/" Li) with (String Path.slash (JsString.join "/" Li)).
    change ("/" +:+ JsString.join "/" Lc) with (String Path.slash (JsString.join "/" Lc)).
    change ("/" +:+ JsString.join "/" Lo) with (String Path.slash (JsString.join "/" Lo)).
    reflexivity. }
  unfold App.parseArguments. rewrite Hscan. cbv beta iota.
  change (length [App.inputFolder a; App.coverArtPath a; App.outputFolder a] <? 2)%nat
    with false.
  cbv iota. rewrite bind_run. cbn [Sys.processCwd ret fst snd List.nth].
  assert (App.truthy_at [App.inputFolder a; App.coverArtPath a; App.outputFolder a] 2
          = true) as ->.
  { unfold App.truthy_at. cbn [nth_error]. by rewrite Ho. }
  by rewrite Ri, Rc, Ro.
Qed.

Lemma parsed_paths_parse_to_themselves_witness :
  App.parseArguments ["/music"; "/cover.jpg"; "/output"] (world_of sample_env)
  = (App.Returned music_arguments, world_of sample_env).
Proof.
  refine (parsed_paths_parse_to_themselves
            ["/music/../music"; "/cover.jpg"; "--log-level"; "info"] music_arguments
            (stocked_world sample_env) (world_of sample_env) _ _).
  - by vm_compute.
  - by vm_compute.
Defined.
